(** * Persistent-random-data: the linked-object persistence engine

    A shallow embedding of the TypeScript services of the repository
    (database, store, retrieve and delete services and the public
    [TtPersistenceService]) together with the properties of the natural
    language specification that are settled against them.

    Conventions of the embedding.
    - A JavaScript value is a [JsVal].  Numbers are the integers [Z]
      (no fractions, no NaN); strings are [string]; an object is the list of
      its own enumerable properties in insertion order.
    - A JavaScript [Map] is an association list in insertion order: [set] on
      a present key keeps the position of the key, as in JavaScript.
    - Code that can throw returns a [Result]; an observable that emits at
      most one notification is an [Outcome]. *)

From Stdlib Require Import List String Ascii ZArith Lia Bool Arith PeanoNat.
From Stdlib Require Import Permutation Sorted.
Import ListNotations.
Local Open Scope string_scope.
Local Open Scope Z_scope.

Set Implicit Arguments.
Set Warnings "-register-all".

(* ------------------------------------------------------------------ *)
(** * JavaScript values *)

Inductive JsVal : Type :=
| JUndefined
| JNull
| JBool (b : bool)
| JNum (n : Z)
| JStr (s : string)
| JArr (items : list JsVal)
| JObj (fields : list (string * JsVal)).

Definition Fields := list (string * JsVal).

(** [typeof v === 'object'] holds of [null], arrays and objects. *)
Definition typeofObject (v : JsVal) : bool :=
  match v with
  | JNull | JArr _ | JObj _ => true
  | _ => false
  end.

Definition typeofString (v : JsVal) : bool :=
  match v with JStr _ => true | _ => false end.

Definition isArray (v : JsVal) : bool :=
  match v with JArr _ => true | _ => false end.

(** JavaScript truthiness ([!!v]) on the embedded values. *)
Definition truthy (v : JsVal) : bool :=
  match v with
  | JUndefined | JNull => false
  | JBool b => b
  | JNum n => negb (n =? 0)
  | JStr s => negb (s =? "")%string
  | JArr _ | JObj _ => true
  end.

(** [asArray]: [Array.isArray(item) ? item : [item]]. *)
Definition asArray (item : JsVal) : list JsVal :=
  match item with
  | JArr l => l
  | _ => [item]
  end.

(* ------------------------------------------------------------------ *)
(** * Insertion-ordered maps (JavaScript [Map] and object property lists) *)

Section StringMap.
Variable V : Type.

Fixpoint mapGet (m : list (string * V)) (k : string) : option V :=
  match m with
  | [] => None
  | (k', v) :: rest => if (k' =? k)%string then Some v else mapGet rest k
  end.

Definition mapHas (m : list (string * V)) (k : string) : bool :=
  match mapGet m k with Some _ => true | None => false end.

(** [Map.prototype.set]: overwrite in place, or append a new key. *)
Fixpoint mapSet (m : list (string * V)) (k : string) (v : V) : list (string * V) :=
  match m with
  | [] => [(k, v)]
  | (k', v') :: rest =>
      if (k' =? k)%string then (k, v) :: rest else (k', v') :: mapSet rest k v
  end.

Fixpoint mapDelete (m : list (string * V)) (k : string) : list (string * V) :=
  match m with
  | [] => []
  | (k', v') :: rest =>
      if (k' =? k)%string then mapDelete rest k else (k', v') :: mapDelete rest k
  end.

Definition mapKeys (m : list (string * V)) : list string := map fst m.
Definition mapValues (m : list (string * V)) : list V := map snd m.
End StringMap.

(** Own-property read [item[key]] of an object: [undefined] when absent. *)
Definition getField (fields : Fields) (key : string) : JsVal :=
  match mapGet fields key with
  | Some v => v
  | None => JUndefined
  end.

(* ------------------------------------------------------------------ *)
(** * Strings of JavaScript values: [String(v)] *)

Fixpoint digitsOfPos (fuel : nat) (n : Z) (acc : string) : string :=
  match fuel with
  | O => acc
  | S fuel' =>
      let d := ascii_of_nat (48 + Z.to_nat (n mod 10)) in
      let acc' := String d acc in
      if n / 10 =? 0 then acc' else digitsOfPos fuel' (n / 10) acc'
  end.

Definition stringOfZ (n : Z) : string :=
  if n <? 0 then "-" ++ digitsOfPos (S (Z.to_nat (Z.log2 (- n)))) (- n) ""
  else digitsOfPos (S (Z.to_nat (Z.log2 n))) n "".

Fixpoint joinWith (sep : string) (parts : list string) : string :=
  match parts with
  | [] => ""
  | [p] => p
  | p :: rest => p ++ sep ++ joinWith sep rest
  end.

Fixpoint jsToString (v : JsVal) : string :=
  match v with
  | JUndefined => "undefined"
  | JNull => "null"
  | JBool true => "true"
  | JBool false => "false"
  | JNum n => stringOfZ n
  | JStr s => s
  | JArr items =>
      joinWith ","
        (map (fun x => match x with
                       | JUndefined | JNull => ""
                       | _ => jsToString x
                       end) items)
  | JObj _ => "[object Object]"
  end.

(* ------------------------------------------------------------------ *)
(** * [TtPersistenceDatabaseService]: keys and UUID extraction *)

Definition idKey : string := "__pkey__".
Definition storeKey : string := "__store__".

Definition isHexDigit (c : ascii) : bool :=
  let n := nat_of_ascii c in
  ((48 <=? n) && (n <=? 57) || (97 <=? n) && (n <=? 102) || (65 <=? n) && (n <=? 70))%nat.

(** Consume exactly [n] hexadecimal digits. *)
Fixpoint matchHex (n : nat) (s : string) : option string :=
  match n with
  | O => Some s
  | S n' =>
      match s with
      | String c rest => if isHexDigit c then matchHex n' rest else None
      | EmptyString => None
      end
  end.

Definition matchDash (s : option string) : option string :=
  match s with
  | Some (String "-"%char rest) => Some rest
  | _ => None
  end.

(** [uuidRegExp] anchored at the head of [s]: 8-4-4-4-12 hexadecimal digits.
    Each [\b] of the expression sits between a hexadecimal digit and a dash
    and so always holds. *)
Definition matchUuidAt (s : string) : bool :=
  match
    matchHex 12 (match matchDash
                   (match matchDash
                      (match matchDash
                         (match matchDash (matchHex 8 s) with
                          | Some r => matchHex 4 r | None => None end) with
                       | Some r => matchHex 4 r | None => None end) with
                    | Some r => matchHex 4 r | None => None end) with
                 | Some r => r | None => EmptyString end)
  with
  | Some _ => true
  | None => false
  end.

(** Leftmost match of [uuidRegExp] in [s]. *)
Fixpoint findUuid (s : string) : option string :=
  if matchUuidAt s then Some (substring 0 36 s)
  else match s with
       | EmptyString => None
       | String _ rest => findUuid rest
       end.

(** [extractUuid(id)]: [(String(id).match(uuidRegExp) ?? [])[0] ?? id]. *)
Definition extractUuid (id : JsVal) : JsVal :=
  match findUuid (jsToString id) with
  | Some uuid => JStr uuid
  | None => id
  end.

(* ------------------------------------------------------------------ *)
(** * [removeGeneratedIdKeyFromContent] on values *)

Fixpoint indexFields (i : nat) (items : list JsVal) : Fields :=
  match items with
  | [] => []
  | x :: rest => (stringOfZ (Z.of_nat i), x) :: indexFields (S i) rest
  end.

Fixpoint charFields (i : nat) (s : string) : Fields :=
  match s with
  | EmptyString => []
  | String c rest =>
      (stringOfZ (Z.of_nat i), JStr (String c EmptyString)) :: charFields (S i) rest
  end.

(** [Object.assign({}, item)]: the own enumerable properties of [item];
    an array contributes its indices, a string its characters, any other
    primitive nothing. *)
Definition objectAssign (item : JsVal) : Fields :=
  match item with
  | JObj fields => fields
  | JArr items => indexFields 0 items
  | JStr s => charFields 0 s
  | _ => []
  end.

Definition deleteTags (fields : Fields) : Fields :=
  mapDelete (mapDelete fields idKey) storeKey.

(** [cleanNested]: the inner closure of [removeGeneratedIdKeyFromContent].
    Nested arrays and non-null objects are cleaned through the outer
    function, which maps [cleanNested] over the elements of an array. *)
Fixpoint cleanNested (item : JsVal) : JsVal :=
  match item with
  | JObj fields =>
      JObj (deleteTags
              (map (fun kv : string * JsVal =>
                      let (k, v) := kv in
                      (k, match v with
                          | JArr l => JArr (map cleanNested l)
                          | JObj _ => cleanNested v
                          | _ => v
                          end)) fields))
  | JArr items =>
      JObj (deleteTags
              (indexFields 0
                 (map (fun v => match v with
                                | JArr l => JArr (map cleanNested l)
                                | JObj _ => cleanNested v
                                | _ => v
                                end) items)))
  | JStr s => JObj (deleteTags (charFields 0 s))
  | _ => JObj []
  end.

Definition removeGeneratedIdKeyFromContent (content : JsVal) : JsVal :=
  match content with
  | JArr l => JArr (map cleanNested l)
  | _ => cleanNested content
  end.

(* ------------------------------------------------------------------ *)
(** * Errors, results of synchronous code, outcomes of observables *)

Inductive JsError : Type :=
| TypeError (what : string)
| RangeError (what : string)
| DOMException (name : string)
| IndexedDBAddError (storeName : string) (messages : list string)
| IndexedDBStoreError (message : string)
| IndexedDBAccessError (message : string)
| NoPrimaryKeyInObjectError (storeName : string) (idKey : string)
| NoPrimaryKeyInSettingsError (storeName : string).

(** A synchronous call returns, throws, or (in a fuelled recursion) is cut
    off before it finishes. *)
Inductive Result (A : Type) : Type :=
| Ok (a : A)
| Throw (e : JsError)
| OutOfFuel.
Arguments Ok {A} a.
Arguments Throw {A} e.
Arguments OutOfFuel {A}.

(** What a subscriber of a single-valued observable sees: one value, an
    error, or nothing at all (the observable never emits). *)
Inductive Outcome (A : Type) : Type :=
| Emit (a : A)
| Fail (e : JsError)
| Silent
| Unfinished.
Arguments Emit {A} a.
Arguments Fail {A} e.
Arguments Silent {A}.
Arguments Unfinished {A}.

Definition bindR {A B} (r : Result A) (k : A -> Result B) : Result B :=
  match r with
  | Ok a => k a
  | Throw e => Throw e
  | OutOfFuel => OutOfFuel
  end.

Notation "x <- r ;; k" := (bindR r (fun x => k))
  (at level 61, r at next level, right associativity).

(** An exception thrown inside a subscribe function or an operator callback
    is delivered by rxjs as the error notification. *)
Definition ofResult {A} (r : Result A) : Outcome A :=
  match r with
  | Ok a => Emit a
  | Throw e => Fail e
  | OutOfFuel => Unfinished
  end.

Fixpoint mapR {A B} (f : A -> Result B) (l : list A) : Result (list B) :=
  match l with
  | [] => Ok []
  | x :: rest =>
      y <- f x ;;
      ys <- mapR f rest ;;
      Ok (y :: ys)
  end.

Fixpoint foldR {A S} (f : S -> A -> Result S) (l : list A) (s : S) : Result S :=
  match l with
  | [] => Ok s
  | x :: rest => s' <- f s x ;; foldR f rest s'
  end.

(* ------------------------------------------------------------------ *)
(** * Property access on arbitrary values *)

(** The index below [len] whose canonical decimal string is [key]. *)
Fixpoint findIndexKey (key : string) (len : nat) : option nat :=
  match len with
  | O => None
  | S n =>
      match findIndexKey key n with
      | Some i => Some i
      | None => if (stringOfZ (Z.of_nat n) =? key)%string then Some n else None
      end
  end.

Fixpoint stringLength (s : string) : nat :=
  match s with
  | EmptyString => O
  | String _ rest => S (stringLength rest)
  end.

(** [v.hasOwnProperty(key)].  Reading a property of [null] or [undefined]
    throws; numbers and booleans have no own properties. *)
Definition hasOwnProperty (v : JsVal) (key : string) : Result bool :=
  match v with
  | JObj fields => Ok (mapHas fields key)
  | JArr items =>
      Ok ((key =? "length")%string
          || match findIndexKey key (List.length items) with Some _ => true | None => false end)
  | JStr s =>
      Ok ((key =? "length")%string
          || match findIndexKey key (stringLength s) with Some _ => true | None => false end)
  | JNum _ | JBool _ => Ok false
  | JNull | JUndefined => Throw (TypeError "cannot read properties of null or undefined")
  end.

(** [v[key]] for own properties (members inherited from a prototype are
    not part of the model). *)
Definition getProp (v : JsVal) (key : string) : Result JsVal :=
  match v with
  | JObj fields => Ok (getField fields key)
  | JArr items =>
      if (key =? "length")%string then Ok (JNum (Z.of_nat (List.length items)))
      else match findIndexKey key (List.length items) with
           | Some i => Ok (nth i items JUndefined)
           | None => Ok JUndefined
           end
  | JStr s =>
      if (key =? "length")%string then Ok (JNum (Z.of_nat (stringLength s)))
      else match findIndexKey key (stringLength s) with
           | Some i => Ok (JStr (substring i 1 s))
           | None => Ok JUndefined
           end
  | JNum _ | JBool _ => Ok JUndefined
  | JNull | JUndefined => Throw (TypeError "cannot read properties of null or undefined")
  end.

(** SameValueZero on primitives, as used by [Set.has], [Map] keys and
    [Array.includes]; two object or array values stand for two distinct
    references and are never the same value. *)
Definition sameValueZero (a b : JsVal) : bool :=
  match a, b with
  | JUndefined, JUndefined => true
  | JNull, JNull => true
  | JBool x, JBool y => Bool.eqb x y
  | JNum x, JNum y => x =? y
  | JStr x, JStr y => (x =? y)%string
  | _, _ => false
  end.

Definition includes (l : list JsVal) (v : JsVal) : bool :=
  existsb (sameValueZero v) l.

(* ------------------------------------------------------------------ *)
(** * Options, settings and the state of the services *)

(** [TtDeleteCascade] *)
Inductive TtDeleteCascade : Type := NULL | UNDEFINED | DELETE | KEEP.

(** [TtPersistenceOptions] (the triggers are not part of this model). *)
Inductive TtPersistenceOptions : Type :=
  mkOptions {
    storeName : string;
    primaryKey : string;
    uniqueKeys : option (list string);
    linkedKeys : option (list (string * TtPersistenceOptions));
    storeContent : option bool;
    cascade : option TtDeleteCascade }.

Definition StringMap := list (string * string).
Definition LinkMap := list (string * StringMap).
Definition OptionsMap := list (string * TtPersistenceOptions).
Definition KeyMap := list (string * bool).
Definition StorageMap := list (string * KeyMap).
Definition QueueMap := list (string * list JsVal).

(** [PersistenceSettings], the record kept in the localStorage. *)
Record PersistenceSettings : Type := mkSettings {
  version : Z;
  options : OptionsMap;
  links : LinkMap;
  mutationsUpdate : list string;
  mutationsRemove : list string }.

(** Keys of the storage engine: the model has number and string keys. *)
Inductive IdbKey : Type := KNum (n : Z) | KStr (s : string).

Definition keyEqb (a b : IdbKey) : bool :=
  match a, b with
  | KNum x, KNum y => x =? y
  | KStr x, KStr y => (x =? y)%string
  | _, _ => false
  end.

(** Conversion of a value to a key; [None] is the engine's [DataError]. *)
Definition toKey (v : JsVal) : option IdbKey :=
  match v with
  | JNum n => Some (KNum n)
  | JStr s => Some (KStr s)
  | _ => None
  end.

Definition Rows := list (IdbKey * JsVal).

Fixpoint rowsGet (rows : Rows) (k : IdbKey) : option JsVal :=
  match rows with
  | [] => None
  | (k', v) :: rest => if keyEqb k' k then Some v else rowsGet rest k
  end.

(** [IDBObjectStore.put]: overwrite the record with the same key or add
    one.  (The engine iterates records in key order; the list order of the
    model is the order of first insertion.) *)
Fixpoint rowsPut (rows : Rows) (k : IdbKey) (v : JsVal) : Rows :=
  match rows with
  | [] => [(k, v)]
  | (k', v') :: rest =>
      if keyEqb k' k then (k, v) :: rest else (k', v') :: rowsPut rest k v
  end.

Fixpoint rowsDelete (rows : Rows) (k : IdbKey) : Rows :=
  match rows with
  | [] => []
  | (k', v') :: rest =>
      if keyEqb k' k then rowsDelete rest k else (k', v') :: rowsDelete rest k
  end.

(** The state shared by the services: the settings and in-memory maps of
    the database service and the IndexedDB database itself. *)
Record Service : Type := mkService {
  settings : PersistenceSettings;
  storageMap : StorageMap;
  linkMap : LinkMap;
  optionsMap : OptionsMap;
  connected : bool;             (* [indexedDb$] holds an open database *)
  idbVersion : Z;
  objectStores : list (string * Rows) }.

Definition withStores (st : Service) (stores : list (string * Rows)) : Service :=
  mkService (settings st) (storageMap st) (linkMap st) (optionsMap st)
            (connected st) (idbVersion st) stores.

(** [new Map(entries)] *)
Definition newMap {V} (entries : list (string * V)) : list (string * V) :=
  fold_left (fun m kv => mapSet m (fst kv) (snd kv)) entries [].

(** [flattenPersistenceLinkOptions]: record the options of every store that
    is not known yet and the linked properties of every store, recursively. *)
Fixpoint flattenPersistenceLinkOptions (opts : TtPersistenceOptions)
    (om : OptionsMap) (lm : LinkMap) : OptionsMap * LinkMap :=
  let om1 := if mapHas om (storeName opts) then om else mapSet om (storeName opts) opts in
  match opts with
  | mkOptions sn _ _ lk _ _ =>
      match lk with
      | None => (om1, lm)
      | Some keys =>
          (fix each (keys : list (string * TtPersistenceOptions))
               (om : OptionsMap) (lm : LinkMap) : OptionsMap * LinkMap :=
             match keys with
             | [] => (om, lm)
             | (property, linkOptions) :: rest =>
                 let propertyMap :=
                   match mapGet lm sn with Some m => m | None => [] end in
                 let lm1 := mapSet lm sn (mapSet propertyMap property (storeName linkOptions)) in
                 let (om2, lm2) := flattenPersistenceLinkOptions linkOptions om lm1 in
                 each rest om2 lm2
             end) keys om1 lm
      end
  end.

Definition withoutLinkedKeys (o : TtPersistenceOptions) : TtPersistenceOptions :=
  mkOptions (storeName o) (primaryKey o) (uniqueKeys o) None (storeContent o) (cascade o).

Definition addToSet (l : list string) (x : string) : list string :=
  if existsb (String.eqb x) l then l else l ++ [x].

(** [new Set(items)] in insertion order. *)
Definition newSet (items : list string) : list string :=
  fold_left addToSet items [].

(** [updatePersistenceSettings] with [updateSettingsLinks]. *)
Definition updatePersistenceSettings (st : Service) (opts : TtPersistenceOptions) : Service :=
  let s := settings st in
  let linkMap0 : LinkMap := map (fun e => (fst e, newMap (snd e))) (newMap (links s)) in
  let optionsMap0 : OptionsMap := newMap (options s) in
  let (optionsMap1, linkMap1) := flattenPersistenceLinkOptions opts optionsMap0 linkMap0 in
  let optionsMap2 := mapSet optionsMap1 (storeName opts) opts in
  let cleaned := map (fun e => (fst e, withoutLinkedKeys (snd e))) optionsMap2 in
  let s' := mkSettings (version s + 1) cleaned linkMap1
                       (addToSet (newSet (mutationsUpdate s)) (storeName opts))
                       (mutationsRemove s) in
  mkService s' (storageMap st) linkMap1 optionsMap2
            (connected st) (idbVersion st) (objectStores st).

(* ------------------------------------------------------------------ *)
(** * [TtPersistenceStoreService]: the queue of linked content *)

(** Nesting depth of a value; the fuel of the recursions over content. *)
Fixpoint depth (v : JsVal) : nat :=
  match v with
  | JArr items => S (fold_right (fun x acc => Nat.max (depth x) acc) O items)
  | JObj fields => S (fold_right (fun kv acc => Nat.max (depth (snd kv)) acc) O fields)
  | _ => O
  end.

(** The [filter] of [parseContentForLinking]: keep the first item of every
    primary key value, [idSet] being the values seen so far. *)
Fixpoint dedupe (pk : option string) (items : list JsVal) (idSet : list JsVal)
  : Result (list JsVal) :=
  match items with
  | [] => Ok []
  | checkMe :: rest =>
      match pk with
      | None => Throw (TypeError "cannot read properties of undefined (reading 'primaryKey')")
      | Some k =>
          checkId <- getProp checkMe k ;;
          if includes idSet checkId then dedupe pk rest idSet
          else (kept <- dedupe pk rest (idSet ++ [checkId]) ;; Ok (checkMe :: kept))
      end
  end.

(** [extractLinkedContent]; [rec] is the recursive call of
    [parseContentForLinking].  The content itself is returned unchanged by
    the source, so only the queue is threaded. *)
Definition extractLinkedContent
    (rec : string -> JsVal -> QueueMap -> Result QueueMap)
    (st : Service) (content : JsVal) (linkedToMap : StringMap)
    (linkedItems : QueueMap) : Result QueueMap :=
  foldR (fun (q : QueueMap) (entry : string * string) =>
           let (property, linkStore) := entry in
           let opts := mapGet (optionsMap st) linkStore in
           has <- hasOwnProperty content property ;;
           if negb has then Ok q else
           nested <- getProp content property ;;
           if negb (typeofObject nested) then Ok q else
           let parseContent := fun (q : QueueMap) (item : JsVal) =>
             has' <- hasOwnProperty item
                       (match opts with Some o => primaryKey o | None => "" end) ;;
             match opts with
             | None => Throw (TypeError "cannot read properties of undefined (reading 'primaryKey')")
             | Some o =>
                 if negb has' then Ok q else
                 pkValue <- getProp item (primaryKey o) ;;
                 if negb (typeofString pkValue) then Ok q
                 else rec (storeName o) item q
             end in
           match nested with
           | JArr items => foldR parseContent items q
           | _ => parseContent q nested
           end)
        linkedToMap linkedItems.

(** [parseContentForLinking].  [current] is read before the linked content
    is extracted, as in the source. *)
Fixpoint parseContentForLinking (fuel : nat) (st : Service) (store : string)
    (content : JsVal) (linkedItems : QueueMap) : Result QueueMap :=
  match fuel with
  | O => OutOfFuel
  | S fuel' =>
      let contents := asArray content in
      let current := match mapGet linkedItems store with Some c => c | None => [] end in
      let opts := mapGet (optionsMap st) store in
      linkedItems1 <-
        match mapGet (linkMap st) store with
        | None => Ok linkedItems
        | Some linkedToMap =>
            foldR (fun q cloneMe =>
                     extractLinkedContent (parseContentForLinking fuel' st)
                                          st cloneMe linkedToMap q)
                  contents linkedItems
        end ;;
      concatenated <- dedupe (option_map primaryKey opts) (current ++ contents) [] ;;
      Ok (mapSet linkedItems1 store concatenated)
  end.

(** [createQueueMap] *)
Definition createQueueMap (st : Service) (opts : TtPersistenceOptions)
    (content : list JsVal) : Result QueueMap :=
  parseContentForLinking (S (S (depth (JArr content)))) st (storeName opts) (JArr content) [].

(* ------------------------------------------------------------------ *)
(** * Index names: [createKeyMap] and [updateStorageSettings] *)

Definition startsWithNameChar (key : string) : bool :=
  match key with
  | String c _ =>
      let n := nat_of_ascii c in
      ((97 <=? n) && (n <=? 122) || (65 <=? n) && (n <=? 90) || (n =? 95) || (n =? 36))%nat
  | EmptyString => false
  end.

Fixpoint containsDash (key : string) : bool :=
  match key with
  | EmptyString => false
  | String c rest => (nat_of_ascii c =? 45)%nat || containsDash rest
  end.

Definition isBoolean (v : JsVal) : bool :=
  match v with JBool _ => true | _ => false end.

(** [addLinkedKeyPaths] *)
Definition addLinkedKeyPaths (keyPath : string) (keyMap : KeyMap) : KeyMap :=
  let idKeyPath := keyPath ++ "." ++ idKey in
  if mapHas keyMap idKeyPath then keyMap else mapSet keyMap idKeyPath false.

(** [createKeyMapForItem].  [Object.keys] of [null] or [undefined] throws;
    the keys of arrays and strings are indices, which never start with a
    letter, and numbers and booleans have no keys. *)
Fixpoint createKeyMapForItem (st : Service) (item : JsVal) (keyMap : KeyMap)
    (opts : option TtPersistenceOptions) (path : option string) : Result KeyMap :=
  let uniques := match opts with
                 | Some o => match uniqueKeys o with Some u => u | None => [] end
                 | None => []
                 end in
  let basePath := match path with
                  | Some p => if (p =? "")%string then "" else p ++ "."
                  | None => ""
                  end in
  match item with
  | JObj fields =>
      (fix each (fs : Fields) (keyMap : KeyMap) : Result KeyMap :=
         match fs with
         | [] => Ok keyMap
         | (key, value) :: rest =>
             let keyPath := basePath ++ key in
             if negb (startsWithNameChar key) || mapHas keyMap keyPath || containsDash key
             then each rest keyMap
             else if isArray value || isBoolean value then each rest keyMap
             else if typeofObject value then
               let optionsKey :=
                 match opts with
                 | Some o => match mapGet (linkMap st) (storeName o) with
                             | Some m => mapGet m key
                             | None => None
                             end
                 | None => None
                 end in
               let keyOptions :=
                 match optionsKey with
                 | Some k => mapGet (optionsMap st) k
                 | None => None
                 end in
               keyMap1 <- createKeyMapForItem st value keyMap keyOptions (Some keyPath) ;;
               match keyOptions with
               | Some _ => each rest (addLinkedKeyPaths keyPath keyMap1)
               | None => each rest (mapSet keyMap1 keyPath (existsb (String.eqb key) uniques))
               end
             else each rest (mapSet keyMap keyPath (existsb (String.eqb key) uniques))
         end) fields keyMap
  | JNull | JUndefined => Throw (TypeError "cannot convert undefined or null to object")
  | _ => Ok keyMap
  end.

(** [createKeyMap]: the first twenty items decide the index names. *)
Definition createKeyMap (st : Service) (content : list JsVal)
    (opts : option TtPersistenceOptions) : Result KeyMap :=
  keyMap <- foldR (fun km item => createKeyMapForItem st item km opts None)
                  (firstn 20 content) [] ;;
  Ok (mapSet keyMap idKey true).

(** The loop of [updateStorageSettings].  The storage map is updated in
    place, so the entries handled before an exception stay updated. *)
Fixpoint updateStorageLoop (st : Service) (entries : QueueMap) (sm : StorageMap)
    (storeIndexMap : list (string * list string))
  : StorageMap * Result (list (string * list string)) :=
  match entries with
  | [] => (sm, Ok storeIndexMap)
  | (store, content) :: rest =>
      match createKeyMap st content (mapGet (optionsMap st) store) with
      | Ok keyMap =>
          let storedMap := match mapGet sm store with Some m => m | None => [] end in
          let combinedMap := newMap (storedMap ++ keyMap) in
          updateStorageLoop st rest (mapSet sm store combinedMap)
                            (mapSet storeIndexMap store (mapKeys keyMap))
      | Throw e => (sm, Throw e)
      | OutOfFuel => (sm, OutOfFuel)
      end
  end.

(** [updateStorageSettings]: the new storage map and the index names of
    every queued store. *)
Definition updateStorageSettings (st : Service) (linkedItems : QueueMap)
  : Service * Result (list (string * list string)) :=
  let (sm, r) := updateStorageLoop st linkedItems (storageMap st) [] in
  (mkService (settings st) sm (linkMap st) (optionsMap st)
             (connected st) (idbVersion st) (objectStores st), r).

(* ------------------------------------------------------------------ *)
(** * Opening the database: [initializeDatabase] and the upgrade *)

(** [handleObjectStoreUpdates]: every store of the storage map that does not
    exist is created, and an existing store named in the pending updates is
    deleted and created again, empty. *)
Definition handleObjectStoreUpdates (updates : list string) (sm : StorageMap)
    (stores : list (string * Rows)) : list (string * Rows) :=
  match updates with
  | [] => stores
  | _ =>
      fold_left (fun stores entry =>
                   let store := fst entry in
                   let exists_ := mapHas stores store in
                   let update := existsb (String.eqb store) updates in
                   if exists_ && negb update then stores
                   else mapSet (if exists_ then mapDelete stores store else stores) store [])
                sm stores
  end.

(** [handleObjectStoreRemovals] *)
Definition handleObjectStoreRemovals (removals : list string)
    (sm : StorageMap) (stores : list (string * Rows)) : StorageMap * list (string * Rows) :=
  fold_left (fun acc store =>
               if mapHas (snd acc) store
               then (mapDelete (fst acc) store, mapDelete (snd acc) store)
               else acc)
            removals (sm, stores).

(** [initializeDatabase]: [Emit None] is the emission without a value when
    there are no storage settings.  Opening at a higher version runs the
    upgrade ([createOrUpdateObjectStores]); the clean-up of indices is not
    part of the model. *)
Definition initializeDatabase (st : Service) : Outcome (option Service) :=
  match storageMap st with
  | [] => Emit None
  | _ =>
      let s := settings st in
      if version s <? 1 then Fail (TypeError "the version of the database is not valid")
      else if version s <? idbVersion st then Fail (IndexedDBAccessError "VersionError")
      else if idbVersion st <? version s then
        let stores1 := handleObjectStoreUpdates (mutationsUpdate s) (storageMap st)
                                                (objectStores st) in
        let (sm2, stores2) := handleObjectStoreRemovals (mutationsRemove s)
                                                        (storageMap st) stores1 in
        let s' := mkSettings (version s) (options s) (links s)
                             [] [] in
        Emit (Some (mkService s' sm2 (linkMap st) (optionsMap st) true (version s) stores2))
      else
        Emit (Some (mkService s (storageMap st) (linkMap st) (optionsMap st)
                              true (idbVersion st) (objectStores st)))
  end.

(* ------------------------------------------------------------------ *)
(** * Writing the queue: [insertLinkedItemsInStores] *)

(** [addIdKeyToContent]: [{ ...item, __pkey__: extractUuid(item[primaryKey]) }]. *)
Definition addIdKeyToContent (content : list JsVal) (pk : string) : Result (list JsVal) :=
  mapR (fun item =>
          idSource <- getProp item pk ;;
          Ok (JObj (mapSet (objectAssign item) idKey (extractUuid idSource))))
       content.

Definition isNull (v : JsVal) : bool :=
  match v with JNull => true | _ => false end.

(** [addRelationsToContent]: tag the values of the linked properties with
    the name of their store and their identity, recursively through the
    links of the linked store. *)
Fixpoint addRelationsToContent (fuel : nat) (st : Service) (content : JsVal)
    (linksToMap : option StringMap) : Result JsVal :=
  match fuel with
  | O => OutOfFuel
  | S fuel' =>
      match linksToMap with
      | None | Some [] => Ok content
      | Some linksTo =>
          mapped <-
            mapR (fun cloneMe =>
                    fields <-
                      foldR (fun (item : Fields) (entry : string * string) =>
                               let (property, linkStore) := entry in
                               match mapGet (optionsMap st) linkStore with
                               | None => Ok item
                               | Some o =>
                                   if negb (mapHas item property)
                                      || negb (typeofObject (getField item property))
                                   then Ok item
                                   else
                                     let asUnknown := getField item property in
                                     linksAdded <-
                                       mapR (fun dupeMe =>
                                               inner <- addRelationsToContent fuel' st
                                                          (JObj (objectAssign dupeMe))
                                                          (mapGet (linkMap st) (storeName o)) ;;
                                               idSource <- getProp dupeMe (primaryKey o) ;;
                                               Ok (JObj (mapSet
                                                           (mapSet (objectAssign inner) storeKey
                                                                   (JStr (storeName o)))
                                                           idKey (extractUuid idSource))))
                                            (filter (fun d => typeofObject d && negb (isNull d))
                                                    (asArray asUnknown)) ;;
                                     Ok (mapSet item property
                                                (if isArray asUnknown then JArr linksAdded
                                                 else hd JUndefined linksAdded))
                               end)
                            linksTo (objectAssign cloneMe) ;;
                    Ok (JObj fields))
                 (asArray content) ;;
          Ok (if isArray content then JArr mapped else hd JUndefined mapped)
      end
  end.

(** A [put] request in flight: its key, its record, and whether its
    [onsuccess] handler emits the map of updated items. *)
Record PutRequest : Type := mkRequest {
  requestKey : IdbKey;
  requestItem : JsVal;
  requestEmits : bool }.

(** What the synchronous part of a subscribe function told the subscriber. *)
Inductive Signal : Type :=
| Pending
| Signalled (e : JsError).

(** The key of a record under the key path [__pkey__]. *)
Definition keyOf (item : JsVal) : option IdbKey :=
  match item with
  | JObj fields => toKey (getField fields idKey)
  | _ => None
  end.

(** The [for] loop of [createQueueObservable].  It runs to completion before
    any handler of a request can run, so [errors] is what it was when the
    loop started.  A record without a valid key makes [put] throw. *)
Fixpoint issuePuts (store : string) (total : nat) (parsed : list JsVal)
    (index : nat) (errors : list string) (updated : Rows)
  : list PutRequest * Rows * Signal :=
  match parsed with
  | [] => ([], updated, Pending)
  | item :: rest =>
      match keyOf item with
      | None => ([], updated, Signalled (DOMException "DataError"))
      | Some k =>
          let updated' := rowsPut updated k item in
          let index' := S index in
          if (index' =? total)%nat then
            match errors with
            | _ :: _ =>
                ([mkRequest k item false], updated',
                 Signalled (IndexedDBAddError store errors))
            | [] =>
                let '(requests, updated'', signal) :=
                  issuePuts store total rest index' errors updated' in
                (mkRequest k item true :: requests, updated'', signal)
            end
          else
            let '(requests, updated'', signal) :=
              issuePuts store total rest index' errors updated' in
            (mkRequest k item false :: requests, updated'', signal)
      end
  end.

Section Engine.

(** The verdict of the storage engine on a [put] of a record with a valid
    key into a store with the given records: [None] when the record is
    written, the message of the error event otherwise (a unique index is
    violated, say).  The indices are not part of the model, so the verdict
    is a parameter. *)
Variable putVerdict : string -> Rows -> JsVal -> option string.

(** The events of the requests, in the order of the requests.  [onerror]
    keeps the transaction alive ([preventDefault]), notes the message and
    removes the item from the updated map; the [onsuccess] of the last
    request emits the updated map. *)
Fixpoint runRequests (store : string) (requests : list PutRequest) (rows : Rows)
    (errors : list string) (updated : Rows) (emitted : option Rows)
  : Rows * list string * Rows * option Rows :=
  match requests with
  | [] => (rows, errors, updated, emitted)
  | r :: rest =>
      match putVerdict store rows (requestItem r) with
      | Some message =>
          runRequests store rest rows (errors ++ [message])
                      (rowsDelete updated (requestKey r)) emitted
      | None =>
          runRequests store rest (rowsPut rows (requestKey r) (requestItem r))
                      errors updated
                      (if requestEmits r then Some updated else emitted)
      end
  end.

(** [createQueueObservable] on the records [rows] of the store: what the
    subscriber sees and the records afterwards. *)
Definition createQueueObservable (st : Service) (store : string) (rows : Rows)
    (content : list JsVal) : Outcome Rows * Rows :=
  match addRelationsToContent (S (S (depth (JArr content)))) st (JArr content)
                              (mapGet (linkMap st) store) with
  | Throw e => (Fail e, rows)
  | OutOfFuel => (Unfinished, rows)
  | Ok parsedValue =>
      let parsed := asArray parsedValue in
      let '(requests, updated, signal) :=
        issuePuts store (List.length parsed) parsed O [] [] in
      let '(rows', _, _, emitted) :=
        runRequests store requests rows [] updated None in
      (match signal with
       | Signalled e => Fail e
       | Pending => match emitted with Some u => Emit u | None => Silent end
       end, rows')
  end.

(** [createBatchInsertObservable]: the stores of the queue one after the
    other, each once the store before it has emitted. *)
Fixpoint createBatchInsertObservable (st : Service) (entries : QueueMap)
    (stores : list (string * Rows)) (addedMap : list (string * Rows))
  : Outcome (list (string * Rows)) * list (string * Rows) :=
  match entries with
  | [] => (Emit addedMap, stores)
  | (store, content) :: rest =>
      match mapGet (optionsMap st) store with
      | None =>
          (Fail (TypeError "cannot read properties of undefined (reading 'primaryKey')"),
           stores)
      | Some o =>
          match addIdKeyToContent content (primaryKey o) with
          | Throw e => (Fail e, stores)
          | OutOfFuel => (Unfinished, stores)
          | Ok items =>
              let rows := match mapGet stores store with Some r => r | None => [] end in
              let (outcome, rows') := createQueueObservable st store rows items in
              let stores' := mapSet stores store rows' in
              match outcome with
              | Emit queueMap =>
                  createBatchInsertObservable st rest stores' (mapSet addedMap store queueMap)
              | Fail e => (Fail e, stores')
              | Silent => (Silent, stores')
              | Unfinished => (Unfinished, stores')
              end
          end
      end
  end.

(** [insertLinkedItemsInStores]: one transaction over the stores of the
    queue; the engine refuses an empty list of stores and a store that
    does not exist. *)
Definition insertLinkedItemsInStores (st : Service) (queuedItems : QueueMap)
  : Outcome (list (string * Rows)) * Service :=
  match queuedItems with
  | [] => (Fail (DOMException "InvalidAccessError"), st)
  | _ =>
      if forallb (mapHas (objectStores st)) (mapKeys queuedItems) then
        let (outcome, stores') :=
          createBatchInsertObservable st queuedItems (objectStores st) [] in
        (outcome, withStores st stores')
      else (Fail (DOMException "NotFoundError"), st)
  end.

End Engine.

(* ------------------------------------------------------------------ *)
(** * [TtPersistenceService.persist] *)

(** [TtPersistenceResult] *)
Record TtPersistenceResult : Type := mkResult {
  resultStoreName : string;
  resultRows : nat;
  resultIndices : list string }.

(** [createPersistenceResultsMap]; [rows] is counted only when
    [storeContent] is truthy. *)
Definition createPersistenceResultsMap (queueMap : QueueMap)
    (indexMap : list (string * list string)) (store : option bool)
  : list TtPersistenceResult :=
  mapValues
    (fold_left (fun results entry =>
                  mapSet results (fst entry)
                    (mkResult (fst entry)
                       (match store with
                        | Some true => List.length (snd entry)
                        | _ => O
                        end)
                       (match mapGet indexMap (fst entry) with Some i => i | None => [] end)))
               queueMap []).

Section Persist.

Variable putVerdict : string -> Rows -> JsVal -> option string.

(** [persist(content, options)]: what the subscriber sees and the state of
    the services afterwards. *)
Definition persist (st : Service) (content : JsVal) (opts : TtPersistenceOptions)
  : Outcome (list TtPersistenceResult) * Service :=
  let contents := asArray content in
  let st1 := updatePersistenceSettings st opts in
  match parseContentForLinking (S (S (depth (JArr contents)))) st1
                               (storeName opts) (JArr contents) [] with
  | Throw e => (Fail e, st1)
  | OutOfFuel => (Unfinished, st1)
  | Ok linkedItems =>
      match updateStorageSettings st1 linkedItems with
      | (st2, Throw e) => (Fail e, st2)
      | (st2, OutOfFuel) => (Unfinished, st2)
      | (st2, Ok indexMap) =>
          match initializeDatabase st2 with
          | Fail e => (Fail e, st2)
          | Silent => (Silent, st2)
          | Unfinished => (Unfinished, st2)
          | Emit None => (Fail (TypeError "undefined is not iterable"), st2)
          | Emit (Some st3) =>
              let results :=
                createPersistenceResultsMap linkedItems indexMap (storeContent opts) in
              match storeContent opts with
              | Some false => (Emit results, st3)
              | _ =>
                  let (outcome, st4) := insertLinkedItemsInStores putVerdict st3 linkedItems in
                  (match outcome with
                   | Emit _ => Emit results
                   | Fail e => Fail e
                   | Silent => Silent
                   | Unfinished => Unfinished
                   end, st4)
              end
          end
      end
  end.

End Persist.

(* ------------------------------------------------------------------ *)
(** * [TtPersistenceRetrieveService]: reading by key *)

(** The operators of [createLinkedResultObservable]: for every linked
    property of the result, the store, the property and the identity to
    fetch, and whether the property holds an array. *)
Definition linkedOperators (st : Service) (store : string) (result : JsVal)
  : Result (list (string * string * JsVal * bool)) :=
  match mapGet (linkMap st) store with
  | None | Some [] => Ok []
  | Some links =>
      foldR (fun operators (entry : string * string) =>
               let (property, linkStore) := entry in
               let opts := mapGet (optionsMap st) linkStore in
               has <- hasOwnProperty result property ;;
               if negb has then Ok operators else
               linkedObject <- getProp result property ;;
               if negb (typeofObject linkedObject) then Ok operators else
               match linkedObject with
               | JArr items =>
                   foldR (fun operators linked =>
                            gpsId <- getProp linked idKey ;;
                            if negb (typeofString gpsId) then Ok operators else
                            match opts with
                            | None => Throw (TypeError "cannot read properties of undefined (reading 'storeName')")
                            | Some o => Ok (operators ++ [(storeName o, property, gpsId, true)])%list
                            end)
                         items operators
               | _ =>
                   gpsId <- getProp linkedObject idKey ;;
                   if negb (truthy gpsId) then Ok operators else
                   match opts with
                   | None => Throw (TypeError "cannot read properties of undefined (reading 'storeName')")
                   | Some o => Ok (operators ++ [(storeName o, property, gpsId, false)])%list
                   end
               end)
            links []
  end.

(** [current[property] = value] on the fetched result. *)
Definition assignProp (current : JsVal) (property : string) (value : JsVal) : Result JsVal :=
  match current with
  | JObj fields => Ok (JObj (mapSet fields property value))
  | JNull | JUndefined => Throw (TypeError "cannot set properties of null or undefined")
  | _ => Ok current
  end.

(** [createResultObservable] without the index option, followed by
    [createLinkedResultObservable].  A key that is not in the store makes
    the success handler throw on [Object.keys(undefined)], outside of the
    observable, which then never emits.  The operator of an array property
    appends the fetched record to the array that is already there. *)
Fixpoint createResultObservable (fuel : nat) (st : Service) (store : string)
    (primaryKeyValue : JsVal) : Outcome JsVal :=
  match fuel with
  | O => Unfinished
  | S fuel' =>
      match mapGet (objectStores st) store with
      | None => Fail (DOMException "NotFoundError")
      | Some rows =>
          match toKey primaryKeyValue with
          | None => Fail (DOMException "DataError")
          | Some k =>
              match rowsGet rows k with
              | None => Silent
              | Some stored =>
                  match stored with
                  | JNull | JUndefined => Silent
                  | _ =>
                  match objectAssign stored with
                  | [] => Emit JUndefined
                  | _ =>
                      match linkedOperators st store stored with
                      | Throw e => Fail e
                      | OutOfFuel => Unfinished
                      | Ok operators =>
                          fold_left
                            (fun (acc : Outcome JsVal) (op : string * string * JsVal * bool) =>
                               match acc with
                               | Emit current =>
                                   let '(linkStore, property, gpsId, array) := op in
                                   match createResultObservable fuel' st linkStore gpsId with
                                   | Emit linked =>
                                       ofResult
                                         (if array then
                                            existing <- getProp current property ;;
                                            assignProp current property
                                              (JArr (match existing with
                                                     | JArr l => l
                                                     | _ => []
                                                     end ++ [linked])%list)
                                          else assignProp current property linked)
                                   | other => other
                                   end
                               | other => other
                               end)
                            operators (Emit stored)
                      end
                  end
                  end
              end
          end
      end
  end.

(** [getContentById] without the index option: the results of the keys,
    one after the other, collected in one array. *)
Fixpoint getContentByIdFrom (fuel : nat) (st : Service) (store : string)
    (gpsIds : list JsVal) (previous : list JsVal) : Outcome (list JsVal) :=
  match gpsIds with
  | [] => Emit previous
  | gpsId :: rest =>
      match createResultObservable fuel st store gpsId with
      | Emit result => getContentByIdFrom fuel st store rest (previous ++ asArray result)
      | Fail e => Fail e
      | Silent => Silent
      | Unfinished => Unfinished
      end
  end.

Definition getContentById (fuel : nat) (st : Service) (store : string)
    (gpsIds : list JsVal) : Outcome (list JsVal) :=
  match gpsIds with
  | [] => getContentByIdFrom fuel st store [JUndefined] []
  | _ => getContentByIdFrom fuel st store gpsIds []
  end.

(** [get] with [RetrieveByKeyOptions] (no index): the records of the keys
    without their tags; a single record when [primaryKeys] is one string. *)
Definition get (fuel : nat) (st : Service) (store : string) (primaryKeys : JsVal)
  : Outcome JsVal :=
  if negb (connected st) then Silent
  else
    match getContentById fuel st store (asArray primaryKeys) with
    | Emit retrieved =>
        let cleaned := removeGeneratedIdKeyFromContent (JArr retrieved) in
        Emit (if typeofString primaryKeys
              then match cleaned with
                   | JArr l => hd JUndefined l
                   | _ => cleaned
                   end
              else cleaned)
    | Fail e => Fail e
    | Silent => Silent
    | Unfinished => Unfinished
    end.

(* ------------------------------------------------------------------ *)
(** * [TtPersistenceRetrieveService]: sorting and pagination *)

(** [RetrieveByPageOptions] *)
Record RetrieveByPageOptions : Type := mkPage {
  page : Z;
  pageSize : Z;
  pagination : option bool }.

(** [Array.prototype.slice(start, end)] with its relative indices. *)
Definition slice {T} (content : list T) (start end_ : Z) : list T :=
  let len := Z.of_nat (List.length content) in
  let k := if start <? 0 then Z.max (len + start) 0 else Z.min start len in
  let final := if end_ <? 0 then Z.max (len + end_) 0 else Z.min end_ len in
  firstn (Z.to_nat (Z.max (final - k) 0)) (skipn (Z.to_nat k) content).

(** [paginateContent] *)
Definition paginateContent {T} (content : list T) (opts : option RetrieveByPageOptions)
  : list T :=
  let start := match opts with Some o => (page o - 1) * pageSize o | None => -1 end in
  let end_ := match opts with Some o => start + pageSize o | None => 0 end in
  match opts with
  | Some (mkPage _ _ (Some false)) => content
  | Some o =>
      if 0 <=? start then
        if Z.of_nat (List.length content) <=? pageSize o then content
        else slice content start end_
      else content
  | None => content
  end.

(** The page of the specification: the rows at the positions
    [(page-1)*P] up to, not including, [(page-1)*P + P]. *)
Definition pageSliceSpec {T} (content : list T) (page P : Z) : list T :=
  firstn (Z.to_nat P) (skipn (Z.to_nat ((page - 1) * P)) content).

(** [RetrieveBySortingOptions]; the direction can be absent at run time. *)
Record RetrieveBySortingOptions : Type := mkSorting {
  column : string;
  direction : option string }.

(** [column.split('.')] *)
Fixpoint splitDot (s : string) (current : string) : list string :=
  match s with
  | EmptyString => [current]
  | String c rest =>
      if (nat_of_ascii c =? 46)%nat then current :: splitDot rest ""
      else splitDot rest (current ++ String c "")
  end.

(** [getComparisonValue] *)
Fixpoint getComparisonValue (item : JsVal) (path : list string) : Result JsVal :=
  match path with
  | [] => Ok item
  | p :: rest =>
      has <- hasOwnProperty item p ;;
      if negb has then Ok item else
      value <- getProp item p ;;
      match rest with
      | [] => Ok value
      | _ :: _ =>
          if typeofObject value then
            match value with
            | JArr items =>
                (fix firstMatch (items : list JsVal) : Result JsVal :=
                   match items with
                   | [] => Ok item
                   | nested :: more =>
                       found <- getComparisonValue nested rest ;;
                       if truthy found then Ok found else firstMatch more
                   end) items
            | _ => getComparisonValue value rest
            end
          else Ok item
      end
  end.

(** The numeric value of a string, for strings of decimal digits with an
    optional sign (the empty string is zero); other strings count as NaN. *)
Fixpoint digitsValue (s : string) (acc : Z) : option Z :=
  match s with
  | EmptyString => Some acc
  | String c rest =>
      let n := nat_of_ascii c in
      if ((48 <=? n) && (n <=? 57))%nat
      then digitsValue rest (acc * 10 + Z.of_nat (n - 48))
      else None
  end.

Definition stringToNumber (s : string) : option Z :=
  match s with
  | EmptyString => Some 0
  | String "-"%char (String c rest) => option_map Z.opp (digitsValue (String c rest) 0)
  | String "+"%char (String c rest) => digitsValue (String c rest) 0
  | _ => digitsValue s 0
  end.

(** [ToNumber]; [None] is NaN. *)
Definition toNumber (v : JsVal) : option Z :=
  match v with
  | JUndefined => None
  | JNull => Some 0
  | JBool b => Some (if b then 1 else 0)
  | JNum n => Some n
  | JStr s => stringToNumber s
  | JArr _ | JObj _ => stringToNumber (jsToString v)
  end.

(** The operator [a < b]: two strings compare by their characters,
    anything else by number, and a comparison with NaN is false. *)
Definition jsLt (a b : JsVal) : bool :=
  let toPrimitive := fun v => match v with
                              | JArr _ | JObj _ => JStr (jsToString v)
                              | _ => v
                              end in
  match toPrimitive a, toPrimitive b with
  | JStr x, JStr y => String.ltb x y
  | pa, pb =>
      match toNumber pa, toNumber pb with
      | Some x, Some y => x <? y
      | _, _ => false
      end
  end.

(** [compare]: [(a < b ? -1 : 1) * (ascending ? 1 : -1)]. *)
Definition compare (a b : JsVal) (ascending : bool) : Z :=
  (if jsLt a b then -1 else 1) * (if ascending then 1 else -1).

(** [Array.prototype.sort(compareFn)] as an insertion sort: every element
    in turn goes before the first element of the sorted part that the
    comparator puts it in front of. *)
Fixpoint insertSorted {T} (cmp : T -> T -> Result Z) (x : T) (sorted : list T)
  : Result (list T) :=
  match sorted with
  | [] => Ok [x]
  | y :: rest =>
      c <- cmp x y ;;
      if c <? 0 then Ok (x :: y :: rest)
      else (placed <- insertSorted cmp x rest ;; Ok (y :: placed))
  end.

Definition jsSort {T} (cmp : T -> T -> Result Z) (l : list T) : Result (list T) :=
  foldR (fun sorted x => insertSorted cmp x sorted) l [].

(** The comparator that [sortContent] hands to [sort]. *)
Definition sortComparator (opts : RetrieveBySortingOptions) (a b : JsVal) : Result Z :=
  let columnPath := splitDot (column opts) "" in
  va <- getComparisonValue a columnPath ;;
  vb <- getComparisonValue b columnPath ;;
  Ok (compare va vb
        (match direction opts with
         | Some d => (d =? "asc")%string
         | None => false
         end)).

(** [sortContent] (the counter of the last total is not part of the model). *)
Definition sortContent (content : list JsVal) (opts : option RetrieveBySortingOptions)
  : Result (list JsVal) :=
  match opts with
  | None => Ok content
  | Some o =>
      if (column o =? "")%string then Ok content
      else jsSort (sortComparator o) content
  end.

(* ------------------------------------------------------------------ *)
(** * [TtPersistenceDeleteService]: deleting rows and pruning the parents *)

(** [ParentLink], with the [path] of the [ParentDelete] of the delete
    service. *)
Record ParentLink : Type := mkLink {
  linkStoreName : string;
  childStoreName : string;
  property : string;
  linkIdKey : option string;
  parentStoreName : option string;
  path : option (list string) }.

Definition ParentLinkMap := list (string * ParentLink).

(** [updateParentLink]: the last store of the map whose child is the store
    of the link becomes its parent store. *)
Definition updateParentLink (link : ParentLink) (parentMap : ParentLinkMap) : ParentLink :=
  fold_left (fun (l : ParentLink) (entry : string * ParentLink) =>
               if (childStoreName (snd entry) =? linkStoreName l)%string
               then mkLink (linkStoreName l) (childStoreName l) (property l)
                           (linkIdKey l) (Some (fst entry)) (path l)
               else l)
            parentMap link.

(** [createParentLinkMap] *)
Fixpoint createParentLinkMap (fuel : nat) (st : Service) (store : string)
    (activeMap : ParentLinkMap) : Result ParentLinkMap :=
  match fuel with
  | O => OutOfFuel
  | S fuel' =>
      foldR (fun (parentMap : ParentLinkMap) (entry : string * StringMap) =>
               let (parent, linksToMap) := entry in
               foldR (fun (parentMap : ParentLinkMap) (linked : string * string) =>
                        let (prop, linkStore) := linked in
                        if (linkStore =? store)%string then
                          let link :=
                            mkLink parent store prop
                                   (option_map primaryKey (mapGet (optionsMap st) store))
                                   None None in
                          parentMap1 <- createParentLinkMap fuel' st parent
                                          (mapSet parentMap parent link) ;;
                          Ok (mapSet parentMap1 parent (updateParentLink link parentMap1))
                        else Ok parentMap)
                     linksToMap parentMap)
            (linkMap st) activeMap
  end.

(** [createParentDeleteMap]: a link whose parent store is in the map gets
    the path of its own property, and its parent the path through both.  A
    link without a parent in the map is skipped and keeps no path. *)
Definition createParentDeleteMap (st : Service) (store : string) : Result ParentLinkMap :=
  parentMap <- createParentLinkMap (S (List.length (linkMap st))) st store [] ;;
  Ok (fold_left
        (fun (pm : ParentLinkMap) (key : string) =>
           match mapGet pm key with
           | None => pm
           | Some link =>
               match match parentStoreName link with
                     | Some name => mapGet pm name
                     | None => None
                     end with
               | None => pm
               | Some _ =>
                   let linkPath := match path link with
                                   | Some p => p
                                   | None => [property link]
                                   end in
                   let link' := mkLink (linkStoreName link) (childStoreName link)
                                       (property link) (linkIdKey link)
                                       (parentStoreName link) (Some linkPath) in
                   let pm1 := mapSet pm key link' in
                   match match parentStoreName link with
                         | Some name => mapGet pm1 name
                         | None => None
                         end with
                   | None => pm1
                   | Some parent =>
                       mapSet pm1 (linkStoreName parent)
                              (mkLink (linkStoreName parent) (childStoreName parent)
                                      (property parent) (linkIdKey parent)
                                      (parentStoreName parent)
                                      (Some (property parent :: linkPath)))
                   end
               end
           end)
        (mapKeys parentMap) parentMap).

(** [item[property] = value] on a value that has the property. *)
Fixpoint replaceNth (items : list JsVal) (i : nat) (value : JsVal) : list JsVal :=
  match items, i with
  | [], _ => []
  | _ :: rest, O => value :: rest
  | x :: rest, S j => x :: replaceNth rest j value
  end.

Definition replaceProp (item : JsVal) (prop : string) (value : JsVal) : JsVal :=
  match item with
  | JObj fields => JObj (mapSet fields prop value)
  | JArr items =>
      match findIndexKey prop (List.length items) with
      | Some i => JArr (replaceNth items i value)
      | None => item
      end
  | _ => item
  end.

(** [handleCascade] on an item that has the property; the result is the
    item afterwards (the source returns [true]).  A deleted element of an
    array reads as [undefined]; strict-mode code cannot write to a string. *)
Definition handleCascade (item : JsVal) (prop : string) (type : TtDeleteCascade)
  : Result JsVal :=
  match type with
  | KEEP => Ok item
  | _ =>
      match item with
      | JObj fields =>
          Ok (JObj (match type with
                    | DELETE => mapDelete fields prop
                    | NULL => mapSet fields prop JNull
                    | _ => mapSet fields prop JUndefined
                    end))
      | JArr items =>
          if (prop =? "length")%string then
            match type with
            | NULL => Ok (JArr [])
            | DELETE => Throw (TypeError "cannot delete property 'length'")
            | _ => Throw (RangeError "invalid array length")
            end
          else Ok (replaceProp item prop (match type with NULL => JNull | _ => JUndefined end))
      | _ => Throw (TypeError "cannot assign to a property of a primitive")
      end
  end.

(** [checkItemRemovalState] *)
Definition checkItemRemovalState (item : JsVal) (primaryKeys : list JsVal)
    (prop : option string) : Result bool :=
  nested <- match prop with
            | Some p => if (p =? "")%string then Ok item else getProp item p
            | None => Ok item
            end ;;
  if negb (truthy nested) then Ok false
  else (idValue <- getProp nested idKey ;; Ok (includes primaryKeys idValue)).

(** [traverseItemPathForId]: whether the item was adjusted, and the item
    afterwards. *)
Fixpoint traverseItemPathForId (item : JsVal) (itemPath : list string)
    (type : TtDeleteCascade) (primaryKeys : list JsVal) : Result (bool * JsVal) :=
  match itemPath with
  | [] => Ok (false, item)
  | p :: rest =>
      has <- hasOwnProperty item p ;;
      if negb has then Ok (false, item) else
      value <- getProp item p ;;
      match rest with
      | _ :: _ =>
          if typeofObject value then
            match value with
            | JArr items =>
                r <- foldR (fun (acc : bool * list JsVal) nested =>
                              t <- traverseItemPathForId nested rest type primaryKeys ;;
                              Ok (fst acc || fst t, (snd acc ++ [snd t])%list))
                           items (false, []) ;;
                Ok (fst r, replaceProp item p (JArr (snd r)))
            | _ =>
                t <- traverseItemPathForId value rest type primaryKeys ;;
                Ok (fst t, replaceProp item p (snd t))
            end
          else Ok (false, item)
      | [] =>
          match value with
          | JArr items =>
              r <- foldR (fun (acc : bool * list JsVal) nested =>
                            remove <- checkItemRemovalState nested primaryKeys None ;;
                            if negb remove then Ok (fst acc, (snd acc ++ [nested])%list)
                            else
                              (t <- traverseItemPathForId nested rest type primaryKeys ;;
                               Ok (fst acc || fst t, (snd acc ++ [snd t])%list)))
                         items (false, []) ;;
              Ok (fst r, replaceProp item p (JArr (snd r)))
          | _ =>
              remove <- checkItemRemovalState item primaryKeys (Some p) ;;
              if remove then (item' <- handleCascade item p type ;; Ok (true, item'))
              else Ok (false, item)
          end
      end
  end.

(** [TtPersistenceDeleteResult] with its internal set of adjusted items. *)
Record TtPersistenceDeleteResult : Type := mkDeleteResult {
  deleteStoreName : string;
  deletePrimaryKeys : list JsVal;
  deletePath : string;
  deleteType : TtDeleteCascade }.

(** The cursor of [createPruningObservable] over the records of a parent
    store, with [handlePruneById] on every record.  An exception in the
    handler of the cursor is not delivered to the subscriber: [None]. *)
Fixpoint pruneRowsById (rows : Rows) (linkPath : list string) (type : TtDeleteCascade)
    (primaryKeys : list JsVal) (affected : list JsVal) (content : list JsVal)
  : option (list JsVal * list JsVal) :=
  match rows with
  | [] => Some (affected, content)
  | (_, item) :: rest =>
      match (primaryKeyValue <- getProp item idKey ;;
             t <- traverseItemPathForId item linkPath type primaryKeys ;;
             Ok (primaryKeyValue, t)) with
      | Ok (primaryKeyValue, (removed, item')) =>
          if removed
          then pruneRowsById rest linkPath type primaryKeys
                             (affected ++ [primaryKeyValue]) (content ++ [item'])
          else pruneRowsById rest linkPath type primaryKeys affected content
      | _ => None
      end
  end.

(** [createPruningObservable] with a list of primary keys.  The cascade is
    the one of the options of the parent store, [KEEP] when it has none. *)
Definition createPruningObservable (st : Service) (link : ParentLink)
    (primaryKeys : list JsVal) : Outcome (TtPersistenceDeleteResult * list JsVal) :=
  match mapGet (optionsMap st) (linkStoreName link) with
  | None => Fail (TypeError "cannot read properties of undefined (reading 'cascade')")
  | Some o =>
      let type := match cascade o with Some t => t | None => KEEP end in
      match mapGet (objectStores st) (linkStoreName link) with
      | None => Fail (DOMException "NotFoundError")
      | Some rows =>
          match path link with
          | None => Fail (TypeError "cannot read properties of undefined (reading 'join')")
          | Some linkPath =>
              match pruneRowsById rows linkPath type primaryKeys [] [] with
              | None => Silent
              | Some (affected, content) =>
                  Emit (mkDeleteResult (linkStoreName link) affected
                                       (joinWith "." linkPath) type, content)
              end
          end
      end
  end.

(** [createPruningOperators]: the parents one after the other; the queue of
    rows to write again and the results. *)
Fixpoint createPruningOperators (st : Service) (parents : list ParentLink)
    (primaryKeys : list JsVal) (queueMap : QueueMap)
    (results : list TtPersistenceDeleteResult)
  : Outcome (QueueMap * list TtPersistenceDeleteResult) :=
  match parents with
  | [] => Emit (queueMap, results)
  | link :: rest =>
      match createPruningObservable st link primaryKeys with
      | Emit (deleteResult, content) =>
          createPruningOperators st rest primaryKeys
                                 (mapSet queueMap (linkStoreName link) content)
                                 (results ++ [deleteResult])
      | Fail e => Fail e
      | Silent => Silent
      | Unfinished => Unfinished
      end
  end.

Section Delete.

Variable putVerdict : string -> Rows -> JsVal -> option string.

(** [checkAndPruneParents] with a list of primary keys. *)
Definition checkAndPruneParents (st : Service) (store : string)
    (idKeys : list JsVal) (result : TtPersistenceDeleteResult)
  : Outcome (list TtPersistenceDeleteResult) * Service :=
  match createParentDeleteMap st store with
  | Throw e => (Fail e, st)
  | OutOfFuel => (Unfinished, st)
  | Ok [] => (Emit [result], st)
  | Ok deleteMap =>
      match createPruningOperators st (mapValues deleteMap) idKeys [] [] with
      | Emit (queueMap, deleteResults) =>
          let (outcome, st') := insertLinkedItemsInStores putVerdict st queueMap in
          (match outcome with
           | Emit _ => Emit deleteResults
           | Fail e => Fail e
           | Silent => Silent
           | Unfinished => Unfinished
           end, st')
      | Fail e => (Fail e, st)
      | Silent => (Silent, st)
      | Unfinished => (Unfinished, st)
      end
  end.

(** The loop of [deleteContentFromStore]: a key that is not valid makes
    [delete] throw; the keys before it are deleted all the same. *)
Fixpoint deleteKeys (rows : Rows) (idKeys : list JsVal) : Rows * option JsError :=
  match idKeys with
  | [] => (rows, None)
  | key :: rest =>
      match toKey key with
      | None => (rows, Some (DOMException "DataError"))
      | Some k => deleteKeys (rowsDelete rows k) rest
      end
  end.

(** The first index of a key in the list, [Array.prototype.indexOf]. *)
Fixpoint indexOf (keys : list JsVal) (key : JsVal) (i : nat) : option nat :=
  match keys with
  | [] => None
  | k :: rest => if sameValueZero k key then Some i else indexOf rest key (S i)
  end.

(** [deleteContentFromStore].  The result is emitted by the success
    handler of a key whose first position in the list is the last one. *)
Definition deleteContentFromStore (st : Service) (store : string) (idKeys : list JsVal)
  : Outcome (list TtPersistenceDeleteResult) * Service :=
  match mapGet (objectStores st) store with
  | None => (Fail (DOMException "NotFoundError"), st)
  | Some rows =>
      let (rows', thrown) := deleteKeys rows idKeys in
      let st' := withStores st (mapSet (objectStores st) store rows') in
      match thrown with
      | Some e => (Fail e, st')
      | None =>
          if existsb (fun key => match indexOf idKeys key O with
                                 | Some i => (S i =? List.length idKeys)%nat
                                 | None => false
                                 end) idKeys
          then checkAndPruneParents st' store idKeys
                                    (mkDeleteResult store idKeys "" DELETE)
          else (Silent, st')
      end
  end.

(** [TtPersistenceService.delete] *)
Definition deleteRows (st : Service) (store : string) (primaryKeys : JsVal)
  : Outcome (list TtPersistenceDeleteResult) * Service :=
  if negb (connected st) then (Silent, st)
  else deleteContentFromStore st store (map extractUuid (asArray primaryKeys)).

End Delete.

(* ------------------------------------------------------------------ *)
(** * [TtPersistenceService.post]: the identity of new content *)

(** [getPrimaryKeyValue] *)
Definition getPrimaryKeyValue (item : JsVal) (store : string) (pk : string) : Result JsVal :=
  idSource <- getProp item pk ;;
  let idValue := extractUuid idSource in
  if negb (truthy idValue) then Throw (NoPrimaryKeyInObjectError store pk)
  else Ok idValue.

(** [createItemWithIdKeyValue]; [generated] is the record that the generator
    made of the template ([[]] without a template). *)
Definition createItemWithIdKeyValue (store : string) (pk : string) (item : JsVal)
    (generated : Fields) : Result JsVal :=
  let combined :=
    fold_left (fun fields kv => mapSet fields (fst kv) (snd kv)) generated (objectAssign item) in
  idValue <- getPrimaryKeyValue (JObj combined) store pk ;;
  Ok (JObj (fold_left (fun fields kv => mapSet fields (fst kv) (snd kv))
                      combined [(idKey, idValue)])).

(** The first steps of [post]: the database, the primary key of the store
    ([getPrimaryKeyForStore]) and the content extended with its identity.
    The queue that [post] makes of the extended content is written by
    [updateContentInStore], which reads the parents through their indices
    and is not part of the model. *)
Definition postExtendedContent (st : Service) (store : string) (content : JsVal)
    (generated : Fields) : Outcome (list JsVal) :=
  if negb (connected st) then Silent
  else
    match mapGet (optionsMap st) store with
    | None => Fail (NoPrimaryKeyInSettingsError store)
    | Some o =>
        ofResult (mapR (fun item => createItemWithIdKeyValue store (primaryKey o) item generated)
                       (asArray content))
    end.

(* ------------------------------------------------------------------ *)
(** * [TtPersistenceService.clear] *)

(** A notification of an observable that can emit more than once. *)
Inductive Notification (A : Type) : Type :=
| Next (a : A)
| Error (e : JsError).
Arguments Next {A} a.
Arguments Error {A} e.

(** [clear(storeName)]: the notifications in their order, and the state.
    After the [next] for a store that does not exist the subscribe function
    goes on and asks for a transaction on that store, which throws. *)
Definition clear (st : Service) (store : string) : list (Notification bool) * Service :=
  if negb (connected st) then ([], st)
  else
    let first := if negb (mapHas (objectStores st) store) then [Next true] else [] in
    match mapGet (objectStores st) store with
    | None => ((first ++ [Error (DOMException "NotFoundError")])%list, st)
    | Some _ => ((first ++ [Next true])%list, withStores st (mapSet (objectStores st) store []))
    end.

(* ------------------------------------------------------------------ *)
(** * [removeGeneratedIdKeyFromContent] on a heap of objects

    Objects and arrays live in a heap and are referred to by location, so
    that the argument of the function and the copy it returns can be told
    apart. *)

Module Heap.

Inductive HVal : Type :=
| HUndefined
| HNull
| HBool (b : bool)
| HNum (n : Z)
| HStr (s : string)
| HRef (location : nat).

Inductive HObj : Type :=
| HObject (fields : list (string * HVal))
| HArray (items : list HVal).

Definition heap := list HObj.

Definition alloc (h : heap) (o : HObj) : heap * nat := ((h ++ [o])%list, List.length h).

Fixpoint heapSet (h : heap) (l : nat) (o : HObj) : heap :=
  match h, l with
  | [], _ => []
  | _ :: rest, O => o :: rest
  | x :: rest, S l' => x :: heapSet rest l' o
  end.

Fixpoint indexFieldsH (i : nat) (items : list HVal) : list (string * HVal) :=
  match items with
  | [] => []
  | x :: rest => (stringOfZ (Z.of_nat i), x) :: indexFieldsH (S i) rest
  end.

Fixpoint charFieldsH (i : nat) (s : string) : list (string * HVal) :=
  match s with
  | EmptyString => []
  | String c rest =>
      (stringOfZ (Z.of_nat i), HStr (String c EmptyString)) :: charFieldsH (S i) rest
  end.

(** The own enumerable properties that [Object.assign({}, item)] copies. *)
Definition ownProperties (h : heap) (item : HVal) : option (list (string * HVal)) :=
  match item with
  | HRef l =>
      match nth_error h l with
      | Some (HObject fields) => Some fields
      | Some (HArray items) => Some (indexFieldsH 0 items)
      | None => None
      end
  | HStr s => Some (charFieldsH 0 s)
  | _ => Some []
  end.

Definition deleteTagsH (fields : list (string * HVal)) : list (string * HVal) :=
  mapDelete (mapDelete fields idKey) storeKey.

Definition fieldsAt (h : heap) (l : nat) : list (string * HVal) :=
  match nth_error h l with
  | Some (HObject fields) => fields
  | _ => []
  end.

Fixpoint setValueAt (fields : list (string * HVal)) (i : nat) (value : HVal)
  : list (string * HVal) :=
  match fields, i with
  | [], _ => []
  | (k, _) :: rest, O => (k, value) :: rest
  | kv :: rest, S j => kv :: setValueAt rest j value
  end.

(** The loop of [cleanNested] over [Object.keys(removed)], from the
    property at position [i] on.  The keys of an object are pairwise
    different, so [removed[key]] is the property at the position of the
    key.  A property that holds an array or an object is overwritten, in
    the heap, with the result of [outer] on it. *)
Fixpoint cleanProperties (outer : heap -> HVal -> option (heap * HVal))
    (removed : nat) (count i : nat) (h : heap) : option heap :=
  match count with
  | O => Some h
  | S count' =>
      match nth_error (fieldsAt h removed) i with
      | Some (_, HRef l) =>
          match outer h (HRef l) with
          | Some (h', cleaned) =>
              cleanProperties outer removed count' (S i)
                (heapSet h' removed
                         (HObject (setValueAt (fieldsAt h' removed) i cleaned)))
          | None => None
          end
      | _ => cleanProperties outer removed count' (S i) h
      end
  end.

(** [cleanNested]: [removed] is allocated first, its properties are
    cleaned in place, and the two tags are deleted from it.  Only
    [removed] is written to. *)
Definition cleanNestedWith (outer : heap -> HVal -> option (heap * HVal))
    (h : heap) (item : HVal) : option (heap * HVal) :=
  match ownProperties h item with
  | None => None
  | Some fields =>
      let (h1, removed) := alloc h (HObject fields) in
      match cleanProperties outer removed (List.length fields) O h1 with
      | None => None
      | Some h2 =>
          Some (heapSet h2 removed (HObject (deleteTagsH (fieldsAt h2 removed))),
                HRef removed)
      end
  end.

(** [content.map(cleanNested)] into a new array. *)
Fixpoint mapClean (clean : heap -> HVal -> option (heap * HVal))
    (h : heap) (items : list HVal) : option (heap * list HVal) :=
  match items with
  | [] => Some (h, [])
  | x :: rest =>
      match clean h x with
      | None => None
      | Some (h1, y) =>
          match mapClean clean h1 rest with
          | None => None
          | Some (h2, ys) => Some (h2, y :: ys)
          end
      end
  end.

(** [removeGeneratedIdKeyFromContent]; [None] when the fuel runs out (the
    source does not return on a cyclic value) or a location is not in the
    heap. *)
Fixpoint removeGeneratedIdKeyFromContent (fuel : nat) (h : heap) (content : HVal)
  : option (heap * HVal) :=
  match fuel with
  | O => None
  | S fuel' =>
      let cleanNested := cleanNestedWith (removeGeneratedIdKeyFromContent fuel') in
      match content with
      | HRef l =>
          match nth_error h l with
          | Some (HArray items) =>
              match mapClean cleanNested h items with
              | None => None
              | Some (h1, cleaned) =>
                  let (h2, result) := alloc h1 (HArray cleaned) in
                  Some (h2, HRef result)
              end
          | Some (HObject _) => cleanNested h content
          | None => None
          end
      | _ => cleanNested h content
      end
  end.

(** The value that a heap value stands for, down to a depth. *)
Fixpoint mapOption {A B} (f : A -> option B) (l : list A) : option (list B) :=
  match l with
  | [] => Some []
  | x :: rest =>
      match f x, mapOption f rest with
      | Some y, Some ys => Some (y :: ys)
      | _, _ => None
      end
  end.

Fixpoint reify (fuel : nat) (h : heap) (v : HVal) : option JsVal :=
  match v with
  | HUndefined => Some JUndefined
  | HNull => Some JNull
  | HBool b => Some (JBool b)
  | HNum n => Some (JNum n)
  | HStr s => Some (JStr s)
  | HRef l =>
      match fuel with
      | O => None
      | S fuel' =>
          match nth_error h l with
          | Some (HObject fields) =>
              option_map JObj
                (mapOption (fun kv : string * HVal =>
                              option_map (pair (fst kv)) (reify fuel' h (snd kv)))
                           fields)
          | Some (HArray items) => option_map JArr (mapOption (reify fuel' h) items)
          | None => None
          end
      end
  end.

(** [reify] for a value all of whose objects are at the location [bound]
    or above it. *)
Fixpoint reifyAbove (bound : nat) (fuel : nat) (h : heap) (v : HVal) : option JsVal :=
  match v with
  | HUndefined => Some JUndefined
  | HNull => Some JNull
  | HBool b => Some (JBool b)
  | HNum n => Some (JNum n)
  | HStr s => Some (JStr s)
  | HRef l =>
      match fuel with
      | O => None
      | S fuel' =>
          if (l <? bound)%nat then None
          else
            match nth_error h l with
            | Some (HObject fields) =>
                option_map JObj
                  (mapOption (fun kv : string * HVal =>
                                option_map (pair (fst kv)) (reifyAbove bound fuel' h (snd kv)))
                             fields)
            | Some (HArray items) =>
                option_map JArr (mapOption (reifyAbove bound fuel' h) items)
            | None => None
            end
      end
  end.

(** Every object of [h] is in [h'], unchanged. *)
Definition preserved (h h' : heap) : Prop :=
  forall l o, nth_error h l = Some o -> nth_error h' l = Some o.

End Heap.

(* ------------------------------------------------------------------ *)
(** * The words of the specification *)



(** Equality of values up to the order of the properties of objects. *)
Fixpoint jsEquiv (a b : JsVal) : bool :=
  match a, b with
  | JUndefined, JUndefined => true
  | JNull, JNull => true
  | JBool x, JBool y => Bool.eqb x y
  | JNum x, JNum y => x =? y
  | JStr x, JStr y => (x =? y)%string
  | JArr xs, JArr ys =>
      (fix all (xs ys : list JsVal) : bool :=
         match xs, ys with
         | [], [] => true
         | x :: xs', y :: ys' => jsEquiv x y && all xs' ys'
         | _, _ => false
         end) xs ys
  | JObj fa, JObj fb =>
      (List.length fa =? List.length fb)%nat
      && (fix all (fa : Fields) : bool :=
            match fa with
            | [] => true
            | (k, x) :: rest =>
                match mapGet fb k with
                | Some y => jsEquiv x y && all rest
                | None => false
                end
            end) fa
  | _, _ => false
  end.

(* ------------------------------------------------------------------ *)
(** * The scenario of the specification and other concrete inputs *)

Module Scenario.

(** An engine that accepts every write. *)
Definition acceptAll : string -> Rows -> JsVal -> option string :=
  fun _ _ _ => None.


(** The services before anything was persisted. *)
Definition emptyService : Service :=
  mkService (mkSettings 0 [] [] [] []) [] [] [] false 0 [].

Definition locationOptions : TtPersistenceOptions :=
  mkOptions "Location" "@id" None None None None.

Definition personOptionsWith (c : option TtDeleteCascade) : TtPersistenceOptions :=
  mkOptions "Person" "id" None (Some [("location", locationOptions)]) None c.

Definition personOptions : TtPersistenceOptions := personOptionsWith None.

Definition locationContent : JsVal :=
  JObj [("@id", JStr "/api/locations/1"); ("name", JStr "Test")].

Definition personContent : JsVal :=
  JObj [("id", JStr "p1"); ("location", locationContent)].

(** Location persisted, then Person. *)
Definition afterLocation : Service :=
  snd (persist acceptAll emptyService locationContent locationOptions).

Definition afterPersonWith (c : option TtDeleteCascade) : Service :=
  snd (persist acceptAll afterLocation personContent (personOptionsWith c)).

Definition afterPerson : Service := afterPersonWith None.



(** Three levels: a company embeds a person, who embeds a location. *)
Definition companyOptionsWith (c : option TtDeleteCascade) : TtPersistenceOptions :=
  mkOptions "Company" "id" None (Some [("person", personOptionsWith c)]) None c.

Definition companyContent : JsVal :=
  JObj [("id", JStr "c1"); ("person", personContent)].

Definition afterCompanyWith (c : option TtDeleteCascade) : Service :=
  snd (persist acceptAll emptyService companyContent (companyOptionsWith c)).

Definition namedOptions : TtPersistenceOptions :=
  mkOptions "Person" "id" (Some ["name"]) None None None.

Definition named (id name : string) : JsVal :=
  JObj [("id", JStr id); ("name", JStr name)].

End Scenario.

(* ------------------------------------------------------------------ *)
(** * Induction on values *)

Section JsValInduction.
Variable P : JsVal -> Prop.
Hypothesis Hundefined : P JUndefined.
Hypothesis Hnull : P JNull.
Hypothesis Hbool : forall b, P (JBool b).
Hypothesis Hnum : forall n, P (JNum n).
Hypothesis Hstr : forall s, P (JStr s).
Hypothesis Harr : forall items, Forall P items -> P (JArr items).
Hypothesis Hobj : forall fields, Forall (fun kv => P (snd kv)) fields -> P (JObj fields).

Fixpoint JsVal_nested_ind (v : JsVal) : P v :=
match v with
| JUndefined => Hundefined
| JNull => Hnull
| JBool b => Hbool b
| JNum n => Hnum n
| JStr s => Hstr s
| JArr items =>
    Harr ((fix all (l : list JsVal) : Forall P l :=
             match l with
             | [] => Forall_nil P
             | x :: rest => Forall_cons x (JsVal_nested_ind x) (all rest)
             end) items)
| JObj fields =>
    Hobj ((fix all (l : list (string * JsVal)) : Forall (fun kv => P (snd kv)) l :=
             match l with
             | [] => Forall_nil _
             | kv :: rest => Forall_cons kv (JsVal_nested_ind (snd kv)) (all rest)
             end) fields)
end.
End JsValInduction.

(* ------------------------------------------------------------------ *)
(** * Predicates of the statements *)

(** The keys of the records of a store are pairwise different. *)
Definition distinctKeys (rows : Rows) : Prop := NoDup (map fst rows).





Definition isTypeError (e : JsError) : Prop := exists what, e = TypeError what.




(** What [cleanNested] writes into a property: the value itself unless it
    is an array or an object. *)
Definition outerPure (v : JsVal) : JsVal :=
  match v with
  | JArr l => JArr (map cleanNested l)
  | JObj _ => cleanNested v
  | _ => v
  end.

(** The value of a property of a heap object, with its key. *)
Definition fieldReify (n : nat) (h : Heap.heap) (kv : string * Heap.HVal)
  : option (string * JsVal) :=
  option_map (pair (fst kv)) (Heap.reify n h (snd kv)).

Definition fieldReifyAbove (b n : nat) (h : Heap.heap) (kv : string * Heap.HVal)
  : option (string * JsVal) :=
  option_map (pair (fst kv)) (Heap.reifyAbove b n h (snd kv)).

Definition isRef (v : Heap.HVal) : bool :=
  match v with Heap.HRef _ => true | _ => false end.

(** The result of [outer] on a reference whose value has depth [m]: new
    objects only, that stand for the cleaned value, and nothing that was in
    the heap is changed. *)
Definition copies (outer : Heap.heap -> Heap.HVal -> option (Heap.heap * Heap.HVal))
    (m : nat) : Prop :=
  forall hc l j,
    Heap.reify m hc (Heap.HRef l) = Some j ->
    exists hc' l',
      outer hc (Heap.HRef l) = Some (hc', Heap.HRef l')
      /\ Heap.preserved hc hc'
      /\ (List.length hc <= l')%nat
      /\ Heap.reifyAbove (List.length hc) (S m) hc' (Heap.HRef l') = Some (outerPure j).


(* ================================================================== *)
(** * More of the services *)

(* ------------------------------------------------------------------ *)
(** ** [TtPersistenceDatabaseService]: primary keys and the stored links *)

(** [extractPrimaryKey(url, index?, exact?)].  [uuidRegExp] has no global
    flag, so [match] returns an array of one element, the first match, or
    [null]. *)
Definition extractPrimaryKey (url : JsVal) (index : option Z) (exact : bool) : JsVal :=
  match index with
  | None => extractUuid url
  | Some i =>
      let matches := match findUuid (jsToString url) with
                     | Some uuid => [JStr uuid]
                     | None => []
                     end in
      let atIndex := if i <? 0 then JUndefined else nth (Z.to_nat i) matches JUndefined in
      if exact
      then match atIndex with JUndefined | JNull => JStr "" | found => found end
      else atIndex
  end.

(** The shape of a UUID in the words of [uuidRegExp]: five groups of 8, 4,
    4, 4 and 12 hexadecimal digits with dashes between them. *)
Fixpoint allHex (s : string) : bool :=
  match s with
  | EmptyString => true
  | String c rest => isHexDigit c && allHex rest
  end.

Definition hexGroup (n : nat) (s : string) : Prop :=
  String.length s = n /\ allHex s = true.

Definition uuidShape (u : string) : Prop :=
  exists a b c d e,
    u = a ++ "-" ++ b ++ "-" ++ c ++ "-" ++ d ++ "-" ++ e
    /\ hexGroup 8 a /\ hexGroup 4 b /\ hexGroup 4 c /\ hexGroup 4 d /\ hexGroup 12 e.

(* ------------------------------------------------------------------ *)
(** ** Reading in pages *)

(** The pages of a content one after the other, from page one to the last
    page that [pageSize] makes of it (one page at least). *)
Definition allPages {T} (content : list T) (pageSize : Z) (pagination : option bool)
  : list (list T) :=
  let N := Z.of_nat (List.length content) in
  map (fun i => paginateContent content (Some (mkPage (Z.of_nat i) pageSize pagination)))
      (seq 1 (Z.to_nat (Z.max 1 ((N + pageSize - 1) / pageSize)))).

(* ------------------------------------------------------------------ *)
(** ** Predicates on sorted and cleaned content *)

(** The column resolves on the row: [getComparisonValue] returns. *)
Definition resolvesAt (columnPath : list string) (item : JsVal) : Prop :=
  exists value, getComparisonValue item columnPath = Ok value.

Definition stringAt (columnPath : list string) (item : JsVal) : Prop :=
  exists s, getComparisonValue item columnPath = Ok (JStr s).

(** The order of two rows by the strings at the column. *)
Definition ascendingByString (columnPath : list string) (a b : JsVal) : Prop :=
  exists x y, getComparisonValue a columnPath = Ok (JStr x)
              /\ getComparisonValue b columnPath = Ok (JStr y)
              /\ String.leb x y = true.

Definition descendingByString (columnPath : list string) (a b : JsVal) : Prop :=
  exists x y, getComparisonValue a columnPath = Ok (JStr x)
              /\ getComparisonValue b columnPath = Ok (JStr y)
              /\ String.leb y x = true.

(** No object of the value, at any depth, has the key [__pkey__] or the
    key [__store__]. *)
Fixpoint tagFree (v : JsVal) : bool :=
  match v with
  | JObj fields =>
      forallb (fun kv : string * JsVal =>
                 negb (fst kv =? idKey)%string && negb (fst kv =? storeKey)%string
                 && tagFree (snd kv)) fields
  | JArr items => forallb tagFree items
  | _ => true
  end.

(** The column does not resolve on the row: [getComparisonValue] throws. *)
Definition throwsAt (columnPath : list string) (item : JsVal) : Prop :=
  exists e, getComparisonValue item columnPath = Throw e.

(* ------------------------------------------------------------------ *)
(** ** Kinds of errors *)

(** An error of the language or of the storage engine, as opposed to the
    errors that the library makes itself. *)
Definition languageOrEngineError (e : JsError) : Prop :=
  isTypeError e
  \/ (exists name, e = DOMException name)
  \/ (exists message, e = IndexedDBAccessError message).

(* ------------------------------------------------------------------ *)
(** ** Links between stores *)

(** Some store has a property that is linked to [store]. *)
Definition linkedFrom (lm : LinkMap) (store : string) : Prop :=
  exists parent links prop, In (parent, links) lm /\ In (prop, store) links.

(** The records that are left when the keys are deleted one by one. *)
Definition rowsWithout (rows : Rows) (keys : list IdbKey) : Rows :=
  fold_left rowsDelete keys rows.

(** The keys of a list of values; [None] when one of them is no valid key. *)
Fixpoint toKeys (keys : list JsVal) : option (list IdbKey) :=
  match keys with
  | [] => Some []
  | key :: rest =>
      match toKey key, toKeys rest with
      | Some k, Some ks => Some (k :: ks)
      | _, _ => None
      end
  end.

(* ------------------------------------------------------------------ *)
(** ** [TtPersistenceRetrieveService]: reading a whole store *)

(** The order in which the engine keeps the records of a store: by key,
    numbers before strings, numbers by value and strings by their
    characters. *)
Definition keyLtb (a b : IdbKey) : bool :=
  match a, b with
  | KNum x, KNum y => x <? y
  | KNum _, KStr _ => true
  | KStr _, KNum _ => false
  | KStr x, KStr y => String.ltb x y
  end.

Fixpoint insertByKey (row : IdbKey * JsVal) (sorted : Rows) : Rows :=
  match sorted with
  | [] => [row]
  | r :: rest =>
      if keyLtb (fst row) (fst r) then row :: r :: rest
      else r :: insertByKey row rest
  end.

(** [IDBObjectStore.getAll()]: the records in the order of their keys. *)
Definition getAll (rows : Rows) : list JsVal :=
  map snd (fold_right insertByKey [] rows).

(** [String.prototype.toLowerCase], a character being a code unit below
    256: the capitals A to Z and the accented capitals of Latin-1 (192 to
    222 without the multiplication sign 215) have their small letter 32
    places further; every other character is its own. *)
Definition lowerCaseChar (c : ascii) : ascii :=
  let n := nat_of_ascii c in
  if ((65 <=? n) && (n <=? 90)
      || (192 <=? n) && (n <=? 222) && negb (n =? 215))%nat
  then ascii_of_nat (n + 32) else c.

Fixpoint toLowerCase (s : string) : string :=
  match s with
  | EmptyString => EmptyString
  | String c rest => String (lowerCaseChar c) (toLowerCase rest)
  end.

(** [String.prototype.includes] *)
Fixpoint stringIncludes (s part : string) : bool :=
  if String.prefix part s then true
  else match s with
       | EmptyString => false
       | String _ rest => stringIncludes rest part
       end.

Module Retrieve.

(** [getContentByStore]; asking for a transaction on a store that does not
    exist throws. *)
Definition getContentByStore (st : Service) (store : string) : Outcome (list JsVal) :=
  match mapGet (objectStores st) store with
  | None => Fail (DOMException "NotFoundError")
  | Some rows => Emit (getAll rows)
  end.

(** [getSortedContent] *)
Definition getSortedContent (st : Service) (store : string)
    (opts : option RetrieveBySortingOptions) : Outcome (list JsVal) :=
  match getContentByStore st store with
  | Emit content => ofResult (sortContent content opts)
  | other => other
  end.

(** [matchCallbackToContent]; the callback is a function of the row (the
    request it may look at is fixed for the call). *)
Definition matchCallbackToContent (content : list JsVal) (callback : JsVal -> bool)
    (pageOptions : option RetrieveByPageOptions) : list JsVal :=
  paginateContent (List.filter callback content) pageOptions.

(** [checkResultForSearchTerm]: the string of the value holds the term,
    the case of the letters left aside. *)
Definition checkResultForSearchTerm (result : JsVal) (searchTerm : string) : bool :=
  stringIncludes (toLowerCase (jsToString result)) (toLowerCase searchTerm).

(** [traverseItemPath] of the retrieve service. *)
Fixpoint traverseItemPath (item : JsVal) (path : list string) (term : string)
  : Result bool :=
  match path with
  | [] => Ok false
  | p :: rest =>
      has <- hasOwnProperty item p ;;
      if negb has then Ok false else
      value <- getProp item p ;;
      match rest with
      | [] => Ok (checkResultForSearchTerm value term)
      | _ :: _ =>
          if typeofObject value then
            match value with
            | JArr items =>
                (fix anyMatch (items : list JsVal) : Result bool :=
                   match items with
                   | [] => Ok false
                   | nested :: more =>
                       found <- traverseItemPath nested rest term ;;
                       if found then Ok true else anyMatch more
                   end) items
            | _ => traverseItemPath value rest term
            end
          else Ok false
      end
  end.

(** [RetrieveBySearchOptions] *)
Record RetrieveBySearchOptions : Type := mkSearch {
  term : string;
  index : string }.

(** [Array.prototype.filter] with a callback that can throw. *)
Fixpoint filterR (f : JsVal -> Result bool) (l : list JsVal) : Result (list JsVal) :=
  match l with
  | [] => Ok []
  | x :: rest =>
      keep <- f x ;;
      kept <- filterR f rest ;;
      Ok (if keep then x :: kept else kept)
  end.

(** [matchSearchTermToContent] *)
Definition matchSearchTermToContent (content : list JsVal)
    (searchOptions : RetrieveBySearchOptions)
    (pageOptions : option RetrieveByPageOptions) : Result (list JsVal) :=
  matched <- filterR (fun item => traverseItemPath item (splitDot (index searchOptions) "")
                                                   (term searchOptions))
                     content ;;
  Ok (paginateContent matched pageOptions).

End Retrieve.

(* ------------------------------------------------------------------ *)
(** ** [TtPersistenceService]: reading without keys *)

Module TtPersistenceService.

(** [get] with [RetrieveByPageOptions]: the rows of the store, sorted, one
    page of them, without their tags. *)
Definition getPage (st : Service) (store : string)
    (getOptions : RetrieveByPageOptions) (sortOptions : option RetrieveBySortingOptions)
  : Outcome JsVal :=
  if negb (connected st) then Silent
  else
    match Retrieve.getContentByStore st store with
    | Emit content =>
        match sortContent content sortOptions with
        | Ok sorted =>
            Emit (removeGeneratedIdKeyFromContent
                    (JArr (paginateContent sorted (Some getOptions))))
        | Throw e => Fail e
        | OutOfFuel => Unfinished
        end
    | Fail e => Fail e
    | Silent => Silent
    | Unfinished => Unfinished
    end.

(** [filter] *)
Definition filter (st : Service) (store : string) (callback : JsVal -> bool)
    (pageOptions : option RetrieveByPageOptions)
    (sortOptions : option RetrieveBySortingOptions) : Outcome JsVal :=
  if negb (connected st) then Silent
  else
    match Retrieve.getSortedContent st store sortOptions with
    | Emit content =>
        Emit (removeGeneratedIdKeyFromContent
                (JArr (Retrieve.matchCallbackToContent content callback pageOptions)))
    | Fail e => Fail e
    | Silent => Silent
    | Unfinished => Unfinished
    end.

(** [find]: [content.find(callback)] is [undefined] when no row matches. *)
Definition find (st : Service) (store : string) (callback : JsVal -> bool)
  : Outcome JsVal :=
  if negb (connected st) then Silent
  else
    match Retrieve.getSortedContent st store None with
    | Emit content =>
        Emit (removeGeneratedIdKeyFromContent
                (match List.find callback content with
                 | Some row => row
                 | None => JUndefined
                 end))
    | Fail e => Fail e
    | Silent => Silent
    | Unfinished => Unfinished
    end.

(** [search] *)
Definition search (st : Service) (store : string)
    (searchOptions : Retrieve.RetrieveBySearchOptions)
    (pageOptions : option RetrieveByPageOptions)
    (sortOptions : option RetrieveBySortingOptions) : Outcome JsVal :=
  if negb (connected st) then Silent
  else
    match Retrieve.getSortedContent st store sortOptions with
    | Emit content =>
        match Retrieve.matchSearchTermToContent content searchOptions pageOptions with
        | Ok matched => Emit (removeGeneratedIdKeyFromContent (JArr matched))
        | Throw e => Fail e
        | OutOfFuel => Unfinished
        end
    | Fail e => Fail e
    | Silent => Silent
    | Unfinished => Unfinished
    end.

(** [values.every((value, index) => other[index] === value)]: an index past
    the end of [other] reads [undefined], which is no string. *)
Fixpoint everyAt (values other : list string) : bool :=
  match values with
  | [] => true
  | value :: rest =>
      match other with
      | o :: others => (o =? value)%string && everyAt rest others
      | [] => false
      end
  end.

(** [pruneRuleCombinations] *)
Definition pruneRuleCombinations (combinations : list (list string * list string))
  : list (list string * list string) :=
  fold_left
    (fun cleaned combination =>
       let found :=
         existsb (fun kept => everyAt (fst combination) (fst kept)
                              && everyAt (snd combination) (snd kept))
                 cleaned in
       if negb found then (cleaned ++ [combination])%list else cleaned)
    combinations [].

End TtPersistenceService.

(** A combination whose two lists are the beginnings of the lists of
    another. *)
Definition coveredBy (combination kept : list string * list string) : bool :=
  TtPersistenceService.everyAt (fst combination) (fst kept)
  && TtPersistenceService.everyAt (snd combination) (snd kept).

(** The lists in which no combination is covered by one before it. *)
Inductive uncovered : list (list string * list string) -> Prop :=
| uncovered_nil : uncovered []
| uncovered_snoc cleaned combination :
    uncovered cleaned ->
    existsb (coveredBy combination) cleaned = false ->
    uncovered (cleaned ++ [combination])%list.

(** The rows can be sorted: no options, or a column that resolves on every
    row. *)
Definition sortable (content : list JsVal) (sortOptions : option RetrieveBySortingOptions)
  : Prop :=
  match sortOptions with
  | None => True
  | Some opts => Forall (resolvesAt (splitDot (column opts) "")) content
  end.

(** A name that an index can have: it starts with a letter, [_] or [$] and
    holds no dash. *)
Definition indexName (name : string) : Prop :=
  startsWithNameChar name = true /\ containsDash name = false.

(* ------------------------------------------------------------------ *)
(** ** The links in the settings *)

(** [convertLinkMapToSettingsLink]: the entries of the map, each with the
    entries of its property map. *)
Definition convertLinkMapToSettingsLink (linkMap : LinkMap) : LinkMap :=
  fold_left (fun linkArray entry => (linkArray ++ [(fst entry, snd entry)])%list)
            linkMap [].

(** [convertSettingsLinksToLinkMap] *)
Definition convertSettingsLinksToLinkMap (settings : PersistenceSettings) : LinkMap :=
  fold_left (fun linkMap entry => mapSet linkMap (fst entry) (newMap (snd entry)))
            (links settings) [].

(** A link map as a [Map] of [Map]s has it: every store once, and every
    property of a store once. *)
Definition distinctLinks (linkMap : LinkMap) : Prop :=
  NoDup (mapKeys linkMap)
  /\ Forall (fun entry : string * StringMap => NoDup (mapKeys (snd entry))) linkMap.

Section OptionsInduction.
Variable P : TtPersistenceOptions -> Prop.
Hypothesis Hoptions : forall sn pk uk lk sc c,
  match lk with
  | Some keys => Forall (fun kv : string * TtPersistenceOptions => P (snd kv)) keys
  | None => True
  end -> P (mkOptions sn pk uk lk sc c).

Fixpoint options_nested_ind (o : TtPersistenceOptions) : P o :=
match o with
| mkOptions sn pk uk lk sc c =>
    Hoptions sn pk uk lk sc c
      (match lk as lk0
             return match lk0 with
                    | Some keys =>
                        Forall (fun kv : string * TtPersistenceOptions => P (snd kv)) keys
                    | None => True
                    end with
       | Some keys =>
           (fix all (l : list (string * TtPersistenceOptions))
              : Forall (fun kv : string * TtPersistenceOptions => P (snd kv)) l :=
              match l with
              | [] => Forall_nil _
              | kv :: rest => Forall_cons kv (options_nested_ind (snd kv)) (all rest)
              end) keys
       | None => I
       end)
end.
End OptionsInduction.

(* ------------------------------------------------------------------ *)
(** ** [TtPersistenceDeleteService]: the link map without a store *)

(** [pruneLinkMap]: the entry of the store is deleted, and in every other
    entry the properties that link to the store. *)
Definition pruneLinkMap (linkMap : LinkMap) (store : string) : LinkMap :=
  let linkMap0 := mapDelete linkMap store in
  fold_left
    (fun (linkMap1 : LinkMap) (entry : string * StringMap) =>
       let stringMap :=
         fold_left
           (fun (stringMap : StringMap) (link : string * string) =>
              if (snd link =? store)%string then mapDelete stringMap (fst link)
              else stringMap)
           (snd entry) (snd entry) in
       mapSet linkMap1 (fst entry) stringMap)
    linkMap0 linkMap0.

(* ================================================================== *)
(** * Properties *)



(* ------------------------------------------------------------------ *)
(** * Facts about the insertion-ordered maps and the records of a store *)

Section MapFacts.
Variable V : Type.
Implicit Types (m : list (string * V)) (k : string).

Lemma mapGet_mapSet_same m k v : mapGet (mapSet m k v) k = Some v.
Proof.
  induction m as [|[k' v'] m IH]; cbn.
  - now rewrite String.eqb_refl.
  - destruct (String.eqb_spec k' k); cbn.
    + now rewrite String.eqb_refl.
    + destruct (String.eqb_spec k' k); [contradiction | exact IH].
Qed.

Lemma mapGet_mapSet_other m k k' v :
  k <> k' -> mapGet (mapSet m k v) k' = mapGet m k'.
Proof.
  intros Hne. induction m as [|[k0 v0] m IH]; cbn.
  - destruct (String.eqb_spec k k'); [contradiction | reflexivity].
  - destruct (String.eqb_spec k0 k); cbn.
    + subst k0. destruct (String.eqb_spec k k'); [contradiction | reflexivity].
    + destruct (String.eqb_spec k0 k'); [reflexivity | exact IH].
Qed.

Lemma mapGet_mapDelete_other m k k' :
  k <> k' -> mapGet (mapDelete m k) k' = mapGet m k'.
Proof.
  intros Hne. induction m as [|[k0 v0] m IH]; cbn; [reflexivity|].
  destruct (String.eqb_spec k0 k); cbn.
  - subst k0. destruct (String.eqb_spec k k'); [contradiction | exact IH].
  - destruct (String.eqb_spec k0 k'); [reflexivity | exact IH].
Qed.

Lemma mapGet_mapDelete_same m k : mapGet (mapDelete m k) k = None.
Proof.
  induction m as [|[k0 v0] m IH]; cbn; [reflexivity|].
  destruct (String.eqb_spec k0 k); cbn; [exact IH|].
  destruct (String.eqb_spec k0 k); [contradiction | exact IH].
Qed.


Lemma mapDelete_comm m k k' :
  mapDelete (mapDelete m k) k' = mapDelete (mapDelete m k') k.
Proof.
  induction m as [|[k0 v0] m IH]; cbn; [reflexivity|].
  destruct (String.eqb_spec k0 k), (String.eqb_spec k0 k'); cbn;
    repeat match goal with
           | |- context [String.eqb ?a ?b] => destruct (String.eqb_spec a b)
           end; try contradiction; now rewrite ?IH.
Qed.


Lemma mapHas_true_iff m k : mapHas m k = true <-> exists v, mapGet m k = Some v.
Proof.
  unfold mapHas. destruct (mapGet m k); split; intros H; eauto; try discriminate.
  destruct H as [? H]; discriminate.
Qed.

Lemma mapKeys_mapSet_in m k v k' :
  In k' (mapKeys (mapSet m k v)) <-> k' = k \/ In k' (mapKeys m).
Proof.
  unfold mapKeys. induction m as [|[k0 v0] m IH]; cbn.
  - intuition.
  - destruct (String.eqb_spec k0 k); cbn.
    + subst. intuition.
    + rewrite IH. intuition.
Qed.

Lemma NoDup_mapKeys_mapSet m k v :
  NoDup (mapKeys m) -> NoDup (mapKeys (mapSet m k v)).
Proof.
  unfold mapKeys. induction m as [|[k0 v0] m IH]; cbn; intros Hnd.
  - constructor; [intros [] | constructor].
  - inversion Hnd as [|? ? Hnotin Hrest]; subst.
    destruct (String.eqb_spec k0 k); cbn.
    + subst. now constructor.
    + constructor; [|now apply IH].
      intros Hin. apply (mapKeys_mapSet_in m k v k0) in Hin.
      destruct Hin as [->|Hin]; [now apply n | now apply Hnotin].
Qed.
End MapFacts.

Lemma keyEqb_eq a b : keyEqb a b = true <-> a = b.
Proof.
  destruct a, b; cbn; split; intros H; try discriminate; try congruence.
  - apply Z.eqb_eq in H. now subst.
  - inversion H. apply Z.eqb_refl.
  - apply String.eqb_eq in H. now subst.
  - inversion H. apply String.eqb_refl.
Qed.

Lemma keyEqb_refl a : keyEqb a a = true.
Proof. now apply keyEqb_eq. Qed.




Lemma rowsDelete_keys_in rows k k' :
  In k' (map fst (rowsDelete rows k)) -> In k' (map fst rows).
Proof.
  induction rows as [|[k0 v0] rows IH]; cbn; [tauto|].
  destruct (keyEqb k0 k); cbn; intuition.
Qed.

Lemma rowsDelete_distinctKeys rows k :
  distinctKeys rows -> distinctKeys (rowsDelete rows k).
Proof.
  unfold distinctKeys. induction rows as [|[k0 v0] rows IH]; cbn; intros Hnd; [constructor|].
  inversion Hnd as [|? ? Hnotin Hrest]; subst.
  destruct (keyEqb k0 k); cbn; [now apply IH|].
  constructor; [|now apply IH].
  intros Hin. apply Hnotin. eapply rowsDelete_keys_in; eauto.
Qed.

(* ------------------------------------------------------------------ *)
(** * The steps of [persist] *)

Lemma updateStorageSettings_frame st q st2 r :
  updateStorageSettings st q = (st2, r) ->
  optionsMap st2 = optionsMap st /\ linkMap st2 = linkMap st
  /\ objectStores st2 = objectStores st /\ settings st2 = settings st
  /\ idbVersion st2 = idbVersion st.
Proof.
  unfold updateStorageSettings.
  destruct (updateStorageLoop st q (storageMap st) []) as [sm r'].
  intros H. inversion H; subst. cbn. repeat split.
Qed.

Lemma initializeDatabase_frame st st3 :
  initializeDatabase st = Emit (Some st3) ->
  optionsMap st3 = optionsMap st /\ linkMap st3 = linkMap st /\ connected st3 = true
  /\ idbVersion st3 = version (settings st3)
  /\ version (settings st3) = version (settings st).
Proof.
  unfold initializeDatabase.
  destruct (storageMap st); [discriminate|].
  destruct (Z.ltb_spec (version (settings st)) 1); [discriminate|].
  destruct (Z.ltb_spec (version (settings st)) (idbVersion st)); [discriminate|].
  destruct (Z.ltb_spec (idbVersion st) (version (settings st))).
  - destruct (handleObjectStoreRemovals _ _ _) as [sm2 stores2].
    intros Heq. inversion Heq; subst. cbn. repeat split.
  - intros Heq. inversion Heq; subst. cbn. repeat split. lia.
Qed.

Lemma insertLinkedItemsInStores_frame V st q o st' :
  insertLinkedItemsInStores V st q = (o, st') ->
  optionsMap st' = optionsMap st /\ linkMap st' = linkMap st
  /\ connected st' = connected st /\ settings st' = settings st
  /\ idbVersion st' = idbVersion st.
Proof.
  unfold insertLinkedItemsInStores. destruct q as [|e q].
  - intros H. inversion H; subst. repeat split.
  - destruct (forallb _ _).
    + destruct (createBatchInsertObservable V st (e :: q) (objectStores st) []) as [o' s'].
      intros H. inversion H; subst. cbn. repeat split.
    + intros H. inversion H; subst. repeat split.
Qed.

(** A [persist] that emitted went through every step. *)
Lemma persist_emit_inv V st content opts res st' :
  persist V st content opts = (Emit res, st') ->
  storeContent opts <> Some false ->
  exists linkedItems st2 indexMap st3 added,
    parseContentForLinking (S (S (depth (JArr (asArray content)))))
      (updatePersistenceSettings st opts) (storeName opts) (JArr (asArray content)) []
    = Ok linkedItems
    /\ updateStorageSettings (updatePersistenceSettings st opts) linkedItems
       = (st2, Ok indexMap)
    /\ initializeDatabase st2 = Emit (Some st3)
    /\ insertLinkedItemsInStores V st3 linkedItems = (Emit added, st').
Proof.
  unfold persist. intros H Hstore.
  destruct (parseContentForLinking _ _ _ _ _) as [linkedItems| |] eqn:Eparse;
    try discriminate.
  destruct (updateStorageSettings _ linkedItems) as [st2 [indexMap| |]] eqn:Estorage;
    try discriminate.
  destruct (initializeDatabase st2) as [[st3|]| | |] eqn:Einit; try discriminate.
  assert (Hins : (let (outcome, st4) := insertLinkedItemsInStores V st3 linkedItems in
                  (match outcome with
                   | Emit _ => Emit (createPersistenceResultsMap linkedItems indexMap
                                       (storeContent opts))
                   | Fail e => Fail e
                   | Silent => Silent
                   | Unfinished => Unfinished
                   end, st4)) = (Emit res, st')).
  { destruct (storeContent opts) as [[|]|]; try exact H. congruence. }
  clear H.
  destruct (insertLinkedItemsInStores V st3 linkedItems) as [[added| | |] st4] eqn:E;
    try discriminate.
  inversion Hins; subst.
  exists linkedItems, st2, indexMap, st3, added. repeat split; assumption.
Qed.

Lemma updatePersistenceSettings_options st opts :
  mapGet (optionsMap (updatePersistenceSettings st opts)) (storeName opts) = Some opts.
Proof.
  unfold updatePersistenceSettings.
  destruct (flattenPersistenceLinkOptions _ _ _) as [om lm]. cbn.
  apply mapGet_mapSet_same.
Qed.

(** The queue of a store without linked properties: its own content. *)
Lemma parseContentForLinking_no_links fuel st store content q :
  mapGet (linkMap st) store = None ->
  parseContentForLinking (S fuel) st store content q
  = (concatenated <- dedupe (option_map primaryKey (mapGet (optionsMap st) store))
                            ((match mapGet q store with Some c => c | None => [] end)
                               ++ asArray content)%list [] ;;
     Ok (mapSet q store concatenated)).
Proof. intros H. cbn. rewrite H. reflexivity. Qed.

Lemma addRelationsToContent_no_links fuel st content :
  addRelationsToContent (S fuel) st content None = Ok content.
Proof. reflexivity. Qed.

(** The write of a single record into a store without linked properties. *)
Lemma createQueueObservable_single V st store rows item k updated rows' :
  mapGet (linkMap st) store = None ->
  keyOf item = Some k ->
  createQueueObservable V st store rows [item] = (Emit updated, rows') ->
  rows' = rowsPut rows k item.
Proof.
  intros Hlink Hkey. unfold createQueueObservable. rewrite Hlink.
  rewrite addRelationsToContent_no_links. cbn [asArray List.length issuePuts].
  rewrite Hkey. cbn.
  destruct (V store rows item); cbn; intros H; inversion H; reflexivity.
Qed.

Lemma createQueueObservable_single_key V st store rows item updated rows' :
  mapGet (linkMap st) store = None ->
  createQueueObservable V st store rows [item] = (Emit updated, rows') ->
  exists k, keyOf item = Some k.
Proof.
  intros Hlink. unfold createQueueObservable. rewrite Hlink.
  rewrite addRelationsToContent_no_links. cbn [asArray List.length issuePuts].
  destruct (keyOf item) as [k|]; [eauto|].
  cbn. intros H; inversion H.
Qed.




(* ------------------------------------------------------------------ *)
(** * Reading back what was persisted (C1) *)

Lemma persist_single_no_links V st fields opts res st' :
  persist V st (JObj fields) opts = (Emit res, st') ->
  storeContent opts <> Some false ->
  mapGet (linkMap (updatePersistenceSettings st opts)) (storeName opts) = None ->
  exists st3 k,
    let item := JObj (mapSet fields idKey
                             (extractUuid (getField fields (primaryKey opts)))) in
    toKey (extractUuid (getField fields (primaryKey opts))) = Some k
    /\ linkMap st' = linkMap (updatePersistenceSettings st opts)
    /\ connected st' = true
    /\ objectStores st'
       = mapSet (objectStores st3) (storeName opts)
                (rowsPut (match mapGet (objectStores st3) (storeName opts) with
                          | Some r => r
                          | None => []
                          end) k item).
Proof.
  intros Hpersist Hstore Hlink.
  destruct (persist_emit_inv _ _ _ _ Hpersist Hstore)
    as (linkedItems & st2 & indexMap & st3 & added & Hparse & Hstorage & Hinit & Hinsert).
  set (st1 := updatePersistenceSettings st opts) in *.
  cbn [asArray] in Hparse.
  rewrite parseContentForLinking_no_links in Hparse by exact Hlink.
  unfold st1 in Hparse at 1. rewrite updatePersistenceSettings_options in Hparse.
  cbn in Hparse. inversion Hparse; subst linkedItems; clear Hparse.
  destruct (updateStorageSettings_frame _ _ Hstorage) as (Ho2 & Hl2 & _).
  destruct (initializeDatabase_frame _ Hinit) as (Ho3 & Hl3 & Hc3 & _).
  destruct (insertLinkedItemsInStores_frame _ _ _ Hinsert) as (Ho4 & Hl4 & Hc4 & _).
  assert (Hopts3 : mapGet (optionsMap st3) (storeName opts) = Some opts).
  { rewrite Ho3, Ho2. apply updatePersistenceSettings_options. }
  assert (Hlink3 : mapGet (linkMap st3) (storeName opts) = None).
  { rewrite Hl3, Hl2. exact Hlink. }
  unfold insertLinkedItemsInStores in Hinsert.
  destruct (forallb _ _); [|discriminate].
  cbn [createBatchInsertObservable] in Hinsert. rewrite Hopts3 in Hinsert.
  cbn [addIdKeyToContent mapR getProp bindR objectAssign] in Hinsert.
  set (item := JObj (mapSet fields idKey
                            (extractUuid (getField fields (primaryKey opts))))) in *.
  set (rows := match mapGet (objectStores st3) (storeName opts) with
               | Some r => r
               | None => []
               end) in *.
  destruct (createQueueObservable V st3 (storeName opts) rows [item])
    as [[updated| | |] rows'] eqn:Equeue; try discriminate.
  destruct (createQueueObservable_single_key _ _ _ _ _ Hlink3 Equeue) as [k Hk].
  pose proof (createQueueObservable_single _ _ _ _ _ Hlink3 Hk Equeue) as Hrows.
  inversion Hinsert; subst st'.
  exists st3, k. cbn. repeat split.
  - unfold item, keyOf in Hk. unfold getField in Hk at 1.
    rewrite mapGet_mapSet_same in Hk. exact Hk.
  - now rewrite Hl3, Hl2.
  - exact Hc3.
  - now rewrite Hrows.
Qed.



(* ------------------------------------------------------------------ *)
(** * Invariants of the queue of linked content *)

Lemma foldR_invariant {A S} (P : S -> Prop) (f : S -> A -> Result S) l :
  (forall s x s', P s -> f s x = Ok s' -> P s') ->
  forall s s', P s -> foldR f l s = Ok s' -> P s'.
Proof.
  intros Hstep. induction l as [|x l IH]; cbn; intros s s' Hs Hfold.
  - inversion Hfold; now subst.
  - destruct (f s x) as [s1| |] eqn:E; cbn in Hfold; try discriminate.
    eapply IH; [|exact Hfold]. eapply Hstep; eauto.
Qed.

Lemma bindR_ok {A B} (r : Result A) (k : A -> Result B) b :
  bindR r k = Ok b -> exists a, r = Ok a /\ k a = Ok b.
Proof. destruct r; cbn; intros H; try discriminate. eauto. Qed.

Section QueueInvariant.
Variable st : Service.
Variable P : QueueMap -> Prop.
(** The invariant survives a store being set to a list that [dedupe] made. *)
Hypothesis P_set : forall q store l c,
    P q ->
    dedupe (option_map primaryKey (mapGet (optionsMap st) store)) l [] = Ok c ->
    P (mapSet q store c).

Lemma extractLinkedContent_invariant rec content linkedToMap :
  (forall store item q q', P q -> rec store item q = Ok q' -> P q') ->
  forall q q', P q ->
    extractLinkedContent rec st content linkedToMap q = Ok q' -> P q'.
Proof.
  intros Hrec. unfold extractLinkedContent. apply foldR_invariant.
  intros q [prop linkStore] q' Hq Hstep.
  apply bindR_ok in Hstep as (has & _ & Hstep).
  destruct has; cbn [negb] in Hstep; [|inversion Hstep; now subst].
  apply bindR_ok in Hstep as (nested & _ & Hstep).
  destruct (typeofObject nested); cbn [negb] in Hstep; [|inversion Hstep; now subst].
  assert (Hparse : forall q item q', P q ->
            (has' <- hasOwnProperty item
                       (match mapGet (optionsMap st) linkStore with
                        | Some o => primaryKey o
                        | None => ""
                        end) ;;
             match mapGet (optionsMap st) linkStore with
             | None => Throw (TypeError "cannot read properties of undefined (reading 'primaryKey')")
             | Some o =>
                 if negb has' then Ok q else
                 pkValue <- getProp item (primaryKey o) ;;
                 if negb (typeofString pkValue) then Ok q
                 else rec (storeName o) item q
             end) = Ok q' -> P q').
  { intros q0 item q0' Hq0 H.
    apply bindR_ok in H as (has' & _ & H).
    destruct (mapGet (optionsMap st) linkStore) as [o|]; [|discriminate].
    destruct has'; cbn [negb] in H; [|inversion H; now subst].
    apply bindR_ok in H as (pkValue & _ & H).
    destruct (typeofString pkValue); cbn [negb] in H; [|inversion H; now subst].
    eapply Hrec; eauto. }
  destruct nested; try (eapply Hparse; eauto; fail).
  revert Hstep. apply foldR_invariant; [|exact Hq].
  intros s x s' Hs Hx. eapply Hparse; eauto.
Qed.

Lemma parseContentForLinking_invariant fuel :
  forall store content q q',
    P q -> parseContentForLinking fuel st store content q = Ok q' -> P q'.
Proof.
  induction fuel as [|fuel IH]; intros store content q q' Hq Hparse; [discriminate|].
  cbn [parseContentForLinking] in Hparse.
  apply bindR_ok in Hparse as (q1 & Hlinks & Hparse).
  apply bindR_ok in Hparse as (concatenated & Hdedupe & Hparse).
  inversion Hparse; subst q'. eapply P_set; [|exact Hdedupe].
  destruct (mapGet (linkMap st) store) as [linkedToMap|].
  - revert Hlinks. apply foldR_invariant; [|exact Hq].
    intros s x s' Hs Hx. eapply extractLinkedContent_invariant; [|exact Hs|exact Hx].
    intros store' item q0 q0' Hq0. apply IH. exact Hq0.
  - inversion Hlinks; now subst.
Qed.
End QueueInvariant.

(** The stores of the queue are pairwise different. *)
Lemma parseContentForLinking_NoDup st fuel store content q q' :
  NoDup (mapKeys q) ->
  parseContentForLinking fuel st store content q = Ok q' ->
  NoDup (mapKeys q').
Proof.
  intros Hq Hparse.
  apply parseContentForLinking_invariant
    with (P := fun q : QueueMap => NoDup (mapKeys q)) (st := st) (fuel := fuel)
         (store := store) (content := content) (q := q); try assumption.
  intros q0 s l c Hq0 _. now apply NoDup_mapKeys_mapSet.
Qed.




Lemma In_mapSet {V} (m : list (string * V)) k v k' v' :
  In (k', v') (mapSet m k v) -> (k' = k /\ v' = v) \/ In (k', v') m.
Proof.
  induction m as [|[k0 v0] m IH]; cbn.
  - intros [H|[]]. inversion H; auto.
  - destruct (k0 =? k)%string; cbn.
    + intros [H|H]; [inversion H; auto | auto].
    + intros [H|H]; [auto | destruct (IH H); auto].
Qed.


(* ------------------------------------------------------------------ *)
(** * The rows of the store that was persisted (C2) *)

Lemma In_mapSet_same {V} (m : list (string * V)) k v : In (k, v) (mapSet m k v).
Proof.
  induction m as [|[k0 v0] m IH]; cbn; [auto|].
  destruct (k0 =? k)%string; cbn; auto.
Qed.

Lemma In_mapKeys {V} (m : list (string * V)) k v : In (k, v) m -> In k (mapKeys m).
Proof. intros H. unfold mapKeys. change k with (fst (k, v)). now apply in_map. Qed.

Lemma mapGet_In_keys {V} (m : list (string * V)) k :
  In k (mapKeys m) -> exists v, mapGet m k = Some v.
Proof.
  unfold mapKeys. induction m as [|[k0 v0] m IH]; cbn; [intros []|].
  destruct (String.eqb_spec k0 k); [eauto|].
  intros [H|H]; [contradiction | auto].
Qed.

Lemma mapGet_None_not_In {V} (m : list (string * V)) k :
  ~ In k (mapKeys m) -> mapGet m k = None.
Proof.
  unfold mapKeys. induction m as [|[k0 v0] m IH]; cbn; [reflexivity|].
  intros H. destruct (String.eqb_spec k0 k); [exfalso; auto | auto].
Qed.

(** The queue of [persist] for a single entity: the store of the options
    holds the entity alone, and no store is queued twice. *)
Lemma parseContentForLinking_top st fuel store e q :
  parseContentForLinking fuel st store (JArr [e]) [] = Ok q ->
  exists q1, q = mapSet q1 store [e] /\ NoDup (mapKeys q).
Proof.
  intros Hparse.
  assert (Hnd : NoDup (mapKeys q)).
  { eapply parseContentForLinking_NoDup; [|exact Hparse]. constructor. }
  destruct fuel as [|fuel]; [discriminate|].
  cbn [parseContentForLinking asArray mapGet app] in Hparse.
  apply bindR_ok in Hparse as (q1 & _ & Hparse).
  apply bindR_ok in Hparse as (concatenated & Hdedupe & Hparse).
  inversion Hparse; subst q. exists q1. split; [|exact Hnd].
  cbn in Hdedupe. destruct (option_map primaryKey _); [|discriminate].
  apply bindR_ok in Hdedupe as (checkId & _ & Hdedupe). cbn in Hdedupe.
  inversion Hdedupe. reflexivity.
Qed.

Lemma createBatchInsertObservable_other V st entries :
  forall stores added o stores' store,
    createBatchInsertObservable V st entries stores added = (o, stores') ->
    ~ In store (mapKeys entries) ->
    mapGet stores' store = mapGet stores store.
Proof.
  induction entries as [|[s content] entries IH]; cbn [createBatchInsertObservable];
    intros stores added o stores' store Hbatch Hnotin.
  - inversion Hbatch; now subst.
  - cbn in Hnotin.
    destruct (mapGet (optionsMap st) s) as [opts|]; [|inversion Hbatch; now subst].
    destruct (addIdKeyToContent content (primaryKey opts)) as [items| |];
      try (inversion Hbatch; now subst).
    destruct (createQueueObservable V st s _ items) as [[u| | |] rows'];
      try (inversion Hbatch; subst; apply mapGet_mapSet_other; tauto).
    rewrite (IH _ _ _ _ store Hbatch) by tauto.
    apply mapGet_mapSet_other. tauto.
Qed.

Lemma createBatchInsertObservable_entry V st entries :
  forall stores added a stores' store content,
    NoDup (mapKeys entries) ->
    createBatchInsertObservable V st entries stores added = (Emit a, stores') ->
    In (store, content) entries ->
    exists opts items u rows',
      mapGet (optionsMap st) store = Some opts
      /\ addIdKeyToContent content (primaryKey opts) = Ok items
      /\ createQueueObservable V st store
           (match mapGet stores store with Some r => r | None => [] end) items
         = (Emit u, rows')
      /\ mapGet stores' store = Some rows'.
Proof.
  induction entries as [|[s c] entries IH]; cbn [createBatchInsertObservable];
    intros stores added a stores' store content Hnd Hbatch Hin; [destruct Hin|].
  cbn in Hnd. inversion Hnd as [|? ? Hnotin Hnd']; subst.
  destruct (mapGet (optionsMap st) s) as [opts|] eqn:Eopts; [|discriminate].
  destruct (addIdKeyToContent c (primaryKey opts)) as [items| |] eqn:Eitems;
    try discriminate.
  destruct (createQueueObservable V st s _ items) as [[u| | |] rows'] eqn:Equeue;
    try discriminate.
  destruct Hin as [Hhead|Htail].
  - inversion Hhead; subst s c. exists opts, items, u, rows'. repeat split; try assumption.
    rewrite (@createBatchInsertObservable_other V st entries _ _ _ _ store Hbatch Hnotin).
    apply mapGet_mapSet_same.
  - assert (Hne : s <> store).
    { intros ->. apply Hnotin. eapply In_mapKeys; eauto. }
    destruct (IH _ _ _ _ _ _ Hnd' Hbatch Htail) as (o & it & u' & r' & Ho & Hit & Hq & Hr).
    rewrite mapGet_mapSet_other in Hq by exact Hne.
    exists o, it, u', r'. repeat split; assumption.
Qed.

Lemma mapR_single {A B} (f : A -> Result B) x ys :
  mapR f [x] = Ok ys -> exists y, ys = [y] /\ f x = Ok y.
Proof.
  cbn. intros H. apply bindR_ok in H as (y & Hy & H). cbn in H.
  inversion H. eauto.
Qed.

Lemma addRelationsToContent_single fuel st item links v :
  addRelationsToContent fuel st (JArr [item]) links = Ok v ->
  exists x, asArray v = [x].
Proof.
  destruct fuel as [|fuel]; [discriminate|]. cbn [addRelationsToContent].
  destruct links as [[|l links]|].
  - intros H; inversion H; subst. cbn. eauto.
  - intros H. apply bindR_ok in H as (mapped & Hmapped & H).
    cbn [asArray] in Hmapped. apply mapR_single in Hmapped as (y & -> & _).
    cbn in H. inversion H; subst. cbn. eauto.
  - intros H; inversion H; subst. cbn. eauto.
Qed.

(** One record written into an empty store leaves exactly one row. *)
Lemma createQueueObservable_one_row V st store item u rows' :
  createQueueObservable V st store [] [item] = (Emit u, rows') ->
  exists k row, rows' = [(k, row)].
Proof.
  unfold createQueueObservable.
  destruct (addRelationsToContent _ st (JArr [item]) _) as [v| |] eqn:Erel;
    try discriminate.
  destruct (addRelationsToContent_single _ _ _ _ Erel) as [x ->].
  cbn [List.length issuePuts].
  destruct (keyOf x) as [k|]; [|cbn; discriminate].
  cbn. destruct (V store [] x); cbn; [discriminate|].
  intros H; inversion H. eauto.
Qed.

Lemma updateStorageLoop_keys st entries :
  forall sm sim sm' r store,
    updateStorageLoop st entries sm sim = (sm', Ok r) ->
    In store (mapKeys entries) \/ In store (mapKeys sm) ->
    In store (mapKeys sm').
Proof.
  induction entries as [|[s c] entries IH]; cbn [updateStorageLoop];
    intros sm sim sm' r store Hloop Hin.
  - inversion Hloop; subst. destruct Hin as [[]|Hin]; exact Hin.
  - destruct (createKeyMap st c _) as [keyMap| |]; try discriminate.
    eapply IH; [exact Hloop|].
    destruct Hin as [[<-|Hin]|Hin].
    + right. apply mapKeys_mapSet_in. now left.
    + now left.
    + right. apply mapKeys_mapSet_in. now right.
Qed.

Lemma handleObjectStoreUpdates_recreated updates sm stores store :
  In store updates -> In store (mapKeys sm) ->
  mapGet (handleObjectStoreUpdates updates sm stores) store = Some [].
Proof.
  intros Hupd Hsm. unfold handleObjectStoreUpdates.
  destruct updates as [|u0 updates']; [destruct Hupd|].
  set (updates := u0 :: updates') in *.
  assert (Hex : existsb (String.eqb store) updates = true).
  { apply existsb_exists. exists store. split; [exact Hupd | apply String.eqb_refl]. }
  assert (Hgen : forall stores : list (string * Rows),
             (mapGet stores store = Some [] \/ In store (mapKeys sm)) ->
             mapGet
               (fold_left
                  (fun (stores : list (string * Rows)) (entry : string * KeyMap) =>
                     let store := fst entry in
                     let exists_ := mapHas stores store in
                     let update := existsb (String.eqb store) updates in
                     if exists_ && negb update then stores
                     else mapSet (if exists_ then mapDelete stores store else stores) store [])
                  sm stores) store = Some []).
  { clear Hsm. induction sm as [|[s indices] sm IH]; cbn [fold_left fst]; intros stores0 H.
    - destruct H as [H|[]]. exact H.
    - apply IH. destruct (String.eqb_spec s store) as [->|Hne].
      + left. rewrite Hex. cbn [negb]. rewrite andb_false_r.
        apply mapGet_mapSet_same.
      + destruct H as [H|[H|H]]; [left | contradiction | now right].
        destruct (mapHas stores0 s && negb (existsb (String.eqb s) updates));
          [exact H|].
        rewrite mapGet_mapSet_other by exact Hne.
        destruct (mapHas stores0 s); [|exact H].
        now rewrite mapGet_mapDelete_other. }
  apply Hgen. now right.
Qed.

Lemma handleObjectStoreRemovals_kept removals :
  forall sm stores store rows,
    mapGet (snd (handleObjectStoreRemovals removals sm stores)) store = Some rows ->
    mapGet stores store = Some rows.
Proof.
  unfold handleObjectStoreRemovals.
  induction removals as [|s removals IH]; cbn [fold_left]; intros sm stores store rows H.
  - exact H.
  - cbn [fst snd] in H. destruct (mapHas stores s).
    + apply IH in H. destruct (String.eqb_spec s store) as [->|Hne].
      * now rewrite mapGet_mapDelete_same in H.
      * now rewrite mapGet_mapDelete_other in H.
    + now apply IH in H.
Qed.

Lemma addToSet_In l x : In x (addToSet l x).
Proof.
  unfold addToSet. destruct (existsb (String.eqb x) l) eqn:E.
  - apply existsb_exists in E as (y & Hy & Heq). apply String.eqb_eq in Heq. now subst.
  - apply in_or_app. right. now left.
Qed.

Lemma updatePersistenceSettings_update st opts :
  In (storeName opts) (mutationsUpdate (settings (updatePersistenceSettings st opts)))
  /\ version (settings (updatePersistenceSettings st opts)) = version (settings st) + 1
  /\ idbVersion (updatePersistenceSettings st opts) = idbVersion st
  /\ storageMap (updatePersistenceSettings st opts) = storageMap st.
Proof.
  unfold updatePersistenceSettings.
  destruct (flattenPersistenceLinkOptions _ _ _) as [om lm]. cbn.
  repeat split. apply addToSet_In.
Qed.


(** A single entity persisted from a state whose database is not ahead of
    the settings: its store is created again and holds exactly one row. *)
Lemma persist_single_row V st e opts res st' :
  persist V st e opts = (Emit res, st') ->
  isArray e = false ->
  storeContent opts <> Some false ->
  idbVersion st <= version (settings st) ->
  exists k row, mapGet (objectStores st') (storeName opts) = Some [(k, row)].
Proof.
  intros Hpersist Harr Hstore Hversion.
  destruct (persist_emit_inv _ _ _ _ Hpersist Hstore)
    as (q & st2 & indexMap & st3 & added & Hparse & Hstorage & Hinit & Hinsert).
  assert (Has : asArray e = [e]) by (destruct e; cbn in *; congruence).
  rewrite Has in Hparse.
  destruct (parseContentForLinking_top _ _ _ _ Hparse) as (q1 & Hq & Hnd).
  assert (Hin : In (storeName opts, [e]) q) by (subst q; apply In_mapSet_same).
  set (st1 := updatePersistenceSettings st opts) in *.
  destruct (updatePersistenceSettings_update st opts) as (Hupd & Hv1 & Hi1 & Hsm1).
  fold st1 in Hupd, Hv1, Hi1, Hsm1.
  destruct (updateStorageSettings_frame _ _ Hstorage) as (_ & _ & Hstores2 & Hset2 & Hi2).
  (* the store is in the storage map *)
  assert (Hsm2 : In (storeName opts) (mapKeys (storageMap st2))).
  { unfold updateStorageSettings in Hstorage.
    destruct (updateStorageLoop st1 q (storageMap st1) []) as [sm r] eqn:Eloop.
    inversion Hstorage; subst st2 r. cbn.
    eapply updateStorageLoop_keys; [exact Eloop|]. left. eapply In_mapKeys; eauto. }
  (* the upgrade creates it again, empty *)
  assert (Hempty : forall rows, mapGet (objectStores st3) (storeName opts) = Some rows ->
                                rows = []).
  { unfold initializeDatabase in Hinit.
    destruct (storageMap st2) eqn:Esm; [destruct Hsm2|]. rewrite <- Esm in *.
    rewrite Hset2, Hi2, Hi1, Hv1 in Hinit.
    destruct (Z.ltb_spec (version (settings st) + 1) 1); [discriminate|].
    destruct (Z.ltb_spec (version (settings st) + 1) (idbVersion st)); [discriminate|].
    destruct (Z.ltb_spec (idbVersion st) (version (settings st) + 1)); [|lia].
    destruct (handleObjectStoreRemovals _ _ _) as [sm2 stores2] eqn:Eremove.
    inversion Hinit; subst st3. cbn. intros rows Hrows.
    change stores2 with (snd (sm2, stores2)) in Hrows. rewrite <- Eremove in Hrows.
    apply handleObjectStoreRemovals_kept in Hrows.
    rewrite handleObjectStoreUpdates_recreated in Hrows by assumption.
    congruence. }
  (* the queue writes the entity into it *)
  unfold insertLinkedItemsInStores in Hinsert.
  destruct q as [|entry q']; [destruct Hin|].
  destruct (forallb _ _) eqn:Eall; [|discriminate].
  destruct (createBatchInsertObservable V st3 (entry :: q') (objectStores st3) [])
    as [outcome stores'] eqn:Ebatch.
  inversion Hinsert; subst outcome st'. cbn [objectStores withStores].
  destruct (@createBatchInsertObservable_entry V st3 (entry :: q') _ _ _ _ _ _
              Hnd Ebatch Hin)
    as (o & items & u & rows' & Ho & Hitems & Hqueue & Hrows').
  rewrite Hrows'.
  unfold addIdKeyToContent in Hitems. apply mapR_single in Hitems as (item & -> & _).
  assert (Hstart : match mapGet (objectStores st3) (storeName opts) with
                   | Some r => r
                   | None => []
                   end = []).
  { destruct (mapGet (objectStores st3) (storeName opts)) eqn:E; [|reflexivity].
    now apply Hempty. }
  rewrite Hstart in Hqueue.
  destruct (createQueueObservable_one_row _ _ _ _ Hqueue) as (k & row & ->).
  eauto.
Qed.

(* ------------------------------------------------------------------ *)
(** * One row per key in every store (C2) *)












Lemma updatePersistenceSettings_stores st opts :
  objectStores (updatePersistenceSettings st opts) = objectStores st.
Proof.
  unfold updatePersistenceSettings.
  now destruct (flattenPersistenceLinkOptions _ _ _).
Qed.



(* ------------------------------------------------------------------ *)
(** * The scenario of the specification (C3) *)

(** C3 (counterexample). In the scenario the identity of the location is
    not ["1"]: the store has no row under that key. *)
Lemma scenario_location_key_is_not_1 :
  ~ (exists row,
       mapGet (objectStores Scenario.afterPerson) "Location" = Some [(KStr "1", row)]).
Proof. intros [row H]. vm_compute in H. discriminate H. Qed.

(** C3 (amended). After the two [persist] calls of the scenario the store
    Location has exactly one row, whose [__pkey__] is the whole
    ["/api/locations/1"] (the value holds no UUID); the store Person has one
    row, whose [location] is the location tagged with that [__pkey__] and
    with [__store__] "Location"; and read back, the person has the plain
    location. *)
Theorem scenario_location_person :
  mapGet (objectStores Scenario.afterPerson) "Location"
  = Some [(KStr "/api/locations/1",
           JObj [("@id", JStr "/api/locations/1"); ("name", JStr "Test");
                 ("__pkey__", JStr "/api/locations/1")])]
  /\ (exists person,
        mapGet (objectStores Scenario.afterPerson) "Person" = Some [(KStr "p1", person)]
        /\ (exists location,
              getProp person "location" = Ok location
              /\ jsEquiv location
                   (JObj [("__pkey__", JStr "/api/locations/1");
                          ("__store__", JStr "Location");
                          ("@id", JStr "/api/locations/1");
                          ("name", JStr "Test")]) = true
              /\ removeGeneratedIdKeyFromContent location
                 = JObj [("@id", JStr "/api/locations/1"); ("name", JStr "Test")]))
  /\ get 2 Scenario.afterPerson "Person" (JStr "p1")
     = Emit (JObj [("id", JStr "p1");
                   ("location",
                    JObj [("@id", JStr "/api/locations/1"); ("name", JStr "Test")])]).
Proof.
  split; [vm_compute; reflexivity|]. split; [|vm_compute; reflexivity].
  eexists. split; [vm_compute; reflexivity|].
  eexists. split; [vm_compute; reflexivity|].
  split; vm_compute; reflexivity.
Qed.

(* ------------------------------------------------------------------ *)
(** * Reading back: the witness and the counterexample of C1 *)



(* ------------------------------------------------------------------ *)
(** * Deleting rows with parents (C4) *)

(** What [handleCascade] does to the property of an object. *)
Lemma handleCascade_object fields prop :
  handleCascade (JObj fields) prop DELETE = Ok (JObj (mapDelete fields prop))
  /\ handleCascade (JObj fields) prop NULL = Ok (JObj (mapSet fields prop JNull))
  /\ handleCascade (JObj fields) prop UNDEFINED = Ok (JObj (mapSet fields prop JUndefined))
  /\ handleCascade (JObj fields) prop KEEP = Ok (JObj fields).
Proof. repeat split. Qed.

(** C4. The scenario of the specification with the cascade [DELETE] on
    Person: deleting the location fails with a [TypeError], because the only
    parent link has no path, and the row of the person still holds its
    [location].  With a third level above, the links do get their paths;
    there the cascade [NULL] sets the property to [null], and the row that
    is written again holds [undefined]. *)
Theorem delete_cascade_diverges :
  (let (outcome, st') :=
     deleteRows Scenario.acceptAll (Scenario.afterPersonWith (Some DELETE))
                "Location" (JStr "/api/locations/1") in
   outcome = Fail (TypeError "cannot read properties of undefined (reading 'join')")
   /\ mapGet (objectStores st') "Location" = Some []
   /\ exists person,
        mapGet (objectStores st') "Person" = Some [(KStr "p1", person)]
        /\ hasOwnProperty person "location" = Ok true)
  /\ (let (outcome, st') :=
        deleteRows Scenario.acceptAll (Scenario.afterCompanyWith (Some NULL))
                   "Location" (JStr "/api/locations/1") in
      (exists results, outcome = Emit results)
      /\ mapGet (objectStores st') "Person"
         = Some [(KStr "p1",
                  JObj [("id", JStr "p1"); ("location", JUndefined);
                        ("__pkey__", JStr "p1")])]).
Proof.
  split.
  - vm_compute. split; [reflexivity|]. split; [reflexivity|].
    eexists. split; reflexivity.
  - vm_compute. split; [eexists; reflexivity | reflexivity].
Qed.

(** With three levels the cascades [DELETE], [UNDEFINED] and [KEEP] do what
    their names say to the rows of the nearest parent. *)
Lemma delete_cascade_three_levels :
  mapGet (objectStores (snd (deleteRows Scenario.acceptAll
                                        (Scenario.afterCompanyWith (Some DELETE))
                                        "Location" (JStr "/api/locations/1"))))
         "Person"
  = Some [(KStr "p1", JObj [("id", JStr "p1"); ("__pkey__", JStr "p1")])]
  /\ mapGet (objectStores (snd (deleteRows Scenario.acceptAll
                                           (Scenario.afterCompanyWith (Some UNDEFINED))
                                           "Location" (JStr "/api/locations/1"))))
            "Person"
     = Some [(KStr "p1", JObj [("id", JStr "p1"); ("location", JUndefined);
                               ("__pkey__", JStr "p1")])]
  /\ mapGet (objectStores (snd (deleteRows Scenario.acceptAll
                                           (Scenario.afterCompanyWith (Some KEEP))
                                           "Location" (JStr "/api/locations/1"))))
            "Person"
     = mapGet (objectStores (Scenario.afterCompanyWith (Some KEEP))) "Person".
Proof. repeat split; vm_compute; reflexivity. Qed.

(* ------------------------------------------------------------------ *)
(** * A write that the engine rejects (C5) *)

Lemma issuePuts_no_add_error store total parsed :
  forall index updated requests updated' signal s m,
    issuePuts store total parsed index [] updated = (requests, updated', signal) ->
    signal <> Signalled (IndexedDBAddError s m).
Proof.
  induction parsed as [|item parsed IH]; cbn [issuePuts];
    intros index updated requests updated' signal s m H.
  - inversion H; subst. discriminate.
  - destruct (keyOf item) as [k|]; [|inversion H; subst; discriminate].
    destruct (S index =? total)%nat.
    + destruct (issuePuts store total parsed (S index) [] (rowsPut updated k item))
        as [[rq up] sg] eqn:E.
      inversion H; subst. eapply IH; eauto.
    + destruct (issuePuts store total parsed (S index) [] (rowsPut updated k item))
        as [[rq up] sg] eqn:E.
      inversion H; subst. eapply IH; eauto.
Qed.

Lemma bindR_throw {A B} (r : Result A) (k : A -> Result B) e :
  bindR r k = Throw e -> r = Throw e \/ exists a, r = Ok a /\ k a = Throw e.
Proof.
  destruct r as [a|e'|]; cbn; intros H; try discriminate.
  - right. exists a. split; [reflexivity | exact H].
  - left. inversion H. reflexivity.
Qed.

Lemma mapR_throw {A B} (Q : JsError -> Prop) (f : A -> Result B) l e :
  (forall x e, f x = Throw e -> Q e) -> mapR f l = Throw e -> Q e.
Proof.
  intros Hf. induction l as [|x l IH]; cbn; [discriminate|].
  intros H. apply bindR_throw in H as [H|(y & _ & H)]; [eauto|].
  apply bindR_throw in H as [H|(ys & _ & H)]; [auto | discriminate].
Qed.

Lemma foldR_throw {A S} (Q : JsError -> Prop) (f : S -> A -> Result S) l :
  (forall s x e, f s x = Throw e -> Q e) ->
  forall s e, foldR f l s = Throw e -> Q e.
Proof.
  intros Hf. induction l as [|x l IH]; cbn; [discriminate|].
  intros s e H. apply bindR_throw in H as [H|(s' & _ & H)]; eauto.
Qed.

Lemma getProp_throw v k e : getProp v k = Throw e -> isTypeError e.
Proof.
  destruct v; cbn; try discriminate;
    try (intros H; inversion H; eexists; reflexivity).
  - destruct (k =? "length")%string; [discriminate|].
    destruct (findIndexKey k _); discriminate.
  - destruct (k =? "length")%string; [discriminate|].
    destruct (findIndexKey k _); discriminate.
Qed.

Lemma addRelationsToContent_throw fuel :
  forall st content links e,
    addRelationsToContent fuel st content links = Throw e -> isTypeError e.
Proof.
  induction fuel as [|fuel IH]; intros st content links e; [discriminate|].
  cbn [addRelationsToContent].
  destruct links as [[|l links]|]; try discriminate.
  intros H. apply bindR_throw in H as [H|(mapped & _ & H)]; [|discriminate].
  revert H. apply mapR_throw. intros cloneMe e0 H.
  apply bindR_throw in H as [H|(fields & _ & H)]; [|discriminate].
  revert H. apply foldR_throw. intros item [prop linkStore] e1 H.
  destruct (mapGet (optionsMap st) linkStore) as [o|]; [|discriminate].
  destruct (negb (mapHas item prop) || negb (typeofObject (getField item prop)));
    [discriminate|].
  apply bindR_throw in H as [H|(linksAdded & _ & H)]; [|discriminate].
  revert H. apply mapR_throw. intros dupeMe e2 H.
  apply bindR_throw in H as [H|(inner & _ & H)]; [eapply IH; eauto|].
  apply bindR_throw in H as [H|(idSource & _ & H)]; [|discriminate].
  eapply getProp_throw; eauto.
Qed.

Lemma addRelationsToContent_no_add_error fuel st content links s m :
  addRelationsToContent fuel st content links <> Throw (IndexedDBAddError s m).
Proof.
  intros H. apply addRelationsToContent_throw in H as [what H]. discriminate H.
Qed.

(** The error that aggregates the messages of the rows is never what the
    subscriber of [createQueueObservable] sees. *)
Lemma createQueueObservable_never_add_error V st store rows content s m :
  fst (createQueueObservable V st store rows content) <> Fail (IndexedDBAddError s m).
Proof.
  unfold createQueueObservable.
  destruct (addRelationsToContent _ st (JArr content) _) as [v|e|] eqn:Erel; cbn.
  - destruct (issuePuts store _ (asArray v) 0 [] []) as [[requests updated] signal] eqn:Eput.
    destruct (runRequests V store requests rows [] updated None)
      as [[[rows1 errors1] updated1] emitted1].
    cbn. destruct signal as [|e].
    + destruct emitted1; discriminate.
    + intros H. inversion H; subst.
      eapply issuePuts_no_add_error; eauto.
  - intros H. inversion H; subst.
    eapply addRelationsToContent_no_add_error; eauto.
  - discriminate.
Qed.


(* ------------------------------------------------------------------ *)
(** * The fault of a missing primary key (C6) *)

(** C6 (counterexample). [persist] of an entity whose primary key is the
    empty string reports success, and of an entity without the primary key
    it fails with the [DataError] of the engine: neither raises the fault
    that names the store and the key. *)
Lemma persist_raises_no_primary_key_fault :
  (exists results,
     fst (persist Scenario.acceptAll Scenario.emptyService
                  (JObj [("id", JStr ""); ("name", JStr "x")]) Scenario.namedOptions)
     = Emit results)
  /\ fst (persist Scenario.acceptAll Scenario.emptyService
                  (JObj [("name", JStr "x")]) Scenario.namedOptions)
     = Fail (DOMException "DataError").
Proof. split; [eexists|]; vm_compute; reflexivity. Qed.

(** The content of an item of [post] after the generated record is merged
    into it. *)
Lemma createItemWithIdKeyValue_falsy store pk item generated :
  truthy (extractUuid
            (getField (fold_left (fun fields kv => mapSet fields (fst kv) (snd kv))
                                 generated (objectAssign item)) pk)) = false ->
  createItemWithIdKeyValue store pk item generated
  = Throw (NoPrimaryKeyInObjectError store pk).
Proof.
  intros H. unfold createItemWithIdKeyValue, getPrimaryKeyValue.
  cbn [getProp bindR]. now rewrite H.
Qed.

Lemma createItemWithIdKeyValue_throws store pk item generated e :
  createItemWithIdKeyValue store pk item generated = Throw e ->
  e = NoPrimaryKeyInObjectError store pk.
Proof.
  unfold createItemWithIdKeyValue, getPrimaryKeyValue. cbn [getProp bindR].
  destruct (truthy _); cbn; intros H; inversion H; reflexivity.
Qed.

Lemma createItemWithIdKeyValue_fuel store pk item generated :
  createItemWithIdKeyValue store pk item generated <> OutOfFuel.
Proof.
  unfold createItemWithIdKeyValue, getPrimaryKeyValue. cbn [getProp bindR].
  destruct (truthy _); cbn; discriminate.
Qed.

(** C6 (amended). [post] into a store with options, for content with an
    item whose primary key property (after the generated record is merged
    in) is missing, [null] or the empty string, fails with the fault that
    names the store and the primary key property. *)
Theorem post_missing_primary_key_fault st store opts content generated item :
  connected st = true ->
  mapGet (optionsMap st) store = Some opts ->
  In item (asArray content) ->
  (let idSource :=
     getField (fold_left (fun fields kv => mapSet fields (fst kv) (snd kv))
                         generated (objectAssign item)) (primaryKey opts) in
   idSource = JUndefined \/ idSource = JNull \/ idSource = JStr "") ->
  postExtendedContent st store content generated
  = Fail (NoPrimaryKeyInObjectError store (primaryKey opts)).
Proof.
  intros Hconnected Hopts Hin Hid.
  unfold postExtendedContent. rewrite Hconnected, Hopts. cbn [negb].
  assert (Hfalsy : createItemWithIdKeyValue store (primaryKey opts) item generated
                   = Throw (NoPrimaryKeyInObjectError store (primaryKey opts))).
  { apply createItemWithIdKeyValue_falsy.
    destruct Hid as [->|[->| ->]]; reflexivity. }
  induction (asArray content) as [|x items IH]; [destruct Hin|].
  cbn [mapR].
  destruct (createItemWithIdKeyValue store (primaryKey opts) x generated)
    as [y|e|] eqn:Ex.
  - destruct Hin as [->|Hin]; [congruence|].
    specialize (IH Hin). cbn [bindR].
    destruct (mapR _ items) as [ys|e|]; cbn in *; congruence.
  - cbn. now rewrite (createItemWithIdKeyValue_throws _ _ _ _ Ex).
  - exfalso. eapply createItemWithIdKeyValue_fuel; eauto.
Qed.

Lemma post_missing_primary_key_fault_witness :
  postExtendedContent Scenario.afterLocation "Location"
                      (JArr [Scenario.locationContent; JObj [("name", JStr "Nowhere")]]) []
  = Fail (NoPrimaryKeyInObjectError "Location" "@id").
Proof.
  apply (@post_missing_primary_key_fault
           Scenario.afterLocation "Location" Scenario.locationOptions
           (JArr [Scenario.locationContent; JObj [("name", JStr "Nowhere")]]) []
           (JObj [("name", JStr "Nowhere")])).
  - vm_compute; reflexivity.
  - vm_compute; reflexivity.
  - right. left. reflexivity.
  - left. reflexivity.
Defined.

(* ------------------------------------------------------------------ *)
(** * Clearing a store that does not exist (C10) *)

Lemma clear_missing_store st store :
  connected st = true ->
  mapGet (objectStores st) store = None ->
  clear st store = ([Next true; Error (DOMException "NotFoundError")], st).
Proof.
  intros Hconnected Hmissing. unfold clear, mapHas.
  rewrite Hconnected, Hmissing. reflexivity.
Qed.

(** C10. [clear] of a store that the database does not have emits [true]
    and then fails: the subscribe function goes on after the [next] and the
    transaction on the missing store throws. *)
Theorem clear_missing_store_emits_then_fails :
  fst (clear Scenario.afterPerson "Ghost")
  = [Next true; Error (DOMException "NotFoundError")].
Proof. vm_compute. reflexivity. Qed.

(* ------------------------------------------------------------------ *)
(** * Sorting (C8) *)

Section InsertionSort.
Variable T : Type.
Variable cmp : T -> T -> Result Z.
Variable R : T -> T -> Prop.
Variable ok : T -> Prop.
(** On the items in question the comparator returns, and what it returns
    agrees with the order [R]. *)
Hypothesis cmp_total : forall x y, ok x -> ok y ->
    exists c, cmp x y = Ok c /\ (c < 0 -> R x y) /\ (0 <= c -> R y x).

Lemma insertSorted_sorted x : ok x ->
  forall sorted, Forall ok sorted -> Sorted R sorted ->
    exists placed, insertSorted cmp x sorted = Ok placed
                   /\ Permutation (x :: sorted) placed
                   /\ Forall ok placed /\ Sorted R placed
                   /\ (forall z, HdRel R z sorted -> R z x -> HdRel R z placed).
Proof.
  intros Hx. induction sorted as [|y sorted IH]; intros Hok Hsorted.
  - exists [x]. cbn. split; [reflexivity|]. split; [reflexivity|].
    split; [now constructor|]. split; [now constructor|].
    intros z _ Hz. now constructor.
  - inversion Hok as [|? ? Hy Hok']; subst.
    inversion Hsorted as [|? ? Hsorted' Hhd]; subst.
    destruct (cmp_total Hx Hy) as (c & Hc & Hneg & Hpos).
    cbn [insertSorted]. rewrite Hc. cbn [bindR].
    destruct (Z.ltb_spec c 0).
    + exists (x :: y :: sorted). split; [reflexivity|]. split; [reflexivity|].
      split; [now constructor|]. split.
      * constructor; [exact Hsorted|]. constructor. auto.
      * intros z _ Hz. now constructor.
    + destruct (IH Hok' Hsorted') as (placed & Hplaced & Hperm & Hokp & Hsp & Hhdp).
      rewrite Hplaced. cbn [bindR]. exists (y :: placed).
      split; [reflexivity|]. split; [|split; [|split]].
      * rewrite perm_swap. now constructor.
      * now constructor.
      * constructor; [exact Hsp|]. apply Hhdp; auto.
      * intros z Hz _. inversion Hz; subst. now constructor.
Qed.

Lemma jsSort_sorted l : Forall ok l ->
  exists sorted, jsSort cmp l = Ok sorted /\ Permutation l sorted /\ Sorted R sorted.
Proof.
  unfold jsSort. intros Hl.
  assert (Hgen : forall acc, Forall ok acc -> Sorted R acc ->
            exists sorted,
              foldR (fun sorted x => insertSorted cmp x sorted) l acc = Ok sorted
              /\ Permutation (l ++ acc) sorted /\ Sorted R sorted).
  { induction Hl as [|x l Hx Hl IH]; intros acc Hacc Hsorted.
    - exists acc. cbn. split; [reflexivity|]. split; [reflexivity | exact Hsorted].
    - destruct (insertSorted_sorted Hx Hacc Hsorted)
        as (placed & Hplaced & Hperm & Hokp & Hsp & _).
      cbn [foldR]. rewrite Hplaced. cbn [bindR].
      destruct (IH placed Hokp Hsp) as (sorted & Hfold & Hperm' & Hs).
      exists sorted. split; [exact Hfold|]. split; [|exact Hs].
      rewrite <- Hperm', <- Hperm. cbn. apply Permutation_middle. }
  destruct (Hgen [] (Forall_nil _) (Sorted_nil _)) as (sorted & Hfold & Hperm & Hs).
  exists sorted. rewrite app_nil_r in Hperm. auto.
Qed.
End InsertionSort.


(** An item without the first property of the path is its own comparison
    value. *)
Lemma getComparisonValue_fallback item p rest :
  hasOwnProperty item p = Ok false -> getComparisonValue item (p :: rest) = Ok item.
Proof. intros H. cbn [getComparisonValue]. rewrite H. reflexivity. Qed.




(* ------------------------------------------------------------------ *)
(** * Pagination (C7) *)

Lemma slice_page_spec T (content : list T) (start P : Z) :
  0 <= start -> 0 <= P ->
  slice content start (start + P)
  = firstn (Z.to_nat P) (skipn (Z.to_nat start) content).
Proof.
  intros Hs HP. unfold slice.
  destruct (Z.ltb_spec start 0); [lia|].
  destruct (Z.ltb_spec (start + P) 0); [lia|].
  set (len := Z.of_nat (List.length content)).
  destruct (Z.le_gt_cases len start) as [Hge|Hlt].
  - rewrite Z.min_r by lia.
    rewrite (skipn_all2 content) by (unfold len in *; lia).
    rewrite (skipn_all2 content) by (unfold len in *; lia).
    now rewrite !firstn_nil.
  - rewrite (Z.min_l start len) by lia.
    destruct (Z.le_gt_cases (start + P) len) as [Hin|Hout].
    + rewrite Z.min_l by lia. f_equal. lia.
    + rewrite Z.min_r by lia.
      rewrite !firstn_all2; try reflexivity;
        rewrite length_skipn; unfold len in *; lia.
Qed.

(** C7. With pagination not disabled, a page number of at least one and a
    page size [P] that is not negative, [paginateContent] on a list of [N]
    items returns the list as it is when [N <= P], and the items at the
    positions from [(page-1)*P] to [(page-1)*P + P] (the last one left out)
    otherwise; page one holds the first [min N P] items, in their order,
    and page [ceil (N/P)] holds the items that remain. *)
Theorem paginateContent_page_slice T (content : list T) (pg P : Z) (pag : option bool) :
  pag <> Some false -> 1 <= pg -> 0 <= P ->
  let N := Z.of_nat (List.length content) in
  let r := paginateContent content (Some (mkPage pg P pag)) in
  (N <= P -> r = content)
  /\ (P < N -> r = pageSliceSpec content pg P)
  /\ (pg = 1 -> r = firstn (Z.to_nat P) content
                /\ Z.of_nat (List.length r) = Z.min N P)
  /\ (0 < P -> 0 < N -> pg = (N + P - 1) / P ->
      r = skipn (Z.to_nat ((pg - 1) * P)) content).
Proof.
  intros Hpag Hpg HP N r.
  assert (Hr : r = if N <=? P then content
                   else slice content ((pg - 1) * P) ((pg - 1) * P + P)).
  { unfold r, paginateContent. cbn [page pageSize pagination].
    destruct pag as [[|]|]; try congruence;
      (destruct (Z.leb_spec 0 ((pg - 1) * P)); [reflexivity | nia]). }
  assert (Hslice : slice content ((pg - 1) * P) ((pg - 1) * P + P)
                   = pageSliceSpec content pg P).
  { unfold pageSliceSpec. apply slice_page_spec; nia. }
  split; [|split; [|split]].
  - intros HN. rewrite Hr. destruct (Z.leb_spec N P); [reflexivity | lia].
  - intros HN. rewrite Hr. destruct (Z.leb_spec N P); [lia | exact Hslice].
  - intros ->. rewrite Hr. unfold pageSliceSpec in Hslice.
    change ((1 - 1) * P) with 0 in *. change (Z.to_nat 0) with O in Hslice.
    cbn [skipn] in Hslice.
    destruct (Z.leb_spec N P); [|rewrite Hslice].
    + rewrite firstn_all2 by (unfold N in *; lia). split; [reflexivity | lia].
    + split; [reflexivity |]. rewrite length_firstn. unfold N in *. lia.
  - intros HP0 HN0 Hceil. rewrite Hr.
    assert (Hdm := Z.div_mod (N + P - 1) P ltac:(lia)).
    assert (Hmod := Z.mod_pos_bound (N + P - 1) P HP0).
    destruct (Z.leb_spec N P).
    + assert (pg = 1).
      { subst pg. symmetry. apply Z.div_unique with (r := N - 1); lia. }
      rewrite H0. reflexivity.
    + rewrite Hslice. unfold pageSliceSpec.
      apply firstn_all2. rewrite length_skipn. fold N in Hdm. nia.
Qed.

(* ------------------------------------------------------------------ *)
(** * The copy that [removeGeneratedIdKeyFromContent] builds (C9) *)

Module HeapFacts.
Import Heap.

Lemma nth_error_heapSet_same h l o :
  (l < List.length h)%nat -> nth_error (heapSet h l o) l = Some o.
Proof.
  revert l. induction h as [|x h IH]; cbn; intros l Hl; [lia|].
  destruct l as [|l]; cbn; [reflexivity | apply IH; lia].
Qed.

Lemma nth_error_heapSet_other h l l' o :
  l <> l' -> nth_error (heapSet h l o) l' = nth_error h l'.
Proof.
  revert l l'. induction h as [|x h IH]; cbn; intros l l' Hne.
  - reflexivity.
  - destruct l as [|l], l' as [|l']; cbn; try reflexivity; try congruence.
    apply IH. congruence.
Qed.

Lemma length_heapSet h l o : List.length (heapSet h l o) = List.length h.
Proof.
  revert l. induction h as [|x h IH]; cbn; intros l; [reflexivity|].
  destruct l; cbn; [reflexivity | now rewrite IH].
Qed.

Lemma preserved_refl h : preserved h h.
Proof. intros l o H. exact H. Qed.

Lemma preserved_trans h1 h2 h3 : preserved h1 h2 -> preserved h2 h3 -> preserved h1 h3.
Proof. intros H12 H23 l o H. auto. Qed.

Lemma preserved_app (h : heap) o : preserved h (h ++ [o])%list.
Proof.
  intros l o' H. rewrite nth_error_app1; [exact H|].
  apply nth_error_Some. congruence.
Qed.

Lemma preserved_heapSet h hc l o :
  preserved h hc -> (List.length h <= l)%nat -> preserved h (heapSet hc l o).
Proof.
  intros Hp Hl l' o' H. rewrite nth_error_heapSet_other; [auto|].
  assert (l' < List.length h)%nat by (apply nth_error_Some; congruence). lia.
Qed.

Lemma preserved_length h h' : preserved h h' -> (List.length h <= List.length h')%nat.
Proof.
  intros Hp. destruct (Nat.le_gt_cases (List.length h) (List.length h')) as [|Hlt];
    [assumption|].
  destruct (nth_error h (List.length h')) as [o|] eqn:E.
  - apply Hp in E.
    assert (Hnone : nth_error h' (List.length h') = None) by (apply nth_error_None; lia).
    congruence.
  - apply nth_error_None in E. lia.
Qed.

Lemma fieldsAt_preserved h h' l :
  preserved h h' -> (l < List.length h)%nat -> fieldsAt h' l = fieldsAt h l.
Proof.
  intros Hp Hl. unfold fieldsAt.
  destruct (nth_error h l) as [o|] eqn:E.
  - now rewrite (Hp _ _ E).
  - apply nth_error_None in E. lia.
Qed.

Lemma mapOption_transfer {A B} (f g : A -> option B) l ys :
  (forall x y, In x l -> f x = Some y -> g x = Some y) ->
  mapOption f l = Some ys -> mapOption g l = Some ys.
Proof.
  revert ys. induction l as [|x l IH]; cbn; intros ys Hfg H; [exact H|].
  destruct (f x) as [y|] eqn:Ex; [|discriminate].
  destruct (mapOption f l) as [ys'|] eqn:El; [|discriminate].
  rewrite (Hfg x y (or_introl eq_refl) Ex).
  rewrite (IH ys'); auto.
Qed.

Lemma mapOption_app {A B} (f : A -> option B) l1 l2 ys1 ys2 :
  mapOption f l1 = Some ys1 -> mapOption f l2 = Some ys2 ->
  mapOption f (l1 ++ l2)%list = Some (ys1 ++ ys2)%list.
Proof.
  revert ys1. induction l1 as [|x l1 IH]; cbn; intros ys1 H1 H2.
  - inversion H1; subst. exact H2.
  - destruct (f x) as [y|]; [|discriminate].
    destruct (mapOption f l1) as [ys|]; [|discriminate].
    inversion H1; subst. now rewrite (IH ys eq_refl H2).
Qed.

(** A value that stands above a bound keeps what it stands for in every
    heap that agrees with the heap above that bound. *)
Lemma reifyAbove_transfer b b' n :
  forall h h' v j,
    reifyAbove b n h v = Some j ->
    (b' <= b)%nat ->
    (forall l o, (b <= l)%nat -> nth_error h l = Some o -> nth_error h' l = Some o) ->
    reifyAbove b' n h' v = Some j.
Proof.
  induction n as [|n IH]; intros h h' v j Hr Hb Hagree;
    destruct v; cbn [reifyAbove] in *; try exact Hr; try discriminate Hr.
  destruct (Nat.ltb_spec location b) as [Hlt|Hge]; [discriminate Hr|].
  destruct (Nat.ltb_spec location b'); [lia|].
  destruct (nth_error h location) as [[fields|items]|] eqn:E; [| |discriminate Hr];
    rewrite (Hagree _ _ Hge E).
  - destruct (mapOption _ fields) as [js|] eqn:Ef; [|discriminate Hr].
    erewrite mapOption_transfer; [exact Hr | | exact Ef].
    intros [k x] y _ Hx. cbn in *.
    destruct (reifyAbove b n h x) as [jx|] eqn:Ejx; [|discriminate Hx].
    now rewrite (IH _ _ _ _ Ejx Hb Hagree).
  - destruct (mapOption _ items) as [js|] eqn:Ef; [|discriminate Hr].
    erewrite mapOption_transfer; [exact Hr | | exact Ef].
    intros x y _ Hx. eapply IH; eauto.
Qed.

Lemma reifyAbove_zero n : forall h v, reifyAbove 0 n h v = reify n h v.
Proof.
  induction n as [|n IH]; intros h v; destruct v; cbn [reifyAbove reify];
    try reflexivity.
  change (location <? 0)%nat with false. cbn iota.
  destruct (nth_error h location) as [[fields|items]|]; try reflexivity.
  - f_equal. induction fields as [|[k x] fields IHf]; cbn; [reflexivity|].
    now rewrite IH, IHf.
  - f_equal. induction items as [|x items IHi]; cbn; [reflexivity|].
    now rewrite IH, IHi.
Qed.

Lemma reify_preserved n h h' v j :
  preserved h h' -> reify n h v = Some j -> reify n h' v = Some j.
Proof.
  intros Hp Hr. rewrite <- reifyAbove_zero in *.
  eapply reifyAbove_transfer; eauto.
Qed.

Lemma reifyAbove_reify b n h v j :
  reifyAbove b n h v = Some j -> reify n h v = Some j.
Proof.
  intros Hr. rewrite <- reifyAbove_zero.
  eapply reifyAbove_transfer; eauto. lia.
Qed.

Lemma reifyAbove_fuel b n :
  forall n' h v j, reifyAbove b n h v = Some j -> (n <= n')%nat ->
                   reifyAbove b n' h v = Some j.
Proof.
  induction n as [|n IH]; intros n' h v j Hr Hn;
    destruct v; try (destruct n'; cbn [reifyAbove] in *; exact Hr);
    try discriminate Hr.
  destruct n' as [|n']; [lia|]. cbn [reifyAbove] in *.
  assert (Hle : (n <= n')%nat) by lia.
  destruct (location <? b)%nat; [discriminate Hr|].
  destruct (nth_error h location) as [[fields|items]|]; [| |discriminate Hr].
  - destruct (mapOption _ fields) as [js|] eqn:Ef; [|discriminate Hr].
    erewrite mapOption_transfer; [exact Hr | | exact Ef].
    intros [k x] y _ Hx. cbn in *.
    destruct (reifyAbove b n h x) as [jx|] eqn:Ejx; [|discriminate Hx].
    now rewrite (IH n' _ _ _ Ejx Hle).
  - destruct (mapOption _ items) as [js|] eqn:Ef; [|discriminate Hr].
    erewrite mapOption_transfer; [exact Hr | | exact Ef].
    intros x y _ Hx. eapply IH; eauto.
Qed.

End HeapFacts.

(** [cleanNested] in one equation: the properties that [Object.assign]
    copies, each cleaned by the outer function, without the two tags. *)
Lemma indexFields_map g items :
  forall i, indexFields i (map g items)
            = map (fun kv : string * JsVal => (fst kv, g (snd kv))) (indexFields i items).
Proof.
  induction items as [|x items IH]; intros i; cbn; [reflexivity | now rewrite IH].
Qed.

Lemma charFields_outerPure s :
  forall i, map (fun kv : string * JsVal => (fst kv, outerPure (snd kv))) (charFields i s)
            = charFields i s.
Proof.
  induction s as [|c s IH]; intros i; cbn; [reflexivity | now rewrite IH].
Qed.

Lemma cleanNested_unfold j :
  cleanNested j
  = JObj (deleteTags (map (fun kv : string * JsVal => (fst kv, outerPure (snd kv)))
                          (objectAssign j))).
Proof.
  destruct j; cbn [cleanNested objectAssign map]; try reflexivity.
  - now rewrite charFields_outerPure.
  - now rewrite (indexFields_map outerPure).
  - do 2 f_equal. apply map_ext. now intros [k v].
Qed.

(** The heap function against the function on values: the loop over the
    properties of [removed], [cleanNested], the map over an array, and the
    function itself by induction on the depth of its argument. *)
Module CopyProof.
Import Heap HeapFacts.

Lemma reify_primitive v n h j :
  isRef v = false -> reify n h v = Some j ->
  outerPure j = j /\ forall b k h', reifyAbove b k h' v = Some j.
Proof.
  destruct v, n; cbn; intros Hv Hr; try discriminate Hv;
    inversion Hr; subst;
    (split; [reflexivity | intros b' k h'; destruct k; reflexivity]).
Qed.

Lemma setValueAt_app done key v rest c :
  setValueAt (done ++ (key, v) :: rest)%list (List.length done) c
  = (done ++ (key, c) :: rest)%list.
Proof.
  induction done as [|[k0 v0] done IH]; cbn; [reflexivity | now rewrite IH].
Qed.

Lemma nth_error_middle {A} (l1 : list A) x l2 :
  nth_error (l1 ++ x :: l2)%list (List.length l1) = Some x.
Proof.
  rewrite nth_error_app2 by lia. now rewrite Nat.sub_diag.
Qed.

Lemma fieldsAt_heapSet h l fields :
  (l < List.length h)%nat -> fieldsAt (heapSet h l (HObject fields)) l = fields.
Proof. intros Hl. unfold fieldsAt. now rewrite nth_error_heapSet_same. Qed.

Section Loop.
Variable outer : heap -> HVal -> option (heap * HVal).
Variable h : heap.
Variable removed : nat.
Variables m k : nat.
Hypothesis removed_fresh : (List.length h <= removed)%nat.
(** [outer] on a reference of the argument: a fresh copy, above
    everything that was there, and nothing that was there is changed. *)
Hypothesis outer_copies : forall hc l j,
    reify m hc (HRef l) = Some j ->
    exists hc' l',
      outer hc (HRef l) = Some (hc', HRef l')
      /\ preserved hc hc'
      /\ (List.length hc <= l')%nat
      /\ reifyAbove (List.length hc) k hc' (HRef l') = Some (outerPure j).

Lemma cleanProperties_copies :
  forall todo jtodo done pdone hc,
    mapOption (fieldReify m h) todo = Some jtodo ->
    mapOption (fieldReifyAbove (S removed) k hc) done = Some pdone ->
    fieldsAt hc removed = (done ++ todo)%list ->
    (removed < List.length hc)%nat ->
    preserved h hc ->
    exists h2 done',
      cleanProperties outer removed (List.length todo) (List.length done) hc = Some h2
      /\ preserved h h2
      /\ (removed < List.length h2)%nat
      /\ fieldsAt h2 removed = done'
      /\ mapOption (fieldReifyAbove (S removed) k h2) done'
         = Some (pdone ++ map (fun kv : string * JsVal => (fst kv, outerPure (snd kv)))
                              jtodo)%list.
Proof.
  induction todo as [|[key v] todo IH];
    intros jtodo done pdone hc Htodo Hdone Hfields Hremoved Hpres.
  - cbn in Htodo. inversion Htodo; subst jtodo. cbn [List.length cleanProperties map].
    exists hc, done. rewrite !app_nil_r in *. repeat split; assumption.
  - cbn [mapOption] in Htodo. unfold fieldReify at 1 in Htodo. cbn [fst snd] in Htodo.
    destruct (reify m h v) as [jv|] eqn:Ev; [|discriminate Htodo]. cbn [option_map] in Htodo.
    destruct (mapOption (fieldReify m h) todo) as [jrest|] eqn:Erest;
      [|discriminate Htodo].
    inversion Htodo; subst jtodo; clear Htodo.
    cbn [List.length cleanProperties]. rewrite Hfields, nth_error_middle.
    destruct (isRef v) eqn:Eref.
    + destruct v as [| | | | |l]; try discriminate Eref.
      destruct (outer_copies hc l (@reify_preserved _ _ _ _ _ Hpres Ev))
        as (hc' & l' & Houter & Hpres' & Hl' & Hcopy).
      rewrite Houter.
      assert (Hlen : (List.length hc <= List.length hc')%nat)
        by now apply preserved_length.
      rewrite (fieldsAt_preserved Hpres' Hremoved), Hfields, setValueAt_app.
      set (hc'' := heapSet hc' removed (HObject (done ++ (key, HRef l') :: todo)%list)).
      assert (Habove : forall x y,
                 reifyAbove (S removed) k hc x = Some y ->
                 reifyAbove (S removed) k hc'' x = Some y).
      { intros x y Hx. eapply reifyAbove_transfer; [exact Hx | lia |].
        intros l0 o Hl0 Ho. unfold hc''.
        rewrite nth_error_heapSet_other by lia. now apply Hpres'. }
      destruct (IH jrest (done ++ [(key, HRef l')])%list
                   (pdone ++ [(key, outerPure jv)])%list hc'')
        as (h2 & done' & Hloop & Hpres2 & Hrem2 & Hfields2 & Hreify2).
      * first [exact Erest | reflexivity].
      * apply mapOption_app.
        -- eapply mapOption_transfer; [|exact Hdone].
           intros [k0 x] y _ Hx. unfold fieldReifyAbove in *. cbn [fst snd] in *.
           destruct (reifyAbove (S removed) k hc x) as [jx|] eqn:Ejx;
             [|discriminate Hx].
           now rewrite (Habove _ _ Ejx).
        -- cbn [mapOption]. unfold fieldReifyAbove at 1. cbn [fst snd].
           assert (Hnew : reifyAbove (S removed) k hc'' (HRef l')
                          = Some (outerPure jv)).
           { eapply reifyAbove_transfer; [exact Hcopy | lia |].
             intros l0 o Hl0 Ho. unfold hc''.
             rewrite nth_error_heapSet_other by lia. exact Ho. }
           rewrite Hnew. reflexivity.
      * unfold hc''. rewrite fieldsAt_heapSet by lia.
        now rewrite <- app_assoc.
      * unfold hc''. rewrite length_heapSet. lia.
      * unfold hc''. apply preserved_heapSet; [|exact removed_fresh].
        eapply preserved_trans; eauto.
      * exists h2, done'. rewrite length_app, Nat.add_1_r in Hloop.
        rewrite <- app_assoc in Hreify2. repeat split; assumption.
    + destruct (@reify_primitive _ _ _ _ Eref Ev) as [Hpure Hprim].
      assert (Hstep : cleanProperties outer removed (S (List.length todo))
                        (List.length done) hc
                      = cleanProperties outer removed (List.length todo)
                          (S (List.length done)) hc).
      { cbn [cleanProperties]. rewrite Hfields, nth_error_middle.
        destruct v; try reflexivity. discriminate Eref. }
      destruct (IH jrest (done ++ [(key, v)])%list (pdone ++ [(key, jv)])%list hc)
        as (h2 & done' & Hloop & Hpres2 & Hrem2 & Hfields2 & Hreify2).
      * first [exact Erest | reflexivity].
      * apply mapOption_app; [exact Hdone|].
        cbn [mapOption]. unfold fieldReifyAbove at 1. cbn [fst snd].
        now rewrite Hprim.
      * now rewrite <- app_assoc.
      * exact Hremoved.
      * exact Hpres.
      * exists h2, done'. rewrite length_app, Nat.add_1_r in Hloop.
        rewrite <- app_assoc in Hreify2. cbn [map fst snd]. rewrite Hpure.
        destruct v; try discriminate Eref; repeat split; assumption.
Qed.
End Loop.

Lemma indexFieldsH_reify n h items :
  forall js i,
    mapOption (reify n h) items = Some js ->
    mapOption (fieldReify n h) (indexFieldsH i items) = Some (indexFields i js).
Proof.
  induction items as [|x items IH]; intros js i Hitems; cbn in *.
  - inversion Hitems. reflexivity.
  - unfold fieldReify at 1. cbn [fst snd].
    destruct (reify n h x) as [jx|]; [|discriminate Hitems].
    destruct (mapOption (reify n h) items) as [jrest|]; [|discriminate Hitems].
    inversion Hitems; subst js. cbn. now rewrite (IH jrest (S i)).
Qed.

Lemma charFieldsH_reify h s :
  forall i, mapOption (fieldReify 0 h) (charFieldsH i s) = Some (charFields i s).
Proof.
  induction s as [|c s IH]; intros i; cbn; [reflexivity | now rewrite IH].
Qed.

(** The properties that [Object.assign] copies, of a heap value and of
    the value it stands for. *)
Lemma ownProperties_reify n h item j :
  reify n h item = Some j ->
  exists fields m,
    ownProperties h item = Some fields
    /\ mapOption (fieldReify m h) fields = Some (objectAssign j)
    /\ (m < n \/ m = 0)%nat.
Proof.
  destruct item as [| |b|z|s|l], n as [|n]; cbn; intros Hr;
    try (inversion Hr; subst; exists [], 0%nat; cbn;
         split; [reflexivity | split; [reflexivity | right; reflexivity]]);
    try (inversion Hr; subst; exists (charFieldsH 0 s), 0%nat;
         rewrite charFieldsH_reify; cbn;
         split; [reflexivity | split; [reflexivity | right; reflexivity]]).
  - discriminate Hr.
  - destruct (nth_error h l) as [[fields|items]|]; [| |discriminate Hr].
    + destruct (mapOption _ fields) as [js|] eqn:Efields; [|discriminate Hr].
      inversion Hr; subst. exists fields, n. cbn. repeat split; [exact Efields | lia].
    + destruct (mapOption (reify n h) items) as [js|] eqn:Eitems; [|discriminate Hr].
      inversion Hr; subst. exists (indexFieldsH 0 items), n. cbn.
      rewrite (@indexFieldsH_reify _ _ _ _ 0%nat Eitems). repeat split. lia.
Qed.

Lemma mapDelete_reify (f : string * HVal -> option (string * JsVal)) key :
  (forall kv y, f kv = Some y -> fst y = fst kv) ->
  forall fields js,
    mapOption f fields = Some js ->
    mapOption f (mapDelete fields key) = Some (mapDelete js key).
Proof.
  intros Hkey. induction fields as [|[k v] fields IH]; intros js Hfields; cbn in *.
  - inversion Hfields. reflexivity.
  - destruct (f (k, v)) as [[k' jv]|] eqn:Ef; [|discriminate Hfields].
    destruct (mapOption f fields) as [jrest|]; [|discriminate Hfields].
    inversion Hfields; subst js. pose proof (Hkey _ _ Ef) as Hk. cbn in Hk. subst k'.
    cbn. destruct (k =? key)%string.
    + now apply IH.
    + cbn. rewrite Ef. now rewrite (IH jrest).
Qed.

Lemma fieldReifyAbove_key b n h kv y :
  fieldReifyAbove b n h kv = Some y -> fst y = fst kv.
Proof.
  unfold fieldReifyAbove. destruct (reifyAbove b n h (snd kv)); cbn; [|discriminate].
  intros H. inversion H. reflexivity.
Qed.

Lemma deleteTagsH_reify b n h fields js :
  mapOption (fieldReifyAbove b n h) fields = Some js ->
  mapOption (fieldReifyAbove b n h) (deleteTagsH fields) = Some (deleteTags js).
Proof.
  intros Hfields. unfold deleteTagsH, deleteTags.
  apply mapDelete_reify; [apply fieldReifyAbove_key|].
  apply mapDelete_reify; [apply fieldReifyAbove_key | exact Hfields].
Qed.

Lemma cleanNestedWith_copies outer n h item j :
  (forall m, (m < n)%nat -> copies outer m) ->
  reify n h item = Some j ->
  exists h' removed,
    cleanNestedWith outer h item = Some (h', HRef removed)
    /\ preserved h h'
    /\ (List.length h <= removed)%nat
    /\ reifyAbove (List.length h) (S n) h' (HRef removed) = Some (cleanNested j).
Proof.
  intros Houter Hitem.
  destruct (@ownProperties_reify _ _ _ _ Hitem) as (fields & m & Hown & Hfields & Hm).
  unfold cleanNestedWith. rewrite Hown. cbn [alloc].
  set (removed := List.length h). set (h1 := (h ++ [HObject fields])%list).
  assert (Hat : fieldsAt h1 removed = fields).
  { unfold fieldsAt, h1, removed. now rewrite nth_error_middle. }
  assert (Hlen1 : List.length h1 = S removed).
  { unfold h1, removed. rewrite length_app. cbn. lia. }
  destruct (@cleanProperties_copies outer h removed m n (Nat.le_refl _)) with
      (todo := fields) (jtodo := objectAssign j) (done := @nil (string * HVal))
      (pdone := @nil (string * JsVal)) (hc := h1)
    as (h2 & done' & Hloop & Hpres2 & Hrem2 & Hfields2 & Hreify2).
  - intros hc l jl Hl. destruct Hm as [Hm | Hm].
    + destruct (Houter m Hm hc l jl Hl) as (hc' & l' & H1 & H2 & H3 & H4).
      exists hc', l'. repeat split; try assumption.
      eapply reifyAbove_fuel; [exact H4 | lia].
    + subst m. cbn in Hl. discriminate Hl.
  - exact Hfields.
  - reflexivity.
  - exact Hat.
  - lia.
  - apply preserved_app.
  - cbn [List.length] in Hloop. rewrite Hloop.
    exists (heapSet h2 removed (HObject (deleteTagsH (fieldsAt h2 removed)))), removed.
    split; [reflexivity|]. split; [|split; [unfold removed; lia|]].
    + apply preserved_heapSet; [exact Hpres2 | unfold removed; lia].
    + cbn [reifyAbove]. fold removed.
      rewrite Nat.ltb_irrefl, nth_error_heapSet_same by exact Hrem2.
      rewrite cleanNested_unfold. cbn [app] in Hreify2.
      rewrite Hfields2.
      assert (Hdone : mapOption
                        (fieldReifyAbove removed n
                           (heapSet h2 removed (HObject (deleteTagsH done'))))
                        done'
                      = Some (map (fun kv : string * JsVal =>
                                     (fst kv, outerPure (snd kv))) (objectAssign j))).
      { eapply mapOption_transfer; [|exact Hreify2].
        intros [k0 x] y _ Hx. unfold fieldReifyAbove in *. cbn [fst snd] in *.
        destruct (reifyAbove (S removed) n h2 x) as [jx|] eqn:Ejx; [|discriminate Hx].
        erewrite reifyAbove_transfer; [exact Hx | exact Ejx | lia |].
        intros l0 o Hl0 Ho. rewrite nth_error_heapSet_other by lia. exact Ho. }
      apply deleteTagsH_reify in Hdone.
      unfold fieldReifyAbove in Hdone. rewrite Hdone. reflexivity.
Qed.

Lemma reifyAbove_array b n h l items js :
  (b <= l)%nat -> nth_error h l = Some (HArray items) ->
  mapOption (reifyAbove b n h) items = Some js ->
  reifyAbove b (S n) h (HRef l) = Some (JArr js).
Proof.
  intros Hb Hl Hitems. cbn [reifyAbove].
  destruct (Nat.ltb_spec l b) as [Hlt|_]; [lia|].
  now rewrite Hl, Hitems.
Qed.

Lemma mapClean_copies clean n h0 :
  (forall hc x jx,
      reify n hc x = Some jx ->
      exists hc' removed,
        clean hc x = Some (hc', HRef removed)
        /\ preserved hc hc'
        /\ (List.length hc <= removed)%nat
        /\ reifyAbove (List.length hc) (S n) hc' (HRef removed) = Some (cleanNested jx)) ->
  forall items js hc,
    preserved h0 hc ->
    mapOption (reify n h0) items = Some js ->
    exists h2 cleaned,
      mapClean clean hc items = Some (h2, cleaned)
      /\ preserved hc h2
      /\ mapOption (reifyAbove (List.length hc) (S n) h2) cleaned
         = Some (map cleanNested js).
Proof.
  intros Hclean. induction items as [|x items IH]; intros js hc Hpres Hitems.
  - cbn in *. inversion Hitems. exists hc, []. repeat split. apply preserved_refl.
  - cbn [mapOption] in Hitems.
    destruct (reify n h0 x) as [jx|] eqn:Ex; [|discriminate Hitems].
    destruct (mapOption (reify n h0) items) as [jrest|] eqn:Erest; [|discriminate Hitems].
    inversion Hitems; subst js; clear Hitems.
    destruct (Hclean hc x jx (@reify_preserved _ _ _ _ _ Hpres Ex))
      as (h1 & removed & Hx & Hpres1 & Hfresh & Hcopy).
    destruct (IH jrest h1 (preserved_trans Hpres Hpres1) eq_refl)
      as (h2 & cleaned & Hrest & Hpres2 & Hcleaned).
    cbn [mapClean]. rewrite Hx, Hrest.
    exists h2, (HRef removed :: cleaned). split; [reflexivity|].
    split; [eapply preserved_trans; eauto|].
    cbn [mapOption map].
    rewrite (@reifyAbove_transfer (List.length hc) (List.length hc) (S n)
               h1 h2 (HRef removed) (cleanNested jx) Hcopy (Nat.le_refl _)
               (fun l o _ Ho => Hpres2 l o Ho)).
    erewrite mapOption_transfer; [reflexivity | | exact Hcleaned].
    intros y jy _ Hy. eapply reifyAbove_transfer; [exact Hy | | auto].
    now apply preserved_length.
Qed.

(** [removeGeneratedIdKeyFromContent] on a reference whose value has
    depth [n], with fuel for that depth. *)
Lemma removeGenerated_copies :
  forall n fuel, (n <= fuel)%nat -> copies (Heap.removeGeneratedIdKeyFromContent fuel) n.
Proof.
  induction n as [n IHn] using lt_wf_ind. intros fuel Hfuel hc l j Hl.
  destruct n as [|n]; [discriminate Hl|].
  destruct fuel as [|fuel]; [lia|].
  assert (Hinner : forall k, (k <= S n)%nat ->
             forall h x jx,
               reify k h x = Some jx ->
               exists h' removed,
                 cleanNestedWith (Heap.removeGeneratedIdKeyFromContent fuel) h x
                 = Some (h', HRef removed)
                 /\ preserved h h'
                 /\ (List.length h <= removed)%nat
                 /\ reifyAbove (List.length h) (S k) h' (HRef removed)
                    = Some (cleanNested jx)).
  { intros k Hk h x jx Hx. apply cleanNestedWith_copies; [|exact Hx].
    intros m Hm. apply IHn; lia. }
  pose proof Hl as Hl'. cbn [reify] in Hl.
  cbn [Heap.removeGeneratedIdKeyFromContent].
  destruct (nth_error hc l) as [[fields|items]|] eqn:El; [| |discriminate Hl].
  - destruct (mapOption _ fields) as [js|]; [|discriminate Hl].
    inversion Hl; subst j.
    destruct (Hinner (S n)) with (h := hc) (x := HRef l) (jx := JObj js)
      as (h' & removed & H1 & H2 & H3 & H4); [lia | exact Hl' |].
    exists h', removed. repeat split; assumption.
  - destruct (mapOption (reify n hc) items) as [js|] eqn:Eitems; [|discriminate Hl].
    inversion Hl; subst j.
    destruct (@mapClean_copies
                (cleanNestedWith (Heap.removeGeneratedIdKeyFromContent fuel)) n hc
                (Hinner n (Nat.le_succ_diag_r n)) items js hc (preserved_refl hc) Eitems)
      as (h2 & cleaned & Hmap & Hpres2 & Hcleaned).
    rewrite Hmap. cbn [alloc].
    exists (h2 ++ [HArray cleaned])%list, (List.length h2).
    split; [reflexivity|].
    pose proof (preserved_length Hpres2) as Hlen.
    split; [eapply preserved_trans; [exact Hpres2 | apply preserved_app]|].
    split; [exact Hlen|].
    cbn [outerPure].
    apply reifyAbove_array with (items := cleaned);
      [exact Hlen | apply nth_error_middle |].
    eapply mapOption_transfer; [|exact Hcleaned].
    intros y jy _ Hy. eapply reifyAbove_transfer; [exact Hy | lia |].
    intros l0 o _ Ho. now apply preserved_app.
Qed.

End CopyProof.

Lemma outerPure_reference n h l j :
  Heap.reify n h (Heap.HRef l) = Some j ->
  outerPure j = removeGeneratedIdKeyFromContent j.
Proof.
  destruct n as [|n]; cbn; [discriminate|].
  destruct (nth_error h l) as [[fields|items]|]; [| |discriminate].
  - destruct (Heap.mapOption _ fields); cbn; intros H; inversion H; reflexivity.
  - destruct (Heap.mapOption _ items); cbn; intros H; inversion H; reflexivity.
Qed.

(** C9. [removeGeneratedIdKeyFromContent] on an object or an array of the
    heap returns a reference to a copy that is built from new objects only
    (all of them allocated by the call) and that stands for the cleaned
    value; every object that was in the heap before the call is in it,
    unchanged, after the call, so that the argument, and a stored row it
    was read from, still stand for the same value, tags included. *)
Theorem removeGenerated_fresh_copy n fuel h l j :
  Heap.reify n h (Heap.HRef l) = Some j ->
  (n <= fuel)%nat ->
  exists h' l',
    Heap.removeGeneratedIdKeyFromContent fuel h (Heap.HRef l) = Some (h', Heap.HRef l')
    /\ Heap.preserved h h'
    /\ Heap.reify n h' (Heap.HRef l) = Some j
    /\ (List.length h <= l')%nat
    /\ Heap.reifyAbove (List.length h) (S n) h' (Heap.HRef l')
       = Some (removeGeneratedIdKeyFromContent j)
    /\ Heap.reify (S n) h' (Heap.HRef l') = Some (removeGeneratedIdKeyFromContent j).
Proof.
  intros Hl Hfuel.
  destruct (@CopyProof.removeGenerated_copies n fuel Hfuel h l j Hl)
    as (h' & l' & Hrun & Hpres & Hfresh & Hcopy).
  rewrite (outerPure_reference _ _ _ Hl) in Hcopy.
  exists h', l'. split; [exact Hrun|]. split; [exact Hpres|].
  split; [exact (@HeapFacts.reify_preserved _ _ _ _ _ Hpres Hl)|].
  split; [exact Hfresh|]. split; [exact Hcopy|].
  exact (@HeapFacts.reifyAbove_reify _ _ _ _ _ Hcopy).
Qed.

(** A stored person with its location, cleaned on a heap of two objects. *)
Lemma removeGenerated_fresh_copy_witness :
  let h := [Heap.HObject [("id", Heap.HStr "p1"); ("location", Heap.HRef 1);
                          ("__pkey__", Heap.HStr "p1")];
            Heap.HObject [("name", Heap.HStr "Test"); ("__store__", Heap.HStr "Location");
                          ("__pkey__", Heap.HStr "/api/locations/1")]] in
  let row := JObj [("id", JStr "p1");
                   ("location", JObj [("name", JStr "Test");
                                      ("__store__", JStr "Location");
                                      ("__pkey__", JStr "/api/locations/1")]);
                   ("__pkey__", JStr "p1")] in
  exists h' l',
    Heap.removeGeneratedIdKeyFromContent 2 h (Heap.HRef 0) = Some (h', Heap.HRef l')
    /\ Heap.preserved h h'
    /\ Heap.reify 2 h' (Heap.HRef 0) = Some row
    /\ (2 <= l')%nat
    /\ Heap.reify 3 h' (Heap.HRef l')
       = Some (JObj [("id", JStr "p1"); ("location", JObj [("name", JStr "Test")])]).
Proof.
  intros h row.
  assert (Hrow : Heap.reify 2 h (Heap.HRef 0) = Some row) by reflexivity.
  destruct (@removeGenerated_fresh_copy 2 2 h 0 row Hrow (Nat.le_refl 2))
    as (h' & l' & Hrun & Hpres & Hsame & Hfresh & _ & Hcopy).
  exists h', l'. repeat split; assumption.
Defined.

(* ------------------------------------------------------------------ *)
(** * Concrete instances *)


(** Five rows in pages of two: the second page and the last one. *)
Lemma paginateContent_page_slice_witness :
  paginateContent [10; 20; 30; 40; 50] (Some (mkPage 2 2 None))
  = pageSliceSpec [10; 20; 30; 40; 50] 2 2
  /\ paginateContent [10; 20; 30; 40; 50] (Some (mkPage 3 2 None)) = [50].
Proof.
  assert (Hpag : @None bool <> Some false) by discriminate.
  split.
  - apply (proj1 (proj2 (@paginateContent_page_slice Z [10; 20; 30; 40; 50] 2 2 None
                           Hpag ltac:(lia) ltac:(lia)))).
    cbn. lia.
  - apply (proj2 (proj2 (proj2 (@paginateContent_page_slice Z [10; 20; 30; 40; 50] 3 2 None
                                  Hpag ltac:(lia) ltac:(lia))))); cbn; lia.
Defined.

(* ================================================================== *)
(** * Properties of more of the services *)

(* ------------------------------------------------------------------ *)
(** ** The UUID of an identity *)

Lemma matchHex_prefix n :
  forall s r, matchHex n s = Some r ->
    exists p, s = p ++ r /\ hexGroup n p /\ forall r', matchHex n (p ++ r') = Some r'.
Proof.
  induction n as [|n IH]; intros s r H; cbn in H.
  - inversion H; subst. exists "". repeat split; reflexivity.
  - destruct s as [|c s]; [discriminate|].
    destruct (isHexDigit c) eqn:Ec; [|discriminate].
    destruct (IH s r H) as (p & -> & [Hlen Hhex] & Hmatch).
    exists (String c p). split; [reflexivity|]. split.
    + split; cbn; [now rewrite Hlen | now rewrite Ec, Hhex].
    + intros r'. cbn. now rewrite Ec.
Qed.

Lemma matchDash_inv o r : matchDash o = Some r -> o = Some (String "-"%char r).
Proof.
  destruct o as [[|c s]|]; cbn; try discriminate.
  destruct c as [[] [] [] [] [] [] [] []]; cbn; try discriminate.
  intros H. inversion H. reflexivity.
Qed.

Lemma append_assoc (a b c : string) : (a ++ b) ++ c = a ++ (b ++ c).
Proof. induction a as [|x a IH]; cbn; [reflexivity | now rewrite IH]. Qed.

Lemma append_nil_r (a : string) : a ++ "" = a.
Proof. induction a as [|x a IH]; cbn; [reflexivity | now rewrite IH]. Qed.

Lemma length_append (a b : string) :
  String.length (a ++ b) = (String.length a + String.length b)%nat.
Proof. induction a as [|x a IH]; cbn; [reflexivity | now rewrite IH]. Qed.

Lemma substring_prefix (p r : string) :
  substring 0 (String.length p) (p ++ r) = p.
Proof. induction p as [|x p IH]; cbn; [now destruct r | now rewrite IH]. Qed.

(** A match of [uuidRegExp] at the head of a string: the 36 characters it
    covers have the shape of a UUID, and they match whatever follows. *)
Lemma matchUuidAt_prefix s :
  matchUuidAt s = true ->
  exists u r, s = u ++ r /\ String.length u = 36%nat /\ uuidShape u
              /\ forall r', matchUuidAt (u ++ r') = true.
Proof.
  unfold matchUuidAt. intros H.
  destruct (matchDash (matchHex 8 s)) as [r1|] eqn:E1; [|discriminate H].
  destruct (matchDash (matchHex 4 r1)) as [r2|] eqn:E2; [|discriminate H].
  destruct (matchDash (matchHex 4 r2)) as [r3|] eqn:E3; [|discriminate H].
  destruct (matchDash (matchHex 4 r3)) as [r4|] eqn:E4; [|discriminate H].
  destruct (matchHex 12 r4) as [r5|] eqn:E5; [|discriminate H].
  apply matchDash_inv in E1, E2, E3, E4.
  destruct (matchHex_prefix _ _ E1) as (a & -> & Ha & Ma).
  destruct (matchHex_prefix _ _ E2) as (b & Hb' & Hb & Mb).
  destruct (matchHex_prefix _ _ E3) as (c & Hc' & Hc & Mc).
  destruct (matchHex_prefix _ _ E4) as (d & Hd' & Hd & Md).
  destruct (matchHex_prefix _ _ E5) as (e & He' & He & Me).
  subst r1 r2 r3 r4.
  exists (a ++ "-" ++ b ++ "-" ++ c ++ "-" ++ d ++ "-" ++ e), r5.
  split; [now rewrite !append_assoc|]. split.
  - rewrite !length_append. cbn.
    destruct Ha as [-> _], Hb as [-> _], Hc as [-> _], Hd as [-> _], He as [-> _].
    reflexivity.
  - split; [exists a, b, c, d, e; repeat split; try apply Ha; try apply Hb;
            try apply Hc; try apply Hd; try apply He|].
    intros r'. rewrite !append_assoc. rewrite Ma. cbn [matchDash append].
    rewrite Mb. cbn [matchDash append]. rewrite Mc. cbn [matchDash append].
    rewrite Md. cbn [matchDash append]. rewrite Me. reflexivity.
Qed.

Lemma findUuid_head s :
  matchUuidAt s = true -> findUuid s = Some (substring 0 36 s).
Proof. intros H. destruct s; cbn [findUuid]; now rewrite H. Qed.

(** [findUuid] returns the leftmost match. *)
Lemma findUuid_leftmost s :
  forall u, findUuid s = Some u ->
    exists pre post,
      s = pre ++ u ++ post /\ String.length u = 36%nat /\ uuidShape u
      /\ (forall r', matchUuidAt (u ++ r') = true)
      /\ forall pre' rest, s = pre' ++ rest ->
           (String.length pre' < String.length pre)%nat -> matchUuidAt rest = false.
Proof.
  induction s as [|c s IH]; intros u H.
  - cbn in H. discriminate H.
  - destruct (matchUuidAt (String c s)) eqn:Em.
    + destruct (matchUuidAt_prefix _ Em) as (u' & r & Hs & Hlen & Hshape & Hmatch).
      assert (Hsub : substring 0 36 (String c s) = u')
        by (rewrite Hs, <- Hlen; apply substring_prefix).
      rewrite (findUuid_head _ Em), Hsub in H. injection H as <-. exists "", r. cbn [append]. repeat split; try assumption.
      intros pre' rest _ Hlt. cbn in Hlt. lia.
    + cbn [findUuid] in H. rewrite Em in H.
      destruct (IH u H) as (pre & post & -> & Hlen & Hshape & Hmatch & Hleft).
      exists (String c pre), post. cbn [append]. repeat split; try assumption.
      intros pre' rest Hs Hlt. destruct pre' as [|c' pre'].
      * cbn in Hs. now subst rest.
      * cbn in Hs. inversion Hs; subst c'. apply (Hleft pre' rest); [assumption|].
        cbn in Hlt. lia.
Qed.

Lemma findUuid_none s :
  findUuid s = None -> forall pre rest, s = pre ++ rest -> matchUuidAt rest = false.
Proof.
  induction s as [|c s IH]; intros H pre rest Hs.
  - destruct pre; [|discriminate Hs]. cbn in Hs. subst rest.
    reflexivity.
  - cbn [findUuid] in H. destruct (matchUuidAt (String c s)) eqn:Em; [discriminate H|].
    destruct pre as [|c' pre]; cbn in Hs.
    + now subst rest.
    + inversion Hs. eapply IH; eauto.
Qed.

Lemma findUuid_fixpoint u :
  String.length u = 36%nat -> (forall r', matchUuidAt (u ++ r') = true) ->
  findUuid u = Some u.
Proof.
  intros Hlen Hmatch. pose proof (Hmatch "") as H. rewrite append_nil_r in H.
  rewrite (findUuid_head _ H). f_equal.
  pose proof (substring_prefix u "") as Hsub.
  now rewrite append_nil_r, Hlen in Hsub.
Qed.

Lemma matchHex_group n :
  forall p r, hexGroup n p -> matchHex n (p ++ r) = Some r.
Proof.
  induction n as [|n IH]; intros p r [Hlen Hhex].
  - destruct p; [reflexivity | discriminate Hlen].
  - destruct p as [|c p]; [discriminate Hlen|]. cbn in *.
    apply andb_prop in Hhex as [Hc Hp]. rewrite Hc. apply IH. split; [lia | exact Hp].
Qed.

Lemma matchUuidAt_shape u r : uuidShape u -> matchUuidAt (u ++ r) = true.
Proof.
  intros (a & b & c & d & e & -> & Ha & Hb & Hc & Hd & He).
  unfold matchUuidAt. rewrite !append_assoc.
  rewrite (matchHex_group _ Ha). cbn [matchDash append].
  rewrite (matchHex_group _ Hb). cbn [matchDash append].
  rewrite (matchHex_group _ Hc). cbn [matchDash append].
  rewrite (matchHex_group _ Hd). cbn [matchDash append].
  now rewrite (matchHex_group _ He).
Qed.

(** X1. The identity that [extractUuid] returns is left as it is by a
    second extraction, whatever the value. *)
Theorem extractUuid_idempotent (id : JsVal) :
  extractUuid (extractUuid id) = extractUuid id.
Proof.
  unfold extractUuid at 2 3. destruct (findUuid (jsToString id)) as [u|] eqn:Ef.
  - destruct (findUuid_leftmost _ Ef) as (pre & post & _ & Hlen & _ & Hmatch & _).
    unfold extractUuid. cbn [jsToString]. now rewrite (@findUuid_fixpoint u Hlen Hmatch).
  - unfold extractUuid. now rewrite Ef.
Qed.

(** X2. On a string [extractUuid] returns the leftmost part of it that has
    the shape of a UUID, and the string itself when no part of it has. *)
Theorem extractUuid_leftmost_uuid (s : string) :
  (exists pre u post,
     extractUuid (JStr s) = JStr u
     /\ s = pre ++ u ++ post
     /\ uuidShape u
     /\ forall pre' u' post',
          s = pre' ++ u' ++ post' -> uuidShape u' ->
          (String.length pre <= String.length pre')%nat)
  \/ (extractUuid (JStr s) = JStr s
      /\ forall pre' u' post', s = pre' ++ u' ++ post' -> ~ uuidShape u').
Proof.
  unfold extractUuid. cbn [jsToString].
  destruct (findUuid s) as [u|] eqn:Ef.
  - left. destruct (findUuid_leftmost _ Ef) as (pre & post & Hs & _ & Hshape & _ & Hleft).
    exists pre, u, post. repeat split; try assumption.
    intros pre' u' post' Hs' Hshape'.
    destruct (Nat.le_gt_cases (String.length pre) (String.length pre')) as [Hle|Hlt];
      [exact Hle|].
    pose proof (@matchUuidAt_shape u' post' Hshape') as Hm.
    rewrite (Hleft pre' (u' ++ post') Hs' Hlt) in Hm. discriminate Hm.
  - right. split; [reflexivity|]. intros pre' u' post' Hs' Hshape'.
    pose proof (@matchUuidAt_shape u' post' Hshape') as Hm.
    rewrite (@findUuid_none s Ef pre' _ Hs') in Hm. discriminate Hm.
Qed.

(** X3. With an index other than zero [extractPrimaryKey] finds nothing,
    however many UUIDs the value holds: the empty string when [exact] is
    set and [undefined] otherwise. *)
Theorem extractPrimaryKey_first_match_only url i exact :
  i <> 0 ->
  extractPrimaryKey url (Some i) exact = if exact then JStr "" else JUndefined.
Proof.
  intros Hi. unfold extractPrimaryKey.
  destruct (Z.ltb_spec i 0) as [Hneg|Hpos]; [reflexivity|].
  destruct (Z.to_nat i) as [|n] eqn:En; [lia|].
  destruct (findUuid (jsToString url)); cbn; now destruct n.
Qed.

Lemma extractPrimaryKey_first_match_only_witness :
  extractPrimaryKey
    (JStr "/a/123e4567-e89b-12d3-a456-426614174000/b/00000000-0000-0000-0000-000000000001")
    (Some 1) false = JUndefined
  /\ extractPrimaryKey
       (JStr "/a/123e4567-e89b-12d3-a456-426614174000/b/00000000-0000-0000-0000-000000000001")
       (Some 0) false = JStr "123e4567-e89b-12d3-a456-426614174000".
Proof.
  split.
  - apply (@extractPrimaryKey_first_match_only _ 1 false). lia.
  - vm_compute. reflexivity.
Defined.

(* ------------------------------------------------------------------ *)
(** ** Pages *)

Lemma paginateContent_on T (content : list T) (pg P : Z) (pag : option bool) :
  pag <> Some false -> 0 <= (pg - 1) * P ->
  paginateContent content (Some (mkPage pg P pag))
  = if Z.of_nat (List.length content) <=? P then content
    else slice content ((pg - 1) * P) ((pg - 1) * P + P).
Proof.
  intros Hpag Hstart. unfold paginateContent. cbn [page pageSize pagination].
  destruct pag as [[|]|]; try congruence;
    (destruct (Z.leb_spec 0 ((pg - 1) * P)); [reflexivity | lia]).
Qed.

Lemma paginateContent_page T (content : list T) (pg P : Z) (pag : option bool) :
  pag <> Some false -> 1 <= pg -> 0 <= P -> P < Z.of_nat (List.length content) ->
  paginateContent content (Some (mkPage pg P pag)) = pageSliceSpec content pg P.
Proof.
  intros Hpag Hpg HP HN. rewrite paginateContent_on by (try assumption; nia).
  destruct (Z.leb_spec (Z.of_nat (List.length content)) P); [lia|].
  unfold pageSliceSpec. apply slice_page_spec; nia.
Qed.

(** X4. A page holds at most [pageSize] rows, and they are rows that stand
    next to each other in the content, in their order. *)
Theorem paginateContent_bound T (content : list T) (pg P : Z) (pag : option bool) :
  pag <> Some false -> 1 <= pg -> 0 <= P ->
  let r := paginateContent content (Some (mkPage pg P pag)) in
  Z.of_nat (List.length r) <= P
  /\ exists before after, content = (before ++ r ++ after)%list.
Proof.
  intros Hpag Hpg HP r.
  destruct (Z.le_gt_cases (Z.of_nat (List.length content)) P) as [HN|HN].
  - assert (Hr : r = content).
    { unfold r. rewrite paginateContent_on by (try assumption; nia).
      destruct (Z.leb_spec (Z.of_nat (List.length content)) P); [reflexivity | lia]. }
    rewrite Hr. split; [exact HN|]. exists [], []. now rewrite app_nil_r.
  - assert (Hr : r = pageSliceSpec content pg P)
      by (apply paginateContent_page; (assumption || lia)).
    rewrite Hr. unfold pageSliceSpec. split.
    + rewrite length_firstn. lia.
    + exists (firstn (Z.to_nat ((pg - 1) * P)) content),
             (skipn (Z.to_nat P) (skipn (Z.to_nat ((pg - 1) * P)) content)).
      now rewrite firstn_skipn, firstn_skipn.
Qed.

Lemma paginateContent_bound_witness :
  Z.of_nat (List.length (paginateContent [1; 2; 3; 4; 5] (Some (mkPage 2 2 None)))) <= 2
  /\ exists before after,
       [1; 2; 3; 4; 5]
       = (before ++ paginateContent [1; 2; 3; 4; 5] (Some (mkPage 2 2 None)) ++ after)%list.
Proof.
  assert (Hpag : @None bool <> Some false) by discriminate.
  exact (@paginateContent_bound Z [1; 2; 3; 4; 5] 2 2 None Hpag ltac:(lia) ltac:(lia)).
Defined.

Lemma chunks_concat T (p : nat) :
  forall n (l : list T),
    (List.length l <= n * p)%nat ->
    List.concat (map (fun i => firstn p (skipn (i * p) l)) (seq 0 n)) = l.
Proof.
  induction n as [|n IH]; intros l Hl.
  - destruct l; [reflexivity | cbn in Hl; lia].
  - cbn [seq map List.concat]. rewrite <- seq_shift, map_map.
    cbn [Nat.mul skipn Nat.add].
    transitivity (firstn p l ++ skipn p l)%list; [|apply firstn_skipn]. f_equal.
    etransitivity; [|apply (IH (skipn p l)); rewrite length_skipn; lia].
    f_equal. apply map_ext. intros i. f_equal.
    rewrite skipn_skipn. f_equal. lia.
Qed.

(** X5. The pages of a content, put one after the other, are the content:
    no row is left out and none is served twice. *)
Theorem allPages_concat T (content : list T) (P : Z) (pag : option bool) :
  pag <> Some false -> 0 < P ->
  List.concat (allPages content P pag) = content.
Proof.
  intros Hpag HP. unfold allPages.
  set (N := Z.of_nat (List.length content)).
  destruct (Z.le_gt_cases N P) as [HN|HN].
  - assert (Hk : Z.max 1 ((N + P - 1) / P) = 1).
    { assert ((N + P - 1) / P <= 1); [|lia].
      apply Z.lt_succ_r. apply Z.div_lt_upper_bound; lia. }
    rewrite Hk. change (Z.to_nat 1) with 1%nat. cbn [seq map List.concat].
    rewrite app_nil_r. rewrite paginateContent_on by (try assumption; cbn; lia).
    fold N. destruct (Z.leb_spec N P); [reflexivity | lia].
  - assert (Hdiv : N <= ((N + P - 1) / P) * P).
    { pose proof (Z.div_mod (N + P - 1) P ltac:(lia)) as Hdm.
      pose proof (Z.mod_pos_bound (N + P - 1) P HP) as Hmod. nia. }
    assert (Hone : 1 <= (N + P - 1) / P) by (apply Z.div_le_lower_bound; lia).
    rewrite Z.max_r by exact Hone.
    rewrite <- seq_shift, map_map.
    etransitivity;
      [|apply (@chunks_concat T (Z.to_nat P) (Z.to_nat ((N + P - 1) / P)) content);
        unfold N in *; nia].
    f_equal. apply map_ext_in. intros i _.
    rewrite paginateContent_page by (try assumption; unfold N in *; lia).
    unfold pageSliceSpec. do 2 f_equal. nia.
Qed.

Lemma allPages_concat_witness :
  List.concat (allPages [1; 2; 3; 4; 5] 2 None) = [1; 2; 3; 4; 5]
  /\ allPages [1; 2; 3; 4; 5] 2 None = [[1; 2]; [3; 4]; [5]].
Proof.
  split.
  - apply (@allPages_concat Z [1; 2; 3; 4; 5] 2 None); [discriminate | lia].
  - vm_compute. reflexivity.
Defined.

(** X6. Page numbers out of range: a page number below one gives the whole
    content, whatever its size; a page past the last one gives nothing
    when the content is larger than a page. *)
Theorem paginateContent_out_of_range T (content : list T) (pg P : Z) (pag : option bool) :
  0 < P ->
  (pg <= 0 -> paginateContent content (Some (mkPage pg P pag)) = content)
  /\ (pag <> Some false -> P < Z.of_nat (List.length content) ->
      Z.of_nat (List.length content) <= (pg - 1) * P ->
      paginateContent content (Some (mkPage pg P pag)) = []).
Proof.
  intros HP. split.
  - intros Hpg. unfold paginateContent. cbn [page pageSize pagination].
    destruct (Z.leb_spec 0 ((pg - 1) * P)); [nia|]. now destruct pag as [[|]|].
  - intros Hpag HN Hpast.
    rewrite paginateContent_page by (try assumption; nia).
    unfold pageSliceSpec. rewrite skipn_all2 by lia. apply firstn_nil.
Qed.

Lemma paginateContent_out_of_range_witness :
  paginateContent [1; 2; 3] (Some (mkPage 0 2 None)) = [1; 2; 3]
  /\ paginateContent [1; 2; 3] (Some (mkPage 3 2 None)) = [].
Proof.
  destruct (@paginateContent_out_of_range Z [1; 2; 3] 0 2 None ltac:(lia)) as [Hlow _].
  destruct (@paginateContent_out_of_range Z [1; 2; 3] 3 2 None ltac:(lia)) as [_ Hhigh].
  split; [apply Hlow; lia | apply Hhigh; [discriminate | cbn; lia | cbn; lia]].
Defined.

(* ------------------------------------------------------------------ *)
(** ** Sorting *)

(** X7. Sorting by a column that resolves on every row does not fail and
    returns the rows it was given, each once: a permutation. *)
Theorem sortContent_permutation content opts :
  Forall (resolvesAt (splitDot (column opts) "")) content ->
  exists sorted,
    sortContent content (Some opts) = Ok sorted /\ Permutation content sorted.
Proof.
  intros Hok. unfold sortContent.
  destruct (column opts =? "")%string; [exists content; split; reflexivity|].
  destruct (@jsSort_sorted JsVal (sortComparator opts) (fun _ _ => True)
              (resolvesAt (splitDot (column opts) ""))) with (l := content)
    as (sorted & Hsort & Hperm & _); [|exact Hok|].
  - intros a b [va Ha] [vb Hb]. unfold sortComparator. rewrite Ha, Hb. cbn [bindR].
    eexists. split; [reflexivity|]. split; trivial.
  - exists sorted. split; assumption.
Qed.

Lemma sortContent_permutation_witness :
  exists sorted,
    sortContent [JObj [("name", JStr "b")]; JObj [("id", JNum 1)]; JObj [("name", JStr "a")]]
                (Some (mkSorting "name" (Some "asc"))) = Ok sorted
    /\ Permutation [JObj [("name", JStr "b")]; JObj [("id", JNum 1)]; JObj [("name", JStr "a")]]
                   sorted.
Proof.
  apply (@sortContent_permutation
           [JObj [("name", JStr "b")]; JObj [("id", JNum 1)]; JObj [("name", JStr "a")]]
           (mkSorting "name" (Some "asc"))).
  repeat constructor; eexists; vm_compute; reflexivity.
Defined.

Lemma string_ltb_leb x y : String.ltb x y = true -> String.leb x y = true.
Proof.
  unfold String.ltb, String.leb. destruct (String.compare x y); congruence.
Qed.

Lemma string_ltb_false_leb x y : String.ltb x y = false -> String.leb y x = true.
Proof.
  unfold String.ltb, String.leb. rewrite (String.compare_antisym x y).
  destruct (String.compare y x); cbn; congruence.
Qed.

(** X8. On a column of strings the rows come back ordered by their strings,
    character by character: upwards when the direction is ['asc'],
    downwards for every other direction and without one. *)
Theorem sortContent_strings content col dir :
  col <> "" ->
  Forall (stringAt (splitDot col "")) content ->
  exists sorted,
    sortContent content (Some (mkSorting col dir)) = Ok sorted
    /\ Permutation content sorted
    /\ (dir = Some "asc" -> Sorted (ascendingByString (splitDot col "")) sorted)
    /\ (dir <> Some "asc" -> Sorted (descendingByString (splitDot col "")) sorted).
Proof.
  intros Hcol Hstr. unfold sortContent. cbn [column].
  destruct (String.eqb_spec col ""); [contradiction|].
  set (columnPath := splitDot col "") in *.
  set (ascending := match dir with Some d => (d =? "asc")%string | None => false end).
  set (R := fun a b => if ascending then ascendingByString columnPath a b
                       else descendingByString columnPath a b).
  destruct (@jsSort_sorted JsVal (sortComparator (mkSorting col dir)) R
                           (stringAt columnPath)) with (l := content)
    as (sorted & Hsort & Hperm & Hsorted); [|exact Hstr|].
  - intros a b [x Hx] [y Hy]. unfold sortComparator. cbn [column direction].
    fold columnPath. rewrite Hx, Hy. cbn [bindR]. fold ascending.
    eexists. split; [reflexivity|].
    unfold compare, jsLt, R, ascendingByString, descendingByString.
    destruct ascending; destruct (String.ltb x y) eqn:Elt; split; intros Hc; try lia;
      first [ exists x, y; split; [exact Hx|]; split; [exact Hy|];
              now apply string_ltb_leb
            | exists y, x; split; [exact Hy|]; split; [exact Hx|];
              now apply string_ltb_false_leb
            | exists x, y; split; [exact Hx|]; split; [exact Hy|];
              now apply string_ltb_false_leb
            | exists y, x; split; [exact Hy|]; split; [exact Hx|];
              now apply string_ltb_leb ].
  - exists sorted. split; [exact Hsort|]. split; [exact Hperm|]. split.
    + intros ->. unfold R, ascending in Hsorted. cbn in Hsorted. exact Hsorted.
    + intros Hdir. unfold R, ascending in Hsorted.
      destruct dir as [d|]; [|exact Hsorted].
      destruct (String.eqb_spec d "asc"); [subst; congruence | exact Hsorted].
Qed.

Lemma sortContent_strings_witness :
  exists sorted,
    sortContent [JObj [("name", JStr "b")]; JObj [("name", JStr "a")]]
                (Some (mkSorting "name" (Some "asc"))) = Ok sorted
    /\ Sorted (ascendingByString ["name"]) sorted.
Proof.
  destruct (@sortContent_strings
              [JObj [("name", JStr "b")]; JObj [("name", JStr "a")]] "name" (Some "asc"))
    as (sorted & Hsort & _ & Hasc & _).
  - discriminate.
  - repeat constructor; eexists; vm_compute; reflexivity.
  - exists sorted. split; [exact Hsort | exact (Hasc eq_refl)].
Defined.

Lemma hasOwnProperty_outcome v key :
  (exists b, hasOwnProperty v key = Ok b)
  \/ (exists e, hasOwnProperty v key = Throw e /\ isTypeError e).
Proof.
  destruct v; cbn; first [left; eexists; reflexivity
                         | right; eexists; split; [reflexivity | eexists; reflexivity]].
Qed.

Lemma getProp_outcome v key :
  (exists x, getProp v key = Ok x)
  \/ (exists e, getProp v key = Throw e /\ isTypeError e).
Proof.
  destruct v; cbn;
    try (right; eexists; split; [reflexivity | eexists; reflexivity]);
    try (left; eexists; reflexivity).
  - destruct (key =? "length")%string; [left; eexists; reflexivity|].
    destruct (findIndexKey key (stringLength s)); left; eexists; reflexivity.
  - destruct (key =? "length")%string; [left; eexists; reflexivity|].
    destruct (findIndexKey key (List.length items)); left; eexists; reflexivity.
Qed.

(** [getComparisonValue] returns or throws a [TypeError]. *)
Lemma getComparisonValue_outcome path :
  forall item,
    (exists v, getComparisonValue item path = Ok v)
    \/ (exists e, getComparisonValue item path = Throw e /\ isTypeError e).
Proof.
  induction path as [|p rest IH]; intros item.
  - left. eexists. reflexivity.
  - cbn [getComparisonValue].
    destruct (hasOwnProperty_outcome item p) as [[has ->]|[e [-> He]]];
      [|right; exists e; split; [reflexivity | exact He]].
    cbn [bindR]. destruct has; cbn [negb]; [|left; eexists; reflexivity].
    destruct (getProp_outcome item p) as [[value ->]|[e [-> He]]];
      [|right; exists e; split; [reflexivity | exact He]].
    cbn [bindR]. destruct rest as [|q rest']; [left; eexists; reflexivity|].
    destruct (typeofObject value); [|left; eexists; reflexivity].
    destruct value; try apply IH.
    induction items as [|nested more IHm]; [left; eexists; reflexivity|].
    destruct (IH nested) as [[found ->]|[e [-> He]]];
      [|right; exists e; split; [reflexivity | exact He]].
    cbn [bindR]. destruct (truthy found); [left; eexists; reflexivity | exact IHm].
Qed.

Section SortThrows.
Variable opts : RetrieveBySortingOptions.


Lemma sortComparator_outcome a b :
  (exists c, sortComparator opts a b = Ok c)
  \/ (exists e, sortComparator opts a b = Throw e /\ isTypeError e).
Proof.
  unfold sortComparator.
  destruct (getComparisonValue_outcome (splitDot (column opts) "") a)
    as [[va ->]|[e [-> He]]]; [|right; exists e; split; [reflexivity | exact He]].
  destruct (getComparisonValue_outcome (splitDot (column opts) "") b)
    as [[vb ->]|[e [-> He]]]; [|right; exists e; split; [reflexivity | exact He]].
  left. eexists. reflexivity.
Qed.

Lemma sortComparator_bad a b :
  throwsAt (splitDot (column opts) "") a \/ throwsAt (splitDot (column opts) "") b ->
  exists e, sortComparator opts a b = Throw e /\ isTypeError e.
Proof.
  intros Hbad. destruct (sortComparator_outcome a b) as [[c Hc]|H]; [|exact H].
  exfalso. unfold sortComparator in Hc.
  destruct Hbad as [[e He]|[e He]].
  - rewrite He in Hc. discriminate Hc.
  - destruct (getComparisonValue a (splitDot (column opts) "")); try discriminate Hc.
    rewrite He in Hc. discriminate Hc.
Qed.

Lemma insertSorted_outcome x :
  forall sorted,
    (exists placed, insertSorted (sortComparator opts) x sorted = Ok placed /\ placed <> [])
    \/ (exists e, insertSorted (sortComparator opts) x sorted = Throw e /\ isTypeError e).
Proof.
  induction sorted as [|y sorted IH].
  - left. exists [x]. split; [reflexivity | discriminate].
  - cbn [insertSorted].
    destruct (sortComparator_outcome x y) as [[c ->]|[e [-> He]]];
      [|right; exists e; split; [reflexivity | exact He]].
    cbn [bindR]. destruct (c <? 0); [left; eexists; split; [reflexivity | discriminate]|].
    destruct IH as [[placed [-> _]]|[e [-> He]]].
    + left. eexists. split; [reflexivity | discriminate].
    + right. exists e. split; [reflexivity | exact He].
Qed.

Lemma insertSorted_bad x y sorted :
  throwsAt (splitDot (column opts) "") x \/ throwsAt (splitDot (column opts) "") y ->
  exists e, insertSorted (sortComparator opts) x (y :: sorted) = Throw e /\ isTypeError e.
Proof.
  intros Hbad. destruct (sortComparator_bad Hbad) as (e & Hc & He).
  exists e. cbn [insertSorted]. rewrite Hc. split; [reflexivity | exact He].
Qed.

Lemma jsSort_bad_later l :
  forall acc, acc <> [] -> Exists (throwsAt (splitDot (column opts) "")) l ->
    exists e, foldR (fun sorted x => insertSorted (sortComparator opts) x sorted) l acc
              = Throw e /\ isTypeError e.
Proof.
  induction l as [|x l IH]; intros acc Hacc Hex; [inversion Hex|].
  cbn [foldR]. inversion Hex as [? ? Hx|? ? Hl]; subst.
  - destruct acc as [|y acc]; [contradiction|].
    destruct (@insertSorted_bad x y acc (or_introl Hx)) as (e & -> & He).
    exists e. split; [reflexivity | exact He].
  - destruct (insertSorted_outcome x acc) as [[placed [-> Hplaced]]|[e [-> He]]].
    + cbn [bindR]. now apply IH.
    + exists e. split; [reflexivity | exact He].
Qed.

Lemma jsSort_bad l :
  (2 <= List.length l)%nat -> Exists (throwsAt (splitDot (column opts) "")) l ->
  exists e, jsSort (sortComparator opts) l = Throw e /\ isTypeError e.
Proof.
  intros Hlen Hex. destruct l as [|x1 [|x2 l]]; cbn in Hlen; try lia.
  unfold jsSort.
  change (exists e,
            foldR (fun sorted x => insertSorted (sortComparator opts) x sorted)
                  (x2 :: l) [x1] = Throw e /\ isTypeError e).
  inversion Hex as [? ? H1|? ? Hrest]; subst.
  - cbn [foldR]. destruct (@insertSorted_bad x2 x1 [] (or_intror H1)) as (e & -> & He).
    exists e. split; [reflexivity | exact He].
  - apply jsSort_bad_later; [discriminate | exact Hrest].
Qed.
End SortThrows.

(** X9. Sorting by a nested column fails with a [TypeError] as soon as one
    of two or more rows holds [null] where the path goes on: the value is
    taken for an object and asked for the next property. *)
Theorem sortContent_null_on_path content opts p q rest fields :
  splitDot (column opts) "" = p :: q :: rest ->
  (2 <= List.length content)%nat ->
  In (JObj fields) content ->
  mapGet fields p = Some JNull ->
  exists e, sortContent content (Some opts) = Throw e /\ isTypeError e.
Proof.
  intros Hpath Hlen Hin Hnull. unfold sortContent.
  destruct (String.eqb_spec (column opts) "") as [Hcol|_].
  { rewrite Hcol in Hpath. discriminate Hpath. }
  apply jsSort_bad; [exact Hlen|].
  apply Exists_exists. exists (JObj fields). split; [exact Hin|].
  unfold throwsAt. rewrite Hpath. cbn [getComparisonValue hasOwnProperty getProp].
  unfold mapHas, getField. rewrite Hnull. cbn.
  eexists. reflexivity.
Qed.

Lemma sortContent_null_on_path_witness :
  exists e,
    sortContent [JObj [("owner", JObj [("name", JStr "a")])]; JObj [("owner", JNull)]]
                (Some (mkSorting "owner.name" (Some "asc"))) = Throw e
    /\ isTypeError e.
Proof.
  apply (@sortContent_null_on_path
           [JObj [("owner", JObj [("name", JStr "a")])]; JObj [("owner", JNull)]]
           (mkSorting "owner.name" (Some "asc")) "owner" "name" [] [("owner", JNull)]).
  - reflexivity.
  - cbn. lia.
  - right. left. reflexivity.
  - reflexivity.
Defined.

(* ------------------------------------------------------------------ *)
(** ** The cleaned content *)

Lemma forallb_pointwise {A} (f g : A -> bool) l :
  (forall x, f x = g x) -> forallb f l = forallb g l.
Proof. intros H. induction l as [|x l IH]; cbn; [reflexivity | now rewrite H, IH]. Qed.

Lemma forallb_mapped {A B} (f : B -> bool) (g : A -> B) l :
  forallb f (map g l) = forallb (fun x => f (g x)) l.
Proof. induction l as [|x l IH]; cbn; [reflexivity | now rewrite IH]. Qed.

Lemma Forall_forallb {A} (Q : A -> bool) l :
  Forall (fun x => Q x = true) l -> forallb Q l = true.
Proof. induction 1 as [|x l Hx _ IH]; cbn; [reflexivity | now rewrite Hx, IH]. Qed.

Lemma forallb_mapDelete {V} (f : string * V -> bool) (m : list (string * V)) k :
  forallb f m = true -> forallb f (mapDelete m k) = true.
Proof.
  induction m as [|[k0 v0] m IH]; cbn; [reflexivity|].
  intros H. apply andb_prop in H as [H0 Hm].
  destruct (k0 =? k)%string; cbn; [auto | now rewrite H0, IH].
Qed.

Lemma mapDelete_no_key {V} (f : string * V -> bool) (m : list (string * V)) k :
  forallb f m = true ->
  forallb (fun kv => negb (fst kv =? k)%string && f kv) (mapDelete m k) = true.
Proof.
  induction m as [|[k0 v0] m IH]; cbn; [reflexivity|].
  intros H. apply andb_prop in H as [H0 Hm].
  destruct (k0 =? k)%string eqn:E; cbn; [auto | now rewrite E, H0, IH].
Qed.

Lemma deleteTags_tagFree fields :
  forallb (fun kv : string * JsVal => tagFree (snd kv)) fields = true ->
  tagFree (JObj (deleteTags fields)) = true.
Proof.
  intros H. cbn [tagFree]. unfold deleteTags.
  pose proof (mapDelete_no_key (fun kv : string * JsVal => tagFree (snd kv)) fields idKey H)
    as H1.
  pose proof (mapDelete_no_key
                (fun kv : string * JsVal => negb (fst kv =? idKey)%string && tagFree (snd kv))
                (mapDelete fields idKey) storeKey H1) as H2.
  erewrite forallb_pointwise; [exact H2|].
  intros [k v]. cbn. now destruct (k =? storeKey)%string, (k =? idKey)%string.
Qed.

Lemma indexFields_values (Q : JsVal -> bool) items :
  forall i, forallb Q items = true ->
            forallb (fun kv : string * JsVal => Q (snd kv)) (indexFields i items) = true.
Proof.
  induction items as [|x items IH]; intros i H; cbn in *; [reflexivity|].
  apply andb_prop in H as [Hx Hi]. now rewrite Hx, IH.
Qed.

Lemma charFields_tagFree s :
  forall i, forallb (fun kv : string * JsVal => tagFree (snd kv)) (charFields i s) = true.
Proof. induction s as [|c s IH]; intros i; cbn; [reflexivity | apply IH]. Qed.

Lemma cleanNested_tagFree v :
  tagFree (cleanNested v) = true /\ tagFree (outerPure v) = true.
Proof.
  induction v as [| |b|n|s|items IH|fields IH] using JsVal_nested_ind;
    try (split; reflexivity).
  - split; [|reflexivity]. cbn [cleanNested]. apply deleteTags_tagFree, charFields_tagFree.
  - split.
    + rewrite cleanNested_unfold. apply deleteTags_tagFree. cbn [objectAssign].
      rewrite forallb_mapped. cbn [snd].
      apply (indexFields_values (fun x => tagFree (outerPure x))).
      apply Forall_forallb. eapply Forall_impl; [|exact IH]. now intros x [_ Hx].
    + cbn [outerPure tagFree]. rewrite forallb_mapped.
      apply Forall_forallb. eapply Forall_impl; [|exact IH]. now intros x [Hx _].
  - assert (Hclean : tagFree (cleanNested (JObj fields)) = true).
    { rewrite cleanNested_unfold. apply deleteTags_tagFree. cbn [objectAssign].
      rewrite forallb_mapped. cbn [snd].
      apply Forall_forallb. eapply Forall_impl; [|exact IH]. now intros x [_ Hx]. }
    split; exact Hclean.
Qed.

(** X10. What [removeGeneratedIdKeyFromContent] returns has no [__pkey__]
    and no [__store__] key on any object, at any depth, whatever the value
    it was given. *)
Theorem removeGenerated_tagFree v :
  tagFree (removeGeneratedIdKeyFromContent v) = true.
Proof.
  destruct v; try apply cleanNested_tagFree.
  exact (proj2 (cleanNested_tagFree (JArr items))).
Qed.

Lemma mapDelete_mapped (g : JsVal -> JsVal) (m : Fields) k :
  mapDelete (map (fun kv : string * JsVal => (fst kv, g (snd kv))) m) k
  = map (fun kv : string * JsVal => (fst kv, g (snd kv))) (mapDelete m k).
Proof.
  induction m as [|[k0 v0] m IH]; cbn; [reflexivity|].
  destruct (k0 =? k)%string; cbn; now rewrite IH.
Qed.

Lemma mapDelete_idempotent {V} (m : list (string * V)) k :
  mapDelete (mapDelete m k) k = mapDelete m k.
Proof.
  induction m as [|[k0 v0] m IH]; cbn; [reflexivity|].
  destruct (k0 =? k)%string eqn:E; cbn; [exact IH | now rewrite E, IH].
Qed.

Lemma deleteTags_idempotent fields : deleteTags (deleteTags fields) = deleteTags fields.
Proof.
  unfold deleteTags.
  rewrite (mapDelete_comm (mapDelete fields idKey) storeKey idKey).
  now rewrite !mapDelete_idempotent.
Qed.

Lemma deleteTags_mapped g fields :
  deleteTags (map (fun kv : string * JsVal => (fst kv, g (snd kv))) fields)
  = map (fun kv : string * JsVal => (fst kv, g (snd kv))) (deleteTags fields).
Proof. unfold deleteTags. now rewrite !mapDelete_mapped. Qed.

Lemma cleanNested_twice_fields fields :
  Forall (fun kv : string * JsVal => outerPure (outerPure (snd kv)) = outerPure (snd kv))
         fields ->
  cleanNested (JObj (deleteTags (map (fun kv : string * JsVal => (fst kv, outerPure (snd kv)))
                                     fields)))
  = JObj (deleteTags (map (fun kv : string * JsVal => (fst kv, outerPure (snd kv))) fields)).
Proof.
  intros H. rewrite cleanNested_unfold. cbn [objectAssign].
  rewrite <- deleteTags_mapped, deleteTags_idempotent, map_map. cbn [fst snd].
  do 2 f_equal. apply map_ext_Forall.
  eapply Forall_impl; [|exact H]. intros [k v] Hv. cbn in *. now rewrite Hv.
Qed.

Lemma Forall_indexFields (Q : JsVal -> Prop) items :
  forall i, Forall Q items -> Forall (fun kv : string * JsVal => Q (snd kv)) (indexFields i items).
Proof.
  induction items as [|x items IH]; intros i H; cbn; [constructor|].
  inversion H; subst. constructor; [assumption | now apply IH].
Qed.

Lemma Forall_charFields (Q : JsVal -> Prop) s :
  (forall c, Q (JStr c)) ->
  forall i, Forall (fun kv : string * JsVal => Q (snd kv)) (charFields i s).
Proof.
  intros HQ. induction s as [|c s IH]; intros i; cbn; constructor; [apply HQ | apply IH].
Qed.

Lemma cleanNested_twice v :
  cleanNested (cleanNested v) = cleanNested v
  /\ outerPure (outerPure v) = outerPure v.
Proof.
  induction v as [| |b|n|s|items IH|fields IH] using JsVal_nested_ind;
    try (split; reflexivity).
  - split; [|reflexivity]. rewrite (cleanNested_unfold (JStr s)).
    apply cleanNested_twice_fields. cbn [objectAssign].
    apply (Forall_charFields (fun x => outerPure (outerPure x) = outerPure x)).
    reflexivity.
  - split.
    + rewrite (cleanNested_unfold (JArr items)). apply cleanNested_twice_fields.
      cbn [objectAssign].
      apply (@Forall_indexFields (fun x => outerPure (outerPure x) = outerPure x)).
      eapply Forall_impl; [|exact IH]. now intros x [_ Hx].
    + cbn [outerPure]. f_equal. rewrite map_map. apply map_ext_Forall.
      eapply Forall_impl; [|exact IH]. now intros x [Hx _].
  - assert (Hclean : cleanNested (cleanNested (JObj fields)) = cleanNested (JObj fields)).
    { rewrite (cleanNested_unfold (JObj fields)). apply cleanNested_twice_fields.
      cbn [objectAssign]. eapply Forall_impl; [|exact IH]. now intros x [_ Hx]. }
    split; [exact Hclean|].
    change (outerPure (JObj fields)) with (cleanNested (JObj fields)).
    rewrite (cleanNested_unfold (JObj fields)) in *. exact Hclean.
Qed.

(** X11. Cleaning what was cleaned changes nothing:
    [removeGeneratedIdKeyFromContent] is idempotent on every value. *)
Theorem removeGenerated_idempotent v :
  removeGeneratedIdKeyFromContent (removeGeneratedIdKeyFromContent v)
  = removeGeneratedIdKeyFromContent v.
Proof.
  destruct (isArray v) eqn:Earr.
  - destruct v; try discriminate Earr. exact (proj2 (cleanNested_twice (JArr items))).
  - assert (Hv : removeGeneratedIdKeyFromContent v = cleanNested v)
      by (destruct v; try reflexivity; discriminate Earr).
    rewrite Hv. pose proof (proj1 (cleanNested_twice v)) as H.
    rewrite (cleanNested_unfold v) in *. exact H.
Qed.

(* ------------------------------------------------------------------ *)
(** ** What [persist] does to the stores *)

Lemma rowsPut_In rows k v : In (k, v) (rowsPut rows k v).
Proof.
  induction rows as [|[k0 v0] rows IH]; cbn; [now left|].
  destruct (keyEqb k0 k); [now left | now right].
Qed.

(** X12. An entity persisted into a store without linked properties takes
    the place of whatever the store held: afterwards the store has one row,
    the entity with its [__pkey__], and the rows of earlier calls are gone. *)
Theorem persist_replaces_store V st fields opts res st' :
  persist V st (JObj fields) opts = (Emit res, st') ->
  storeContent opts <> Some false ->
  mapGet (linkMap (updatePersistenceSettings st opts)) (storeName opts) = None ->
  idbVersion st <= version (settings st) ->
  let identity := extractUuid (getField fields (primaryKey opts)) in
  exists k,
    toKey identity = Some k
    /\ mapGet (objectStores st') (storeName opts)
       = Some [(k, JObj (mapSet fields idKey identity))].
Proof.
  intros Hpersist Hstore Hlink Hversion identity.
  destruct (persist_single_no_links _ _ _ _ Hpersist Hstore Hlink)
    as (st3 & k & Hk & _ & _ & Hstores).
  destruct (@persist_single_row V st (JObj fields) opts res st' Hpersist eq_refl
              Hstore Hversion) as (k' & row & Hone).
  exists k. split; [exact Hk|].
  rewrite Hstores, mapGet_mapSet_same in Hone. injection Hone as Hone.
  pose proof (rowsPut_In (match mapGet (objectStores st3) (storeName opts) with
                          | Some r => r
                          | None => []
                          end) k
                (JObj (mapSet fields idKey
                              (extractUuid (getField fields (primaryKey opts)))))) as Hin.
  rewrite Hone in Hin. destruct Hin as [Hin|[]]. injection Hin as -> ->.
  rewrite Hstores, mapGet_mapSet_same, Hone. reflexivity.
Qed.

Lemma persist_replaces_store_witness :
  mapGet (objectStores
            (snd (persist Scenario.acceptAll Scenario.afterLocation
                          (JObj [("@id", JStr "/api/locations/2"); ("name", JStr "Other")])
                          Scenario.locationOptions)))
         "Location"
  = Some [(KStr "/api/locations/2",
           JObj [("@id", JStr "/api/locations/2"); ("name", JStr "Other");
                 ("__pkey__", JStr "/api/locations/2")])].
Proof.
  set (st' := snd (persist Scenario.acceptAll Scenario.afterLocation
                           (JObj [("@id", JStr "/api/locations/2"); ("name", JStr "Other")])
                           Scenario.locationOptions)).
  assert (Hpersist : exists res,
             persist Scenario.acceptAll Scenario.afterLocation
                     (JObj [("@id", JStr "/api/locations/2"); ("name", JStr "Other")])
                     Scenario.locationOptions = (Emit res, st'))
    by (vm_compute; eexists; reflexivity).
  destruct Hpersist as [res Hpersist].
  destruct (@persist_replaces_store Scenario.acceptAll Scenario.afterLocation
              [("@id", JStr "/api/locations/2"); ("name", JStr "Other")]
              Scenario.locationOptions res st' Hpersist)
    as (k & Hk & Hrows).
  - cbn. discriminate.
  - vm_compute. reflexivity.
  - vm_compute. discriminate.
  - vm_compute in Hk. injection Hk as <-. exact Hrows.
Defined.

Lemma handleObjectStoreUpdates_other updates sm stores store rows :
  ~ In store updates ->
  mapGet stores store = Some rows ->
  mapGet (handleObjectStoreUpdates updates sm stores) store = Some rows.
Proof.
  intros Hnot. unfold handleObjectStoreUpdates.
  destruct updates as [|u0 updates']; [auto|].
  set (updates := u0 :: updates') in *.
  assert (Hex : existsb (String.eqb store) updates = false).
  { destruct (existsb (String.eqb store) updates) eqn:E; [|reflexivity].
    apply existsb_exists in E as (x & Hx & Heq).
    apply String.eqb_eq in Heq. subst x. contradiction. }
  revert stores. induction sm as [|[s indices] sm IH]; cbn [fold_left fst]; intros stores0 H.
  - exact H.
  - apply IH. unfold Rows in *. destruct (String.eqb_spec s store) as [->|Hne].
    + unfold mapHas. rewrite H, Hex. exact H.
    + destruct (mapHas stores0 s && negb (existsb (String.eqb s) updates)); [exact H|].
      rewrite mapGet_mapSet_other by exact Hne.
      destruct (mapHas stores0 s); [|exact H].
      now rewrite mapGet_mapDelete_other.
Qed.

Lemma handleObjectStoreRemovals_other removals :
  forall sm stores store,
    ~ In store removals ->
    mapGet (snd (handleObjectStoreRemovals removals sm stores)) store = mapGet stores store.
Proof.
  unfold handleObjectStoreRemovals.
  induction removals as [|r removals IH]; intros sm stores store Hnot; [reflexivity|].
  cbn [fold_left fst snd].
  assert (Hr : r <> store) by (intros ->; apply Hnot; now left).
  assert (Hrest : ~ In store removals) by (intros H; apply Hnot; now right).
  destruct (mapHas stores r).
  - rewrite (IH _ _ _ Hrest). now apply mapGet_mapDelete_other.
  - now apply IH.
Qed.

Lemma addToSet_In_iff l x y : In y (addToSet l x) <-> y = x \/ In y l.
Proof.
  unfold addToSet. destruct (existsb (String.eqb x) l) eqn:E.
  - split; [auto|]. intros [->|H]; [|exact H].
    apply existsb_exists in E as (z & Hz & Heq). apply String.eqb_eq in Heq. now subst z.
  - rewrite in_app_iff. cbn. intuition (subst; auto).
Qed.

Lemma newSet_In items y : In y (newSet items) <-> In y items.
Proof.
  unfold newSet.
  assert (H : forall acc, In y (fold_left addToSet items acc) <-> In y acc \/ In y items).
  { induction items as [|x items IH]; intros acc; cbn [fold_left].
    - cbn. tauto.
    - rewrite IH, addToSet_In_iff. cbn. intuition (subst; auto). }
  rewrite H. cbn. tauto.
Qed.

Lemma parseContentForLinking_has_store fuel st store content q q' :
  parseContentForLinking fuel st store content q = Ok q' -> In store (mapKeys q').
Proof.
  destruct fuel as [|fuel]; [discriminate|]. cbn [parseContentForLinking].
  intros H. apply bindR_ok in H as (q1 & _ & H).
  apply bindR_ok in H as (c & _ & H). injection H as <-.
  apply mapKeys_mapSet_in. now left.
Qed.

Lemma updatePersistenceSettings_mutations st opts :
  mutationsUpdate (settings (updatePersistenceSettings st opts))
  = addToSet (newSet (mutationsUpdate (settings st))) (storeName opts)
  /\ mutationsRemove (settings (updatePersistenceSettings st opts))
     = mutationsRemove (settings st).
Proof.
  unfold updatePersistenceSettings.
  destruct (flattenPersistenceLinkOptions _ _ _). split; reflexivity.
Qed.

(** X13. [persist] leaves the rows of every other store as they are: a
    store that exists, gets no item of the queue and has no update or
    removal pending holds the same rows afterwards. *)
Theorem persist_frame V st content opts res st' queue store rows :
  persist V st content opts = (Emit res, st') ->
  storeContent opts <> Some false ->
  createQueueMap (updatePersistenceSettings st opts) opts (asArray content) = Ok queue ->
  ~ In store (mapKeys queue) ->
  ~ In store (mutationsUpdate (settings st)) ->
  ~ In store (mutationsRemove (settings st)) ->
  mapGet (objectStores st) store = Some rows ->
  mapGet (objectStores st') store = Some rows.
Proof.
  intros Hpersist Hstore Hqueue Hnotq Hupd Hrem Hrows.
  destruct (persist_emit_inv _ _ _ _ Hpersist Hstore)
    as (q & st2 & indexMap & st3 & added & Hparse & Hstorage & Hinit & Hinsert).
  unfold createQueueMap in Hqueue. rewrite Hparse in Hqueue. injection Hqueue as ->.
  assert (Hname : store <> storeName opts).
  { intros ->. apply Hnotq. eapply parseContentForLinking_has_store; eauto. }
  set (st1 := updatePersistenceSettings st opts) in *.
  destruct (updateStorageSettings_frame _ _ Hstorage) as (_ & _ & Hstores2 & Hset2 & Hi2).
  assert (Hrows3 : mapGet (objectStores st3) store = Some rows).
  { unfold initializeDatabase in Hinit.
    destruct (storageMap st2); [discriminate|].
    destruct (version (settings st2) <? 1); [discriminate|].
    destruct (version (settings st2) <? idbVersion st2); [discriminate|].
    destruct (idbVersion st2 <? version (settings st2)).
    - destruct (handleObjectStoreRemovals _ _ _) as [sm2 stores2] eqn:Eremove.
      injection Hinit as <-. cbn [objectStores].
      change stores2 with (snd (sm2, stores2)). rewrite <- Eremove.
      rewrite Hset2, Hstores2.
      destruct (updatePersistenceSettings_mutations st opts) as [Hmu Hmr].
      fold st1 in Hmu, Hmr. rewrite Hmu, Hmr.
      rewrite handleObjectStoreRemovals_other by exact Hrem.
      apply handleObjectStoreUpdates_other.
      + rewrite addToSet_In_iff, newSet_In. tauto.
      + unfold st1. rewrite updatePersistenceSettings_stores. exact Hrows.
    - injection Hinit as <-. cbn [objectStores]. rewrite Hstores2.
      unfold st1. rewrite updatePersistenceSettings_stores. exact Hrows. }
  unfold insertLinkedItemsInStores in Hinsert.
  destruct queue as [|entry queue']; [discriminate|].
  destruct (forallb _ _); [|discriminate].
  destruct (createBatchInsertObservable V st3 (entry :: queue') (objectStores st3) [])
    as [outcome stores'] eqn:Ebatch.
  injection Hinsert as _ <-. cbn [objectStores withStores].
  rewrite (@createBatchInsertObservable_other V st3 (entry :: queue') _ _ _ _ store
             Ebatch Hnotq).
  exact Hrows3.
Qed.

Lemma persist_frame_witness :
  mapGet (objectStores
            (snd (persist Scenario.acceptAll Scenario.afterLocation
                          (Scenario.named "p1" "Ann") Scenario.namedOptions)))
         "Location"
  = mapGet (objectStores Scenario.afterLocation) "Location".
Proof.
  set (st' := snd (persist Scenario.acceptAll Scenario.afterLocation
                           (Scenario.named "p1" "Ann") Scenario.namedOptions)).
  assert (Hpersist : exists res,
             persist Scenario.acceptAll Scenario.afterLocation
                     (Scenario.named "p1" "Ann") Scenario.namedOptions = (Emit res, st'))
    by (vm_compute; eexists; reflexivity).
  destruct Hpersist as [res Hpersist].
  assert (Hqueue : exists queue,
             createQueueMap (updatePersistenceSettings Scenario.afterLocation
                                                       Scenario.namedOptions)
                            Scenario.namedOptions (asArray (Scenario.named "p1" "Ann"))
             = Ok queue /\ mapKeys queue = ["Person"])
    by (vm_compute; eexists; split; reflexivity).
  destruct Hqueue as (queue & Hqueue & Hkeys).
  assert (Hrows : exists rows, mapGet (objectStores Scenario.afterLocation) "Location"
                               = Some rows)
    by (vm_compute; eexists; reflexivity).
  destruct Hrows as [rows Hrows]. rewrite Hrows.
  apply (@persist_frame Scenario.acceptAll Scenario.afterLocation
           (Scenario.named "p1" "Ann") Scenario.namedOptions res st' queue "Location" rows
           Hpersist).
  - cbn. discriminate.
  - exact Hqueue.
  - rewrite Hkeys. intros [H|[]]. discriminate H.
  - vm_compute. tauto.
  - vm_compute. tauto.
  - exact Hrows.
Defined.

(* ------------------------------------------------------------------ *)
(** ** The errors of [persist] *)

Lemma hasOwnProperty_throw v k e : hasOwnProperty v k = Throw e -> isTypeError e.
Proof.
  destruct v; cbn; try discriminate; intros H; inversion H; eexists; reflexivity.
Qed.

Lemma dedupe_throw pk items :
  forall seen e, dedupe pk items seen = Throw e -> isTypeError e.
Proof.
  induction items as [|x items IH]; intros seen e; cbn [dedupe]; [discriminate|].
  destruct pk as [k|]; [|intros H; inversion H; eexists; reflexivity].
  intros H. apply bindR_throw in H as [H|(checkId & _ & H)];
    [eapply getProp_throw; eauto|].
  destruct (includes seen checkId); [eapply IH; eauto|].
  apply bindR_throw in H as [H|(kept & _ & H)]; [eapply IH; eauto | discriminate].
Qed.

Lemma extractLinkedContent_throw rec st content linkedToMap :
  (forall store item q e, rec store item q = Throw e -> isTypeError e) ->
  forall q e, extractLinkedContent rec st content linkedToMap q = Throw e -> isTypeError e.
Proof.
  intros Hrec. unfold extractLinkedContent. apply foldR_throw.
  intros q [prop linkStore] e H.
  apply bindR_throw in H as [H|(has & _ & H)]; [eapply hasOwnProperty_throw; eauto|].
  destruct (negb has); [discriminate|].
  apply bindR_throw in H as [H|(nested & _ & H)]; [eapply getProp_throw; eauto|].
  destruct (negb (typeofObject nested)); [discriminate|].
  assert (Hparse : forall q0 item e0,
             (has' <- hasOwnProperty item
                        (match mapGet (optionsMap st) linkStore with
                         | Some o => primaryKey o
                         | None => ""
                         end) ;;
              match mapGet (optionsMap st) linkStore with
              | None => Throw (TypeError "cannot read properties of undefined (reading 'primaryKey')")
              | Some o =>
                  if negb has' then Ok q0 else
                  pkValue <- getProp item (primaryKey o) ;;
                  if negb (typeofString pkValue) then Ok q0
                  else rec (storeName o) item q0
              end) = Throw e0 -> isTypeError e0).
  { intros q0 item e0 H0.
    apply bindR_throw in H0 as [H0|(has' & _ & H0)];
      [eapply hasOwnProperty_throw; eauto|].
    destruct (mapGet (optionsMap st) linkStore) as [o|];
      [|inversion H0; eexists; reflexivity].
    destruct (negb has'); [discriminate|].
    apply bindR_throw in H0 as [H0|(pkValue & _ & H0)]; [eapply getProp_throw; eauto|].
    destruct (negb (typeofString pkValue)); [discriminate | eapply Hrec; eauto]. }
  destruct nested; try (eapply Hparse; exact H).
  revert H. apply foldR_throw. intros q0 item e0. apply Hparse.
Qed.

Lemma parseContentForLinking_throw fuel :
  forall st store content q e,
    parseContentForLinking fuel st store content q = Throw e -> isTypeError e.
Proof.
  induction fuel as [|fuel IH]; intros st store content q e; [discriminate|].
  cbn [parseContentForLinking]. intros H.
  apply bindR_throw in H as [H|(q1 & _ & H)].
  - destruct (mapGet (linkMap st) store) as [linkedToMap|]; [|discriminate].
    revert H. apply foldR_throw. intros q0 cloneMe e0.
    apply extractLinkedContent_throw. intros s item q2 e2. apply IH.
  - apply bindR_throw in H as [H|(c & _ & H)]; [eapply dedupe_throw; eauto | discriminate].
Qed.

Lemma createKeyMapForItem_throw st item :
  forall keyMap opts path e,
    createKeyMapForItem st item keyMap opts path = Throw e -> isTypeError e.
Proof.
  induction item as [| |b|n|s|items IH|fields IH] using JsVal_nested_ind;
    intros keyMap opts path e; cbn [createKeyMapForItem];
    try discriminate; try (intros H; inversion H; eexists; reflexivity).
  revert keyMap. induction IH as [|[key value] fields Hvalue _ IHf]; intros keyMap;
    [discriminate|].
  cbn [snd] in Hvalue.
  destruct (negb (startsWithNameChar key) || mapHas keyMap _ || containsDash key);
    [apply IHf|].
  destruct (isArray value || isBoolean value); [apply IHf|].
  destruct (typeofObject value); [|apply IHf].
  intros H. apply bindR_throw in H as [H|(keyMap1 & _ & H)]; [eapply Hvalue; eauto|].
  destruct (match _ with Some k => mapGet (optionsMap st) k | None => None end);
    eapply IHf; eauto.
Qed.

Lemma updateStorageLoop_throw st entries :
  forall sm sim sm' e,
    updateStorageLoop st entries sm sim = (sm', Throw e) -> isTypeError e.
Proof.
  induction entries as [|[store content] entries IH]; intros sm sim sm' e;
    cbn [updateStorageLoop]; [discriminate|].
  destruct (createKeyMap st content (mapGet (optionsMap st) store)) as [keyMap|e0|] eqn:Ek.
  - apply IH.
  - intros H. injection H as _ <-. unfold createKeyMap in Ek.
    apply bindR_throw in Ek as [Ek|(km & _ & Ek)]; [|discriminate].
    revert Ek. apply foldR_throw. intros km item e1. apply createKeyMapForItem_throw.
  - discriminate.
Qed.

Lemma initializeDatabase_fail st e :
  initializeDatabase st = Fail e -> languageOrEngineError e.
Proof.
  unfold initializeDatabase. destruct (storageMap st); [discriminate|].
  destruct (version (settings st) <? 1).
  { intros H. injection H as <-. left. eexists. reflexivity. }
  destruct (version (settings st) <? idbVersion st).
  { intros H. injection H as <-. right. right. eexists. reflexivity. }
  destruct (idbVersion st <? version (settings st)); [|discriminate].
  destruct (handleObjectStoreRemovals _ _ _). discriminate.
Qed.

Lemma issuePuts_signal store total parsed :
  forall index updated requests updated' signal,
    issuePuts store total parsed index [] updated = (requests, updated', signal) ->
    signal = Pending \/ signal = Signalled (DOMException "DataError").
Proof.
  induction parsed as [|item parsed IH]; cbn [issuePuts];
    intros index updated requests updated' signal H.
  - injection H as _ _ <-. now left.
  - destruct (keyOf item) as [k|]; [|injection H as _ _ <-; now right].
    destruct (S index =? total)%nat;
      destruct (issuePuts store total parsed (S index) [] (rowsPut updated k item))
        as [[rq up] sg] eqn:E; injection H as _ _ <-; eapply IH; eauto.
Qed.

Lemma createQueueObservable_fail V st store rows content e :
  fst (createQueueObservable V st store rows content) = Fail e ->
  languageOrEngineError e.
Proof.
  unfold createQueueObservable.
  destruct (addRelationsToContent _ st (JArr content) _) as [v|e0|] eqn:Erel; cbn.
  - destruct (issuePuts store _ (asArray v) 0 [] []) as [[requests updated] signal] eqn:Eput.
    destruct (runRequests V store requests rows [] updated None)
      as [[[rows1 errors1] updated1] emitted1].
    cbn. destruct (issuePuts_signal _ _ _ _ _ Eput) as [-> | ->].
    + destruct emitted1; discriminate.
    + intros H. injection H as <-. right. left. eexists. reflexivity.
  - intros H. injection H as <-. left. eapply addRelationsToContent_throw; eauto.
  - discriminate.
Qed.

Lemma createBatchInsertObservable_fail V st entries :
  forall stores added stores' e,
    createBatchInsertObservable V st entries stores added = (Fail e, stores') ->
    languageOrEngineError e.
Proof.
  induction entries as [|[store content] entries IH]; intros stores added stores' e;
    cbn [createBatchInsertObservable]; [discriminate|].
  destruct (mapGet (optionsMap st) store) as [o|];
    [|intros H; injection H as <- _; left; eexists; reflexivity].
  destruct (addIdKeyToContent content (primaryKey o)) as [items|e0|] eqn:Eid;
    [| |discriminate].
  - destruct (createQueueObservable V st store _ items) as [outcome rows'] eqn:Eq.
    destruct outcome as [queueMap|e0| |]; try discriminate; [apply IH|].
    intros H. injection H as <- _.
    apply (@createQueueObservable_fail V st store
             (match mapGet stores store with Some r => r | None => [] end) items).
    now rewrite Eq.
  - intros H. injection H as <- _. left. unfold addIdKeyToContent in Eid.
    revert Eid. apply mapR_throw. intros item e1 H1.
    apply bindR_throw in H1 as [H1|(x & _ & H1)]; [eapply getProp_throw; eauto|].
    discriminate.
Qed.

(** X14. Whatever the engine answers to the writes, a failure of [persist]
    is an error of the language or of the storage engine: [persist] never
    fails with the error that collects the messages of rejected rows, nor
    with the error of a missing primary key. *)
Theorem persist_failures V st content opts e :
  fst (persist V st content opts) = Fail e ->
  languageOrEngineError e
  /\ (forall store messages, e <> IndexedDBAddError store messages)
  /\ (forall store key, e <> NoPrimaryKeyInObjectError store key).
Proof.
  intros H.
  assert (Hkind : languageOrEngineError e).
  { unfold persist in H.
    destruct (parseContentForLinking _ _ _ _ _) as [linkedItems|e0|] eqn:Eparse; cbn in H.
    - destruct (updateStorageSettings _ linkedItems) as [st2 r] eqn:Estorage.
      destruct r as [indexMap|e0|]; cbn in H.
      + destruct (initializeDatabase st2) as [[st3|]|e0| |] eqn:Einit; cbn in H;
          try discriminate.
        * destruct (storeContent opts) as [[|]|];
            try (destruct (insertLinkedItemsInStores V st3 linkedItems)
                   as [outcome st4] eqn:Einsert;
                 destruct outcome as [a|e0| |]; cbn in H; try discriminate;
                 injection H as <-;
                 unfold insertLinkedItemsInStores in Einsert;
                 destruct linkedItems as [|entry rest];
                 [injection Einsert as <- _; right; left; eexists; reflexivity|];
                 destruct (forallb _ _);
                 [|injection Einsert as <- _; right; left; eexists; reflexivity];
                 destruct (createBatchInsertObservable V st3 (entry :: rest) _ [])
                   as [o stores'] eqn:Ebatch;
                 injection Einsert as -> _;
                 eapply createBatchInsertObservable_fail; eauto).
          discriminate.
        * injection H as <-. left. eexists. reflexivity.
        * injection H as <-. eapply initializeDatabase_fail; eauto.
      + injection H as <-. left. unfold updateStorageSettings in Estorage.
        destruct (updateStorageLoop _ linkedItems _ []) as [sm r] eqn:Eloop.
        injection Estorage as _ ->. eapply updateStorageLoop_throw; eauto.
      + discriminate.
    - injection H as <-. left. eapply parseContentForLinking_throw; eauto.
    - discriminate. }
  split; [exact Hkind|].
  split; intros s m ->; destruct Hkind as [[w Hw]|[[w Hw]|[w Hw]]]; discriminate.
Qed.

Lemma persist_failures_witness :
  languageOrEngineError (DOMException "DataError")
  /\ (forall store messages, DOMException "DataError" <> IndexedDBAddError store messages)
  /\ (forall store key, DOMException "DataError" <> NoPrimaryKeyInObjectError store key).
Proof.
  apply (@persist_failures Scenario.acceptAll Scenario.emptyService
           (JObj [("name", JStr "x")]) Scenario.namedOptions (DOMException "DataError")).
  vm_compute. reflexivity.
Defined.

(* ------------------------------------------------------------------ *)
(** ** Deleting rows *)

Lemma createParentLinkMap_unlinked fuel st store activeMap :
  ~ linkedFrom (linkMap st) store ->
  createParentLinkMap (S fuel) st store activeMap = Ok activeMap.
Proof.
  intros Hnone. cbn [createParentLinkMap].
  assert (Hall : forall lm, (forall parent links prop,
                               In (parent, links) lm -> In (prop, store) links -> False) ->
            forall pm,
              foldR (fun (parentMap : ParentLinkMap) (entry : string * StringMap) =>
                       let (parent, linksToMap) := entry in
                       foldR (fun (parentMap : ParentLinkMap) (linked : string * string) =>
                                let (prop, linkStore) := linked in
                                if (linkStore =? store)%string then
                                  let link :=
                                    mkLink parent store prop
                                           (option_map primaryKey (mapGet (optionsMap st) store))
                                           None None in
                                  parentMap1 <- createParentLinkMap fuel st parent
                                                  (mapSet parentMap parent link) ;;
                                  Ok (mapSet parentMap1 parent (updateParentLink link parentMap1))
                                else Ok parentMap)
                             linksToMap parentMap)
                    lm pm = Ok pm).
  { induction lm as [|[parent links] lm IH]; intros Hlm pm; [reflexivity|].
    cbn [foldR].
    assert (Hinner : forall ls, (forall prop, In (prop, store) ls -> False) ->
              forall pm0,
                foldR (fun (parentMap : ParentLinkMap) (linked : string * string) =>
                         let (prop, linkStore) := linked in
                         if (linkStore =? store)%string then
                           let link :=
                             mkLink parent store prop
                                    (option_map primaryKey (mapGet (optionsMap st) store))
                                    None None in
                           parentMap1 <- createParentLinkMap fuel st parent
                                           (mapSet parentMap parent link) ;;
                           Ok (mapSet parentMap1 parent (updateParentLink link parentMap1))
                         else Ok parentMap)
                      ls pm0 = Ok pm0).
    { induction ls as [|[prop linkStore] ls IHl]; intros Hls pm0; [reflexivity|].
      cbn [foldR]. destruct (String.eqb_spec linkStore store) as [->|_].
      - exfalso. apply (Hls prop). now left.
      - cbn [bindR]. apply IHl. intros prop0 H0. apply (Hls prop0). now right. }
    rewrite Hinner.
    - cbn [bindR]. apply IH. intros p l pr Hin. apply (Hlm p l pr). now right.
    - intros prop Hin. apply (Hlm parent links prop); [now left | exact Hin]. }
  apply Hall. intros parent links prop H1 H2. apply Hnone. exists parent, links, prop. auto.
Qed.

Lemma deleteKeys_valid keys :
  forall rows ks,
    toKeys keys = Some ks -> deleteKeys rows keys = (rowsWithout rows ks, None).
Proof.
  induction keys as [|key keys IH]; intros rows ks H; cbn in H.
  - injection H as <-. reflexivity.
  - destruct (toKey key) as [k|] eqn:Ek; [|discriminate H].
    destruct (toKeys keys) as [ks'|] eqn:Erest; [|discriminate H].
    injection H as <-. cbn [deleteKeys]. rewrite Ek. unfold rowsWithout. cbn [fold_left].
    now apply IH.
Qed.

Lemma rowsGet_rowsDelete rows k k' :
  rowsGet (rowsDelete rows k) k' = if keyEqb k k' then None else rowsGet rows k'.
Proof.
  induction rows as [|[k0 v0] rows IH]; cbn.
  - now destruct (keyEqb k k').
  - destruct (keyEqb k0 k) eqn:E0.
    + apply keyEqb_eq in E0. subst k0. rewrite IH.
      now destruct (keyEqb k k').
    + cbn. rewrite IH. destruct (keyEqb k0 k') eqn:E1; [|reflexivity].
      apply keyEqb_eq in E1. subst k0.
      destruct (keyEqb k k') eqn:E2; [|reflexivity].
      apply keyEqb_eq in E2. subst k. now rewrite keyEqb_refl in E0.
Qed.

Lemma rowsGet_rowsWithout ks :
  forall rows k,
    rowsGet (rowsWithout rows ks) k
    = if existsb (fun k' => keyEqb k' k) ks then None else rowsGet rows k.
Proof.
  unfold rowsWithout. induction ks as [|k0 ks IH]; intros rows k; cbn; [reflexivity|].
  rewrite IH, rowsGet_rowsDelete.
  destruct (keyEqb k0 k); cbn; now destruct (existsb _ ks).
Qed.

Lemma sameValueZero_toKey a b ka kb :
  toKey a = Some ka -> toKey b = Some kb -> sameValueZero a b = keyEqb ka kb.
Proof.
  destruct a, b; cbn; try discriminate; intros Ha Hb;
    injection Ha as <-; injection Hb as <-; reflexivity.
Qed.

Lemma toKeys_app pre last ks :
  toKeys (pre ++ [last]) = Some ks ->
  exists kpre klast,
    toKeys pre = Some kpre /\ toKey last = Some klast /\ ks = (kpre ++ [klast])%list.
Proof.
  revert ks. induction pre as [|x pre IH]; intros ks H; cbn in H.
  - destruct (toKey last) as [kl|]; [|discriminate H]. injection H as <-.
    exists [], kl. repeat split.
  - destruct (toKey x) as [kx|] eqn:Ex; [|discriminate H].
    destruct (toKeys (pre ++ [last])) as [ks'|] eqn:E; [|discriminate H].
    injection H as <-. destruct (IH ks' eq_refl) as (kpre & klast & Hpre & Hlast & ->).
    exists (kx :: kpre), klast. cbn. rewrite Ex, Hpre. repeat split. exact Hlast.
Qed.

Lemma toKeys_In keys ks x :
  toKeys keys = Some ks -> In x keys -> exists k, toKey x = Some k /\ In k ks.
Proof.
  revert ks. induction keys as [|y keys IH]; intros ks H Hin; [destruct Hin|].
  cbn in H. destruct (toKey y) as [ky|] eqn:Ey; [|discriminate H].
  destruct (toKeys keys) as [ks'|]; [|discriminate H]. injection H as <-.
  destruct Hin as [->|Hin].
  - exists ky. split; [exact Ey | now left].
  - destruct (IH ks' eq_refl Hin) as (k & Hk & Hink). exists k. split; [exact Hk | now right].
Qed.

Lemma indexOf_app_last pre last :
  (forall x, In x pre -> sameValueZero x last = false) ->
  sameValueZero last last = true ->
  forall i, indexOf (pre ++ [last]) last i = Some (i + List.length pre)%nat.
Proof.
  intros Hpre Hlast. induction pre as [|x pre IH]; intros i; cbn.
  - rewrite Hlast. f_equal. lia.
  - rewrite (Hpre x) by now left. rewrite IH; [f_equal; lia|].
    intros y Hy. apply Hpre. now right.
Qed.

Lemma indexOf_first keys key :
  forall i j, indexOf keys key i = Some j ->
    (i <= j)%nat
    /\ sameValueZero (nth (j - i) keys JUndefined) key = true
    /\ forall m, (m < j - i)%nat -> sameValueZero (nth m keys JUndefined) key = false.
Proof.
  induction keys as [|k keys IH]; intros i j H; cbn in H; [discriminate|].
  destruct (sameValueZero k key) eqn:E.
  - injection H as <-. rewrite Nat.sub_diag. cbn. repeat split; [lia | exact E | lia].
  - destruct (IH _ _ H) as (Hle & Hat & Hbefore).
    replace (j - i)%nat with (S (j - S i)) by lia. cbn. repeat split; [lia | exact Hat |].
    intros [|m] Hm; [exact E | apply Hbefore; lia].
Qed.

(** X15. Deleting rows from a store that no other store links to: with
    keys that are valid and differ from each other the call emits one result
    that names every key that was asked for, whether or not the store had a
    row under it; the rows under those keys are gone, the others stay. *)
Theorem deleteRows_unlinked V st store primaryKeys rows ks :
  connected st = true ->
  mapGet (objectStores st) store = Some rows ->
  ~ linkedFrom (linkMap st) store ->
  toKeys (map extractUuid (asArray primaryKeys)) = Some ks ->
  NoDup ks -> ks <> [] ->
  deleteRows V st store primaryKeys
  = (Emit [mkDeleteResult store (map extractUuid (asArray primaryKeys)) "" DELETE],
     withStores st (mapSet (objectStores st) store (rowsWithout rows ks)))
  /\ forall k, rowsGet (rowsWithout rows ks) k
               = if existsb (fun k' => keyEqb k' k) ks then None else rowsGet rows k.
Proof.
  intros Hconnected Hrows Hnone Hkeys Hnodup Hne.
  split; [|apply rowsGet_rowsWithout].
  unfold deleteRows, deleteContentFromStore. rewrite Hconnected, Hrows. cbn [negb].
  set (idKeys := map extractUuid (asArray primaryKeys)) in *.
  rewrite (@deleteKeys_valid idKeys rows ks Hkeys).
  assert (Hemit : existsb (fun key => match indexOf idKeys key 0 with
                                      | Some i => (S i =? List.length idKeys)%nat
                                      | None => false
                                      end) idKeys = true).
  { destruct (exists_last (l := idKeys)) as (pre & last & Hlast).
    { intros Hnil. rewrite Hnil in Hkeys. cbn in Hkeys. injection Hkeys as <-.
      now apply Hne. }
    rewrite Hlast in *.
    destruct (@toKeys_app pre last _ Hkeys) as (kpre & klast & Hpre & Hklast & ->).
    apply existsb_exists. exists last. split; [apply in_or_app; right; now left|].
    rewrite indexOf_app_last.
    - rewrite length_app. apply Nat.eqb_eq. cbn [List.length]. lia.
    - intros x Hx. destruct (@toKeys_In pre kpre x Hpre Hx) as (kx & Hkx & Hin).
      rewrite (@sameValueZero_toKey x last kx klast Hkx Hklast).
      destruct (keyEqb kx klast) eqn:E; [|reflexivity].
      apply keyEqb_eq in E. subst kx.
      apply NoDup_remove_2 in Hnodup. rewrite app_nil_r in Hnodup. contradiction.
    - rewrite (@sameValueZero_toKey last last klast klast Hklast Hklast). apply keyEqb_refl. }
  rewrite Hemit. unfold checkAndPruneParents, createParentDeleteMap.
  rewrite createParentLinkMap_unlinked by exact Hnone. reflexivity.
Qed.

Lemma deleteRows_unlinked_witness :
  fst (deleteRows Scenario.acceptAll Scenario.afterLocation "Location"
                  (JArr [JStr "/api/locations/1"; JStr "/api/locations/9"]))
  = Emit [mkDeleteResult "Location" [JStr "/api/locations/1"; JStr "/api/locations/9"]
                         "" DELETE].
Proof.
  assert (Hrows : exists rows, mapGet (objectStores Scenario.afterLocation) "Location"
                               = Some rows)
    by (vm_compute; eexists; reflexivity).
  destruct Hrows as [rows Hrows].
  destruct (@deleteRows_unlinked Scenario.acceptAll Scenario.afterLocation "Location"
              (JArr [JStr "/api/locations/1"; JStr "/api/locations/9"]) rows
              [KStr "/api/locations/1"; KStr "/api/locations/9"]) as [Hdelete _].
  - reflexivity.
  - exact Hrows.
  - intros (parent & links & prop & Hin & _). vm_compute in Hin. exact Hin.
  - vm_compute. reflexivity.
  - repeat constructor; cbn; intuition discriminate.
  - discriminate.
  - rewrite Hdelete. reflexivity.
Defined.

(** X16. [deleteRows] never emits, and does not fail either, when the
    list of keys is empty or its last key stands in the list before; the
    rows under the keys are deleted all the same. *)
Theorem deleteRows_never_emits V st store primaryKeys rows ks :
  connected st = true ->
  mapGet (objectStores st) store = Some rows ->
  toKeys (map extractUuid (asArray primaryKeys)) = Some ks ->
  (map extractUuid (asArray primaryKeys) = []
   \/ exists pre last,
        map extractUuid (asArray primaryKeys) = (pre ++ [last])%list /\ In last pre) ->
  deleteRows V st store primaryKeys
  = (Silent, withStores st (mapSet (objectStores st) store (rowsWithout rows ks))).
Proof.
  intros Hconnected Hrows Hkeys Hshape.
  unfold deleteRows, deleteContentFromStore. rewrite Hconnected, Hrows. cbn [negb].
  set (idKeys := map extractUuid (asArray primaryKeys)) in *.
  rewrite (@deleteKeys_valid idKeys rows ks Hkeys).
  assert (Hsilent : existsb (fun key => match indexOf idKeys key 0 with
                                        | Some i => (S i =? List.length idKeys)%nat
                                        | None => false
                                        end) idKeys = false).
  { destruct Hshape as [-> | (pre & last & Hlast & Hin)]; [reflexivity|].
    rewrite Hlast.
    destruct (existsb _ (pre ++ [last])) eqn:E; [|reflexivity]. exfalso.
    apply existsb_exists in E as (key & _ & Hkey).
    destruct (indexOf (pre ++ [last]) key 0) as [i|] eqn:Ei; [|discriminate Hkey].
    apply Nat.eqb_eq in Hkey. rewrite length_app in Hkey. cbn in Hkey.
    assert (Hi : i = List.length pre) by lia. subst i.
    destruct (@indexOf_first _ _ _ _ Ei) as (_ & Hat & Hbefore).
    rewrite Nat.sub_0_r in *.
    rewrite app_nth2, Nat.sub_diag in Hat by lia. cbn in Hat.
    destruct (@In_nth _ pre last JUndefined Hin) as (m & Hm & Hnth).
    specialize (Hbefore m Hm). rewrite app_nth1, Hnth in Hbefore by exact Hm.
    congruence. }
  rewrite Hsilent. reflexivity.
Qed.

Lemma deleteRows_never_emits_witness :
  deleteRows Scenario.acceptAll Scenario.afterLocation "Location"
             (JArr [JStr "/api/locations/1"; JStr "/api/locations/1"])
  = (Silent,
     withStores Scenario.afterLocation
                (mapSet (objectStores Scenario.afterLocation) "Location" [])).
Proof.
  assert (Hrows : mapGet (objectStores Scenario.afterLocation) "Location"
                  = Some [(KStr "/api/locations/1",
                           JObj [("@id", JStr "/api/locations/1"); ("name", JStr "Test");
                                 ("__pkey__", JStr "/api/locations/1")])])
    by (vm_compute; reflexivity).
  rewrite (@deleteRows_never_emits Scenario.acceptAll Scenario.afterLocation "Location"
             (JArr [JStr "/api/locations/1"; JStr "/api/locations/1"]) _
             [KStr "/api/locations/1"; KStr "/api/locations/1"] eq_refl Hrows).
  - reflexivity.
  - vm_compute. reflexivity.
  - right. exists [JStr "/api/locations/1"], (JStr "/api/locations/1").
    split; [vm_compute; reflexivity | now left].
Defined.

(* ------------------------------------------------------------------ *)
(** ** Reading a whole store *)

Lemma ascii_compare_trans a b c :
  Ascii.compare a b = Lt -> Ascii.compare b c = Lt -> Ascii.compare a c = Lt.
Proof.
  unfold Ascii.compare. rewrite !N.compare_lt_iff. apply N.lt_trans.
Qed.

Lemma string_compare_trans x : forall y z,
  String.compare x y = Lt -> String.compare y z = Lt -> String.compare x z = Lt.
Proof.
  induction x as [|a x IH]; intros [|b y] [|c z]; cbn; try congruence.
  destruct (Ascii.compare a b) eqn:Eab; try congruence.
  - apply Ascii.compare_eq_iff in Eab. subst b.
    destruct (Ascii.compare a c); try congruence. apply IH.
  - destruct (Ascii.compare b c) eqn:Ebc; try congruence.
    + apply Ascii.compare_eq_iff in Ebc. subst c. rewrite Eab. reflexivity.
    + rewrite (ascii_compare_trans _ _ _ Eab Ebc). reflexivity.
Qed.

Lemma string_compare_refl x : String.compare x x = Eq.
Proof.
  induction x as [|a x IH]; cbn; [reflexivity|].
  assert (Ascii.compare a a = Eq) as ->; [|exact IH].
  unfold Ascii.compare. apply N.compare_refl.
Qed.

Lemma keyLtb_irrefl k : keyLtb k k = false.
Proof.
  destruct k as [n|s]; cbn; [apply Z.ltb_irrefl|].
  unfold String.ltb. rewrite string_compare_refl. reflexivity.
Qed.

Lemma keyLtb_trans a b c :
  keyLtb a b = true -> keyLtb b c = true -> keyLtb a c = true.
Proof.
  destruct a as [x|x], b as [y|y], c as [z|z]; cbn; try congruence.
  - rewrite !Z.ltb_lt. lia.
  - unfold String.ltb.
    destruct (String.compare x y) eqn:Exy; try congruence.
    destruct (String.compare y z) eqn:Eyz; try congruence.
    rewrite (string_compare_trans _ _ _ Exy Eyz). reflexivity.
Qed.

Lemma keyLtb_total a b : keyLtb a b = false -> a <> b -> keyLtb b a = true.
Proof.
  destruct a as [x|x], b as [y|y]; cbn; try congruence.
  - rewrite Z.ltb_ge, Z.ltb_lt. intros H Hne.
    assert (x <> y) by congruence. lia.
  - unfold String.ltb. rewrite (String.compare_antisym x y).
    destruct (String.compare y x) eqn:E; cbn; try congruence.
    apply String.compare_eq_iff in E. congruence.
Qed.

Lemma insertByKey_permutation row sorted :
  Permutation (row :: sorted) (insertByKey row sorted).
Proof.
  induction sorted as [|r rest IH]; cbn [insertByKey]; [reflexivity|].
  destruct (keyLtb (fst row) (fst r)); [reflexivity|].
  etransitivity; [apply perm_swap|]. apply perm_skip, IH.
Qed.

Lemma inKeyOrder_permutation (rows : Rows) :
  Permutation rows (fold_right insertByKey [] rows).
Proof.
  induction rows as [|row rows IH]; cbn [fold_right]; [reflexivity|].
  etransitivity; [apply perm_skip, IH|]. apply insertByKey_permutation.
Qed.

Lemma getAll_permutation (rows : Rows) :
  Permutation (map snd rows) (getAll rows).
Proof.
  unfold getAll. apply Permutation_map, inKeyOrder_permutation.
Qed.

Lemma insertByKey_sorted row sorted :
  StronglySorted (fun a b : IdbKey * JsVal => keyLtb (fst a) (fst b) = true) sorted ->
  ~ In (fst row) (map fst sorted) ->
  StronglySorted (fun a b : IdbKey * JsVal => keyLtb (fst a) (fst b) = true)
                 (insertByKey row sorted).
Proof.
  induction 1 as [|r rest Hs IH Hall]; intros Hnew; cbn [insertByKey].
  - constructor; constructor.
  - destruct (keyLtb (fst row) (fst r)) eqn:E.
    + constructor; [constructor; assumption|].
      constructor; [exact E|].
      rewrite Forall_forall in *. intros x Hx.
      apply keyLtb_trans with (fst r); [exact E|apply Hall, Hx].
    + assert (Hlt : keyLtb (fst r) (fst row) = true).
      { apply keyLtb_total; [exact E|]. intros Heq. apply Hnew. left. congruence. }
      constructor.
      * apply IH. intros Hin. apply Hnew. right. exact Hin.
      * rewrite Forall_forall in *. intros x Hx.
        apply (Permutation_in _ (Permutation_sym (insertByKey_permutation row rest))) in Hx.
        destruct Hx as [<-|Hx]; [exact Hlt|apply Hall, Hx].
Qed.

Lemma inKeyOrder_sorted (rows : Rows) :
  NoDup (map fst rows) ->
  StronglySorted (fun a b : IdbKey * JsVal => keyLtb (fst a) (fst b) = true)
                 (fold_right insertByKey [] rows).
Proof.
  induction rows as [|row rows IH]; cbn [fold_right map]; intros Hnd.
  - constructor.
  - inversion Hnd as [|? ? Hnotin Hnd']; subst.
    apply insertByKey_sorted; [apply IH, Hnd'|].
    intros Hin. apply Hnotin.
    apply (Permutation_in _ (Permutation_sym
             (Permutation_map fst (inKeyOrder_permutation rows)))), Hin.
Qed.

Lemma sorted_by_key_unique (l : Rows) : forall l' : Rows,
  StronglySorted (fun a b : IdbKey * JsVal => keyLtb (fst a) (fst b) = true) l ->
  StronglySorted (fun a b : IdbKey * JsVal => keyLtb (fst a) (fst b) = true) l' ->
  Permutation l l' -> l = l'.
Proof.
  induction l as [|a t IH]; intros l' Hs Hs' Hp.
  - apply Permutation_nil in Hp. congruence.
  - destruct l' as [|b t']; [apply Permutation_sym, Permutation_nil in Hp; discriminate|].
    inversion Hs as [|? ? Hst Hat]; subst. inversion Hs' as [|? ? Hst' Hbt]; subst.
    rewrite Forall_forall in Hat, Hbt.
    assert (a = b) as ->.
    { assert (Ha : In a (b :: t')) by (apply (Permutation_in _ Hp); left; reflexivity).
      assert (Hb : In b (a :: t))
        by (apply (Permutation_in _ (Permutation_sym Hp)); left; reflexivity).
      destruct Ha as [Ha|Ha]; [congruence|]. destruct Hb as [Hb|Hb]; [congruence|].
      pose proof (keyLtb_trans _ _ _ (Hat _ Hb) (Hbt _ Ha)) as Habs.
      rewrite keyLtb_irrefl in Habs. discriminate. }
    f_equal. apply IH; [assumption|assumption|].
    apply Permutation_cons_inv with b. exact Hp.
Qed.

Lemma getAll_order_free (rows rows' : Rows) :
  NoDup (map fst rows) -> Permutation rows rows' -> getAll rows = getAll rows'.
Proof.
  intros Hnd Hp. unfold getAll. f_equal.
  apply sorted_by_key_unique.
  - apply inKeyOrder_sorted, Hnd.
  - apply inKeyOrder_sorted.
    apply (Permutation_NoDup (Permutation_map fst Hp)), Hnd.
  - etransitivity; [apply Permutation_sym, inKeyOrder_permutation|].
    etransitivity; [exact Hp|]. apply inKeyOrder_permutation.
Qed.

Lemma sortContent_sortable content sortOptions :
  sortable content sortOptions ->
  exists sorted, sortContent content sortOptions = Ok sorted /\ Permutation content sorted.
Proof.
  destruct sortOptions as [opts|]; cbn [sortable sortContent]; intros Hok;
    [|exists content; split; reflexivity].
  destruct (column opts =? "")%string; [exists content; split; reflexivity|].
  destruct (@jsSort_sorted JsVal (sortComparator opts) (fun _ _ => True)
              (resolvesAt (splitDot (column opts) ""))) with (l := content)
    as (sorted & Hsort & Hperm & _); [|exact Hok|].
  - intros a b [va Ha] [vb Hb]. unfold sortComparator. rewrite Ha, Hb. cbn [bindR].
    eexists. split; [reflexivity|]. split; trivial.
  - exists sorted. split; assumption.
Qed.

Lemma In_firstn {T} (x : T) n : forall l, In x (firstn n l) -> In x l.
Proof.
  induction n as [|n IH]; intros [|y l]; cbn; try tauto.
  intros [H|H]; [left; exact H | right; apply IH, H].
Qed.

Lemma In_skipn {T} (x : T) n : forall l, In x (skipn n l) -> In x l.
Proof.
  induction n as [|n IH]; intros [|y l]; cbn; try tauto.
  intros H. right. apply IH, H.
Qed.

Lemma In_slice {T} (x : T) content start end_ :
  In x (slice content start end_) -> In x content.
Proof.
  unfold slice. intros H. eapply In_skipn, In_firstn, H.
Qed.

Lemma In_paginateContent {T} (x : T) content pageOptions :
  In x (paginateContent content pageOptions) -> In x content.
Proof.
  unfold paginateContent. destruct pageOptions as [[pg size [[|]|]]|]; try tauto;
    cbn [page pageSize];
    repeat match goal with
           | |- context [if ?c then _ else _] => destruct c
           end; try tauto; apply In_slice.
Qed.



Lemma getContentByIdFrom_missing fuel st store key :
  (forall v, createResultObservable fuel st store key <> Emit v) ->
  forall gpsIds previous, In key gpsIds ->
  forall v, getContentByIdFrom fuel st store gpsIds previous <> Emit v.
Proof.
  intros Hkey gpsIds. induction gpsIds as [|g rest IH]; intros previous Hin v;
    [contradiction|].
  cbn [getContentByIdFrom].
  destruct Hin as [->|Hin].
  - destruct (createResultObservable fuel st store key) eqn:E; try discriminate.
    exfalso. exact (Hkey _ eq_refl).
  - destruct (createResultObservable fuel st store g); try discriminate.
    apply IH, Hin.
Qed.

Lemma createResultObservable_missing fuel st store key k rows :
  mapGet (objectStores st) store = Some rows ->
  toKey key = Some k ->
  rowsGet rows k = None ->
  createResultObservable (S fuel) st store key = Silent.
Proof.
  intros Hs Hk Hr. cbn [createResultObservable]. rewrite Hs, Hk, Hr. reflexivity.
Qed.

(** X17. Reading by keys of which one is not in the store gives no result at
    all for the whole request, not even the rows of the other keys; when the
    first key is the missing one the request ends without a row and without
    an error. *)
Theorem get_missing_key fuel st store primaryKeys key k rows :
  connected st = true ->
  mapGet (objectStores st) store = Some rows ->
  In key (asArray primaryKeys) ->
  toKey key = Some k ->
  rowsGet rows k = None ->
  (forall v, get (S fuel) st store primaryKeys <> Emit v)
  /\ (hd JUndefined (asArray primaryKeys) = key ->
      get (S fuel) st store primaryKeys = Silent).
Proof.
  intros Hc Hs Hin Hk Hr.
  pose proof (createResultObservable_missing fuel st store key Hs Hk Hr) as Hmiss.
  unfold get. rewrite Hc. cbn [negb]. unfold getContentById. split.
  - intros v.
    assert (Hno : forall w, getContentByIdFrom (S fuel) st store (asArray primaryKeys) []
                            <> Emit w).
    { apply getContentByIdFrom_missing with key; [|exact Hin].
      intros w. rewrite Hmiss. discriminate. }
    destruct (asArray primaryKeys) as [|g rest] eqn:Ea; [contradiction|].
    destruct (getContentByIdFrom (S fuel) st store (g :: rest) []) eqn:E; try discriminate.
    exfalso. exact (Hno _ eq_refl).
  - intros Hhd. destruct (asArray primaryKeys) as [|g rest] eqn:Ea; [contradiction|].
    cbn [hd] in Hhd. subst g. cbn [getContentByIdFrom]. rewrite Hmiss. reflexivity.
Qed.

Lemma get_missing_key_witness :
  (forall v, get 1 (withStores Scenario.afterLocation [("Location", [(KStr "a", JObj [])])])
                 "Location" (JArr [JStr "a"; JStr "b"]) <> Emit v)
  /\ (hd JUndefined (asArray (JArr [JStr "b"; JStr "a"])) = JStr "b" ->
      get 1 (withStores Scenario.afterLocation [("Location", [(KStr "a", JObj [])])])
            "Location" (JArr [JStr "b"; JStr "a"]) = Silent).
Proof.
  split.
  - apply (@get_missing_key 0
             (withStores Scenario.afterLocation [("Location", [(KStr "a", JObj [])])])
             "Location" (JArr [JStr "a"; JStr "b"]) (JStr "b") (KStr "b")
             [(KStr "a", JObj [])]);
      [reflexivity | reflexivity | cbn; tauto | reflexivity | reflexivity].
  - apply (@get_missing_key 0
             (withStores Scenario.afterLocation [("Location", [(KStr "a", JObj [])])])
             "Location" (JArr [JStr "b"; JStr "a"]) (JStr "b") (KStr "b")
             [(KStr "a", JObj [])]);
      [reflexivity | reflexivity | cbn; tauto | reflexivity | reflexivity].
Defined.

Lemma getSortedContent_store st store rows sortOptions :
  mapGet (objectStores st) store = Some rows ->
  Retrieve.getSortedContent st store sortOptions
  = ofResult (sortContent (getAll rows) sortOptions).
Proof.
  intros Hs. unfold Retrieve.getSortedContent, Retrieve.getContentByStore.
  rewrite Hs. reflexivity.
Qed.



(** X19. [filter] on a store that exists, with rows that can be sorted,
    answers with rows of the store that the callback accepts, without their
    tags, and with nothing else; without page options no accepted row is
    left out. *)
Theorem filter_sound_complete st store callback pageOptions sortOptions rows :
  connected st = true ->
  mapGet (objectStores st) store = Some rows ->
  sortable (getAll rows) sortOptions ->
  exists selected,
    TtPersistenceService.filter st store callback pageOptions sortOptions
    = Emit (JArr (map cleanNested selected))
    /\ (forall row, In row selected -> In row (map snd rows) /\ callback row = true)
    /\ (pageOptions = None ->
        forall row, In row (map snd rows) -> callback row = true -> In row selected).
Proof.
  intros Hc Hs Hsort. unfold TtPersistenceService.filter. rewrite Hc. cbn [negb].
  rewrite (getSortedContent_store st store sortOptions Hs).
  destruct (sortContent_sortable _ _ Hsort) as (sorted & -> & Hperm).
  cbn [ofResult]. unfold Retrieve.matchCallbackToContent.
  cbn [removeGeneratedIdKeyFromContent].
  eexists. split; [reflexivity|]. split.
  - intros row Hin. apply In_paginateContent in Hin.
    apply filter_In in Hin. destruct Hin as [Hin Hcb]. split; [|exact Hcb].
    apply (Permutation_in _ (Permutation_sym (getAll_permutation rows))).
    apply (Permutation_in _ (Permutation_sym Hperm)), Hin.
  - intros -> row Hin Hcb. cbn [paginateContent]. apply filter_In. split; [|exact Hcb].
    apply (Permutation_in _ Hperm).
    apply (Permutation_in _ (getAll_permutation rows)), Hin.
Qed.

Lemma filter_sound_complete_witness :
  exists selected,
    TtPersistenceService.filter
      (withStores Scenario.afterLocation
                  [("Location", [(KStr "b", JObj [("n", JNum 2)]);
                                 (KStr "a", JObj [("n", JNum 1)])])])
      "Location"
      (fun row => match row with JObj [("n", JNum 2)] => true | _ => false end)
      None (Some (mkSorting "n" (Some "asc")))
    = Emit (JArr (map cleanNested selected))
    /\ (forall row, In row selected ->
         In row (map snd [(KStr "b", JObj [("n", JNum 2)]);
                          (KStr "a", JObj [("n", JNum 1)])])
         /\ (fun row => match row with JObj [("n", JNum 2)] => true | _ => false end) row
            = true)
    /\ (@None RetrieveByPageOptions = None ->
        forall row, In row (map snd [(KStr "b", JObj [("n", JNum 2)]);
                                     (KStr "a", JObj [("n", JNum 1)])]) ->
        (fun row => match row with JObj [("n", JNum 2)] => true | _ => false end) row
        = true -> In row selected).
Proof.
  apply (@filter_sound_complete
           (withStores Scenario.afterLocation
                       [("Location", [(KStr "b", JObj [("n", JNum 2)]);
                                      (KStr "a", JObj [("n", JNum 1)])])])
           "Location"
           (fun row => match row with JObj [("n", JNum 2)] => true | _ => false end)
           None (Some (mkSorting "n" (Some "asc")))
           [(KStr "b", JObj [("n", JNum 2)]); (KStr "a", JObj [("n", JNum 1)])]);
    [reflexivity | reflexivity |].
  repeat constructor; eexists; vm_compute; reflexivity.
Defined.

(** X20. What the reads of a whole store answer does not depend on the order
    in which the rows were written: two databases that hold the same rows of
    a store, each key once, give the same page, the same filtered rows, the
    same found row and the same search result. *)
Theorem reads_ignore_insertion_order st st' store rows rows'
    getOptions callback searchOptions pageOptions sortOptions :
  connected st = connected st' ->
  mapGet (objectStores st) store = Some rows ->
  mapGet (objectStores st') store = Some rows' ->
  NoDup (map fst rows) ->
  Permutation rows rows' ->
  TtPersistenceService.getPage st store getOptions sortOptions
  = TtPersistenceService.getPage st' store getOptions sortOptions
  /\ TtPersistenceService.filter st store callback pageOptions sortOptions
     = TtPersistenceService.filter st' store callback pageOptions sortOptions
  /\ TtPersistenceService.find st store callback
     = TtPersistenceService.find st' store callback
  /\ TtPersistenceService.search st store searchOptions pageOptions sortOptions
     = TtPersistenceService.search st' store searchOptions pageOptions sortOptions.
Proof.
  intros Hc Hs Hs' Hnd Hp.
  pose proof (getAll_order_free Hnd Hp) as Hall.
  unfold TtPersistenceService.getPage, TtPersistenceService.filter,
    TtPersistenceService.find, TtPersistenceService.search.
  rewrite !(getSortedContent_store st store _ Hs),
          !(getSortedContent_store st' store _ Hs').
  unfold Retrieve.getContentByStore. rewrite Hs, Hs', Hc, Hall.
  repeat split; reflexivity.
Qed.

Lemma reads_ignore_insertion_order_witness :
  TtPersistenceService.getPage
    (withStores Scenario.afterLocation
                [("Location", [(KStr "b", JObj [("n", JNum 2)]);
                               (KStr "a", JObj [("n", JNum 1)])])])
    "Location" (mkPage 1 1 None) None
  = TtPersistenceService.getPage
      (withStores Scenario.afterLocation
                  [("Location", [(KStr "a", JObj [("n", JNum 1)]);
                                 (KStr "b", JObj [("n", JNum 2)])])])
      "Location" (mkPage 1 1 None) None.
Proof.
  apply (@reads_ignore_insertion_order
           (withStores Scenario.afterLocation
                       [("Location", [(KStr "b", JObj [("n", JNum 2)]);
                                      (KStr "a", JObj [("n", JNum 1)])])])
           (withStores Scenario.afterLocation
                       [("Location", [(KStr "a", JObj [("n", JNum 1)]);
                                      (KStr "b", JObj [("n", JNum 2)])])])
           "Location"
           [(KStr "b", JObj [("n", JNum 2)]); (KStr "a", JObj [("n", JNum 1)])]
           [(KStr "a", JObj [("n", JNum 1)]); (KStr "b", JObj [("n", JNum 2)])]
           (mkPage 1 1 None) (fun _ => true) (Retrieve.mkSearch "x" "n") None None);
    [reflexivity | reflexivity | reflexivity | | apply perm_swap].
  repeat constructor; cbn; intuition discriminate.
Defined.


(* ------------------------------------------------------------------ *)
(** ** Searching *)

Lemma lowerCaseChar_idempotent c : lowerCaseChar (lowerCaseChar c) = lowerCaseChar c.
Proof.
  destruct c as [[] [] [] [] [] [] [] []]; vm_compute; reflexivity.
Qed.

Lemma toLowerCase_idempotent s : toLowerCase (toLowerCase s) = toLowerCase s.
Proof.
  induction s as [|c s IH]; cbn [toLowerCase]; [reflexivity|].
  rewrite lowerCaseChar_idempotent, IH. reflexivity.
Qed.

Lemma checkResultForSearchTerm_lower result searchTerm :
  Retrieve.checkResultForSearchTerm result (toLowerCase searchTerm)
  = Retrieve.checkResultForSearchTerm result searchTerm.
Proof.
  unfold Retrieve.checkResultForSearchTerm. rewrite toLowerCase_idempotent. reflexivity.
Qed.

Lemma traverseItemPath_lower path searchTerm :
  forall item,
    Retrieve.traverseItemPath item path (toLowerCase searchTerm)
    = Retrieve.traverseItemPath item path searchTerm.
Proof.
  induction path as [|p rest IH]; intros item; [reflexivity|].
  cbn [Retrieve.traverseItemPath].
  destruct (hasOwnProperty item p) as [has| |]; cbn [bindR]; try reflexivity.
  destruct has; cbn [negb]; [|reflexivity].
  destruct (getProp item p) as [value| |]; cbn [bindR]; try reflexivity.
  destruct rest as [|q rest']; [rewrite checkResultForSearchTerm_lower; reflexivity|].
  destruct (typeofObject value); [|reflexivity].
  destruct value; try apply IH.
  induction items as [|nested more IHm]; [reflexivity|].
  rewrite IH.
  destruct (Retrieve.traverseItemPath nested (q :: rest') searchTerm) as [found| |];
    cbn [bindR]; try reflexivity.
  destruct found; [reflexivity | exact IHm].
Qed.

Lemma filterR_pointwise f g l :
  (forall x, f x = g x) -> Retrieve.filterR f l = Retrieve.filterR g l.
Proof.
  intros H. induction l as [|x l IH]; cbn [Retrieve.filterR]; [reflexivity|].
  rewrite H, IH. reflexivity.
Qed.

(** X21. A search does not look at the case of the letters of its term: the
    term and the term in small letters give the same result. *)
Theorem search_term_case st store searchTerm column pageOptions sortOptions :
  TtPersistenceService.search st store (Retrieve.mkSearch (toLowerCase searchTerm) column)
                              pageOptions sortOptions
  = TtPersistenceService.search st store (Retrieve.mkSearch searchTerm column)
                                pageOptions sortOptions.
Proof.
  unfold TtPersistenceService.search.
  destruct (negb (connected st)); [reflexivity|].
  destruct (Retrieve.getSortedContent st store sortOptions) as [content| | |];
    try reflexivity.
  unfold Retrieve.matchSearchTermToContent. cbn [Retrieve.term Retrieve.index].
  rewrite (@filterR_pointwise
             (fun item => Retrieve.traverseItemPath item (splitDot column "")
                                                    (toLowerCase searchTerm))
             (fun item => Retrieve.traverseItemPath item (splitDot column "") searchTerm));
    [reflexivity|].
  intros x. apply traverseItemPath_lower.
Qed.

(** [traverseItemPath] returns or throws a [TypeError]. *)
Lemma traverseItemPath_outcome path searchTerm :
  forall item,
    (exists found, Retrieve.traverseItemPath item path searchTerm = Ok found)
    \/ (exists e, Retrieve.traverseItemPath item path searchTerm = Throw e /\ isTypeError e).
Proof.
  induction path as [|p rest IH]; intros item.
  - left. eexists. reflexivity.
  - cbn [Retrieve.traverseItemPath].
    destruct (hasOwnProperty_outcome item p) as [[has ->]|[e [-> He]]];
      [|right; exists e; split; [reflexivity | exact He]].
    cbn [bindR]. destruct has; cbn [negb]; [|left; eexists; reflexivity].
    destruct (getProp_outcome item p) as [[value ->]|[e [-> He]]];
      [|right; exists e; split; [reflexivity | exact He]].
    cbn [bindR]. destruct rest as [|q rest']; [left; eexists; reflexivity|].
    destruct (typeofObject value); [|left; eexists; reflexivity].
    destruct value; try apply IH.
    induction items as [|nested more IHm]; [left; eexists; reflexivity|].
    destruct (IH nested) as [[found ->]|[e [-> He]]];
      [|right; exists e; split; [reflexivity | exact He]].
    cbn [bindR]. destruct found; [left; eexists; reflexivity | exact IHm].
Qed.

Lemma traverseItemPath_null fields p q rest searchTerm :
  mapGet fields p = Some JNull ->
  exists e, Retrieve.traverseItemPath (JObj fields) (p :: q :: rest) searchTerm = Throw e
            /\ isTypeError e.
Proof.
  intros Hp. cbn [Retrieve.traverseItemPath hasOwnProperty getProp].
  unfold mapHas, getField. rewrite Hp. cbn.
  eexists. split; [reflexivity|]. eexists. reflexivity.
Qed.

Lemma filterR_bad path searchTerm bad l :
  In bad l ->
  (exists e, Retrieve.traverseItemPath bad path searchTerm = Throw e /\ isTypeError e) ->
  exists e,
    Retrieve.filterR (fun item => Retrieve.traverseItemPath item path searchTerm) l = Throw e
    /\ isTypeError e.
Proof.
  intros Hin Hbad. induction l as [|x l IH]; [contradiction|].
  cbn [Retrieve.filterR].
  destruct (traverseItemPath_outcome path searchTerm x) as [[found Hx]|[e [Hx He]]].
  - rewrite Hx. cbn [bindR].
    destruct Hin as [->|Hin].
    + destruct Hbad as (e & Hb & _). congruence.
    + destruct (IH Hin) as (e & -> & He). cbn [bindR].
      exists e. split; [reflexivity | exact He].
  - rewrite Hx. cbn [bindR]. exists e. split; [reflexivity | exact He].
Qed.

(** X22. One row that holds [null] where the search column goes on to a
    nested property makes the whole search fail with a [TypeError]: no row
    is answered, also not the rows that match. *)
Theorem search_null_on_path st store rows column searchTerm p q rest fields
    pageOptions sortOptions :
  connected st = true ->
  mapGet (objectStores st) store = Some rows ->
  sortable (getAll rows) sortOptions ->
  splitDot column "" = p :: q :: rest ->
  In (JObj fields) (map snd rows) ->
  mapGet fields p = Some JNull ->
  exists e,
    TtPersistenceService.search st store (Retrieve.mkSearch searchTerm column)
                                pageOptions sortOptions = Fail e
    /\ isTypeError e.
Proof.
  intros Hc Hs Hsort Hpath Hin Hnull.
  unfold TtPersistenceService.search. rewrite Hc. cbn [negb].
  rewrite (getSortedContent_store st store sortOptions Hs).
  destruct (sortContent_sortable _ _ Hsort) as (sorted & -> & Hperm).
  cbn [ofResult]. unfold Retrieve.matchSearchTermToContent.
  cbn [Retrieve.term Retrieve.index]. rewrite Hpath.
  destruct (@filterR_bad (p :: q :: rest) searchTerm (JObj fields) sorted) as (e & -> & He).
  - apply (Permutation_in _ Hperm).
    apply (Permutation_in _ (getAll_permutation rows)), Hin.
  - apply traverseItemPath_null, Hnull.
  - cbn [bindR]. exists e. split; [reflexivity | exact He].
Qed.

Lemma search_null_on_path_witness :
  exists e,
    TtPersistenceService.search
      (withStores Scenario.afterLocation
                  [("Person", [(KStr "p1", JObj [("home", JObj [("city", JStr "Delft")])]);
                               (KStr "p2", JObj [("home", JNull)])])])
      "Person" (Retrieve.mkSearch "delft" "home.city") None None = Fail e
    /\ isTypeError e.
Proof.
  apply (@search_null_on_path
           (withStores Scenario.afterLocation
                       [("Person", [(KStr "p1", JObj [("home", JObj [("city", JStr "Delft")])]);
                                    (KStr "p2", JObj [("home", JNull)])])])
           "Person"
           [(KStr "p1", JObj [("home", JObj [("city", JStr "Delft")])]);
            (KStr "p2", JObj [("home", JNull)])]
           "home.city" "delft" "home" "city" [] [("home", JNull)] None None);
    [reflexivity | reflexivity | exact I | reflexivity | cbn; tauto | reflexivity].
Defined.

(* ------------------------------------------------------------------ *)
(** ** Clearing and deleting, then reading *)

Lemma getPage_empty st store getOptions sortOptions :
  connected st = true ->
  mapGet (objectStores st) store = Some [] ->
  TtPersistenceService.getPage st store getOptions sortOptions = Emit (JArr []).
Proof.
  intros Hc Hs. unfold TtPersistenceService.getPage, Retrieve.getContentByStore.
  rewrite Hc, Hs. cbn [negb getAll fold_right map].
  assert (sortContent [] sortOptions = Ok []) as ->.
  { destruct sortOptions as [o|]; cbn [sortContent]; [|reflexivity].
    destruct (column o =? "")%string; reflexivity. }
  destruct getOptions as [pg size [[|]|]]; cbn [paginateContent page pageSize];
    try reflexivity;
    destruct (0 <=? (pg - 1) * size); try reflexivity;
    destruct (Z.of_nat (List.length (@nil JsVal)) <=? size); try reflexivity;
    unfold slice; rewrite skipn_nil, firstn_nil; reflexivity.
Qed.

(** X23. [clear] of a store that exists emits [true] once and no error;
    afterwards the store is still there and empty, so that a page of it is
    the empty list and [find] gives the empty object, while the rows of the
    other stores, the settings and the index names are as before. *)
Theorem clear_then_read st store rows :
  connected st = true ->
  mapGet (objectStores st) store = Some rows ->
  fst (clear st store) = [Next true]
  /\ (forall getOptions sortOptions,
        TtPersistenceService.getPage (snd (clear st store)) store getOptions sortOptions
        = Emit (JArr []))
  /\ (forall callback,
        TtPersistenceService.find (snd (clear st store)) store callback = Emit (JObj []))
  /\ (forall other, other <> store ->
        mapGet (objectStores (snd (clear st store))) other
        = mapGet (objectStores st) other)
  /\ settings (snd (clear st store)) = settings st
  /\ storageMap (snd (clear st store)) = storageMap st.
Proof.
  intros Hc Hs. unfold clear, mapHas. rewrite Hc, Hs. cbn [negb fst snd app].
  assert (Hempty : mapGet (objectStores (withStores st (mapSet (objectStores st) store [])))
                          store = Some []).
  { cbn [withStores objectStores]. apply mapGet_mapSet_same. }
  split; [reflexivity|]. split; [|split; [|split; [|split; reflexivity]]].
  - intros getOptions sortOptions. apply getPage_empty; [exact Hc | exact Hempty].
  - intros callback. unfold TtPersistenceService.find.
    cbn [withStores connected]. rewrite Hc. cbn [negb].
    rewrite (getSortedContent_store _ store None Hempty). reflexivity.
  - intros other Hne. cbn [withStores objectStores].
    apply mapGet_mapSet_other. congruence.
Qed.

Lemma clear_then_read_witness :
  fst (clear Scenario.afterPerson "Location") = [Next true]
  /\ mapGet (objectStores (snd (clear Scenario.afterPerson "Location"))) "Person"
     = mapGet (objectStores Scenario.afterPerson) "Person".
Proof.
  assert (Hrows : exists rows, mapGet (objectStores Scenario.afterPerson) "Location"
                               = Some rows)
    by (vm_compute; eexists; reflexivity).
  destruct Hrows as [rows Hrows].
  destruct (@clear_then_read Scenario.afterPerson "Location" rows eq_refl Hrows)
    as (Hnotes & _ & _ & Hother & _).
  split; [exact Hnotes|]. apply Hother. discriminate.
Defined.

Lemma deleteRows_state_unlinked V st store primaryKeys rows ks :
  connected st = true ->
  mapGet (objectStores st) store = Some rows ->
  ~ linkedFrom (linkMap st) store ->
  toKeys (map extractUuid (asArray primaryKeys)) = Some ks ->
  snd (deleteRows V st store primaryKeys)
  = withStores st (mapSet (objectStores st) store (rowsWithout rows ks)).
Proof.
  intros Hconnected Hrows Hnone Hkeys.
  unfold deleteRows, deleteContentFromStore. rewrite Hconnected, Hrows. cbn [negb].
  rewrite (@deleteKeys_valid (map extractUuid (asArray primaryKeys)) rows ks Hkeys).
  destruct (existsb _ _); [|reflexivity].
  unfold checkAndPruneParents, createParentDeleteMap.
  rewrite createParentLinkMap_unlinked by exact Hnone. reflexivity.
Qed.

(** X24. After the rows of some keys were deleted from a store that no other
    store links to, reading one of those keys, in the form the delete made
    of it, ends without a row and without an error. *)
Theorem delete_then_get V st store primaryKeys rows ks fuel key :
  connected st = true ->
  mapGet (objectStores st) store = Some rows ->
  ~ linkedFrom (linkMap st) store ->
  toKeys (map extractUuid (asArray primaryKeys)) = Some ks ->
  In key (map extractUuid (asArray primaryKeys)) ->
  get (S fuel) (snd (deleteRows V st store primaryKeys)) store key = Silent.
Proof.
  intros Hconnected Hrows Hnone Hkeys Hin.
  rewrite (@deleteRows_state_unlinked V st store primaryKeys rows ks Hconnected Hrows Hnone Hkeys).
  destruct (@toKeys_In _ ks key Hkeys Hin) as (k & Hk & Hink).
  unfold get. cbn [withStores connected]. rewrite Hconnected. cbn [negb].
  assert (Harr : asArray key = [key]) by (destruct key; try reflexivity; discriminate Hk).
  rewrite Harr. unfold getContentById. cbn [getContentByIdFrom].
  rewrite (@createResultObservable_missing fuel _ store key k (rowsWithout rows ks));
    [reflexivity | cbn [withStores objectStores]; apply mapGet_mapSet_same | exact Hk |].
  rewrite rowsGet_rowsWithout.
  assert (existsb (fun k' => keyEqb k' k) ks = true) as ->; [|reflexivity].
  apply existsb_exists. exists k. split; [exact Hink | apply keyEqb_refl].
Qed.

Lemma delete_then_get_witness :
  get 1 (snd (deleteRows Scenario.acceptAll Scenario.afterLocation "Location"
                         (JStr "/api/locations/1")))
      "Location" (JStr "/api/locations/1") = Silent.
Proof.
  assert (Hrows : exists rows, mapGet (objectStores Scenario.afterLocation) "Location"
                               = Some rows)
    by (vm_compute; eexists; reflexivity).
  destruct Hrows as [rows Hrows].
  apply (@delete_then_get Scenario.acceptAll Scenario.afterLocation "Location"
           (JStr "/api/locations/1") rows [KStr "/api/locations/1"] 0
           (JStr "/api/locations/1")).
  - reflexivity.
  - exact Hrows.
  - intros (parent & links & prop & Hin & _). vm_compute in Hin. exact Hin.
  - vm_compute. reflexivity.
  - vm_compute. left. reflexivity.
Defined.

(* ------------------------------------------------------------------ *)
(** ** Pruning a parent *)

Lemma checkItemRemovalState_item nested primaryKeys :
  exists remove, checkItemRemovalState nested primaryKeys None = Ok remove.
Proof.
  unfold checkItemRemovalState. cbn [bindR].
  destruct nested as [| |b|n|s|l|f]; cbn [truthy negb]; try (eexists; reflexivity).
  - destruct b; cbn; eexists; reflexivity.
  - destruct (n =? 0); cbn; eexists; reflexivity.
  - destruct (s =? "")%string; cbn [negb]; [eexists; reflexivity|].
    cbn [getProp]. destruct (idKey =? "length")%string; [eexists; reflexivity|].
    destruct (findIndexKey idKey (stringLength s)); eexists; reflexivity.
  - cbn [getProp]. destruct (idKey =? "length")%string; [eexists; reflexivity|].
    destruct (findIndexKey idKey (List.length l)); eexists; reflexivity.
Qed.

Lemma pruneArray_unchanged type primaryKeys items :
  forall done,
    foldR (fun (acc : bool * list JsVal) nested =>
             remove <- checkItemRemovalState nested primaryKeys None ;;
             if negb remove then Ok (fst acc, (snd acc ++ [nested])%list)
             else
               (t <- traverseItemPathForId nested [] type primaryKeys ;;
                Ok (fst acc || fst t, (snd acc ++ [snd t])%list)))
          items (false, done)
    = Ok (false, (done ++ items)%list).
Proof.
  induction items as [|nested items IH]; intros done; cbn [foldR].
  - rewrite app_nil_r. reflexivity.
  - destruct (checkItemRemovalState_item nested primaryKeys) as [remove ->].
    cbn [bindR]. destruct remove; cbn [negb traverseItemPathForId bindR fst snd orb];
      rewrite IH, <- app_assoc; reflexivity.
Qed.

Lemma mapSet_same_value (fields : Fields) p v :
  mapGet fields p = Some v -> mapSet fields p v = fields.
Proof.
  induction fields as [|[k x] fields IH]; cbn; [discriminate|].
  destruct (String.eqb_spec k p) as [->|_].
  - intros H. injection H as ->. reflexivity.
  - intros H. rewrite (IH H). reflexivity.
Qed.

(** X25. A parent that holds its linked items in an array at the last
    property of the path is never adjusted: whatever the cascade and the
    keys, also when items of the array carry a key of the list, the parent
    comes back as it was and is reported as not adjusted. *)
Theorem traverseItemPathForId_array_kept fields p items type primaryKeys :
  mapGet fields p = Some (JArr items) ->
  traverseItemPathForId (JObj fields) [p] type primaryKeys = Ok (false, JObj fields).
Proof.
  intros Hp. cbn [traverseItemPathForId hasOwnProperty getProp bindR].
  unfold mapHas, getField. rewrite Hp. cbn [negb].
  match goal with
  | |- bindR (foldR ?f items (false, [])) _ = _ =>
      assert (Hloop : foldR f items (false, []) = Ok (false, ([] ++ items)%list))
        by exact (pruneArray_unchanged type primaryKeys items [])
  end.
  rewrite Hloop. cbn [bindR fst snd app replaceProp].
  rewrite (mapSet_same_value _ _ Hp). reflexivity.
Qed.

Lemma traverseItemPathForId_array_kept_witness :
  traverseItemPathForId
    (JObj [("id", JStr "p1");
           ("homes", JArr [JObj [("__pkey__", JStr "l1")]; JObj [("__pkey__", JStr "l2")]])])
    ["homes"] DELETE [JStr "l1"]
  = Ok (false,
        JObj [("id", JStr "p1");
              ("homes", JArr [JObj [("__pkey__", JStr "l1")]; JObj [("__pkey__", JStr "l2")]])]).
Proof.
  apply (@traverseItemPathForId_array_kept
           [("id", JStr "p1");
            ("homes", JArr [JObj [("__pkey__", JStr "l1")]; JObj [("__pkey__", JStr "l2")]])]
           "homes"
           [JObj [("__pkey__", JStr "l1")]; JObj [("__pkey__", JStr "l2")]]
           DELETE [JStr "l1"]).
  reflexivity.
Defined.

(* ------------------------------------------------------------------ *)
(** ** The names of the indices *)

Lemma containsDash_append a b :
  containsDash (a ++ b) = containsDash a || containsDash b.
Proof.
  induction a as [|c a IH]; cbn; [reflexivity|]. rewrite IH. apply orb_assoc.
Qed.

Lemma indexName_nested p key :
  indexName p -> containsDash key = false -> indexName (p ++ "." ++ key).
Proof.
  intros [Hs Hd] Hk. split.
  - destruct p as [|c p]; [discriminate Hs | exact Hs].
  - rewrite !containsDash_append, Hd, Hk. reflexivity.
Qed.

Lemma createKeyMapForItem_names st item :
  forall keyMap opts path km,
    match path with
    | Some p => p = "" \/ indexName p
    | None => True
    end ->
    (forall name, In name (mapKeys keyMap) -> indexName name) ->
    createKeyMapForItem st item keyMap opts path = Ok km ->
    forall name, In name (mapKeys km) -> indexName name.
Proof.
  induction item as [| |b|n|s|items IH|fields IH] using JsVal_nested_ind;
    intros keyMap opts path km Hpath Hmap; cbn [createKeyMapForItem];
    try discriminate; try (intros H; injection H as <-; exact Hmap).
  set (basePath := match path with
                   | Some p => if (p =? "")%string then "" else p ++ "."
                   | None => ""
                   end).
  assert (Hbase : forall key, startsWithNameChar key = true -> containsDash key = false ->
                              indexName (basePath ++ key)).
  { intros key Hs Hd. subst basePath. destruct path as [p|]; [|split; assumption].
    destruct (String.eqb_spec p "") as [->|Hne]; [split; assumption|].
    destruct Hpath as [->|Hp]; [contradiction|].
    rewrite append_assoc. apply indexName_nested; assumption. }
  clearbody basePath. revert keyMap Hmap.
  induction IH as [|[key value] fields Hvalue _ IHf]; intros keyMap Hmap;
    [intros H; injection H as <-; exact Hmap|].
  cbn [snd] in Hvalue.
  destruct (startsWithNameChar key) eqn:Es; cbn [negb orb]; [|apply IHf, Hmap].
  destruct (mapHas keyMap (basePath ++ key)); cbn [orb]; [apply IHf, Hmap|].
  destruct (containsDash key) eqn:Ed; [apply IHf, Hmap|].
  pose proof (Hbase key Es Ed) as Hname.
  assert (Hset : forall (m : KeyMap) v,
             (forall name, In name (mapKeys m) -> indexName name) ->
             forall name, In name (mapKeys (mapSet m (basePath ++ key) v)) -> indexName name).
  { intros m v Hm name Hin. apply mapKeys_mapSet_in in Hin as [->|Hin]; auto. }
  destruct (isArray value || isBoolean value); [apply IHf, Hmap|].
  destruct (typeofObject value); [|apply IHf, Hset, Hmap].
  intros H. apply bindR_ok in H as (keyMap1 & H1 & H2).
  assert (Hmap1 : forall name, In name (mapKeys keyMap1) -> indexName name).
  { eapply Hvalue; [|exact Hmap|exact H1]. right. exact Hname. }
  destruct (match _ with Some k => mapGet (optionsMap st) k | None => None end).
  - revert H2. apply IHf. unfold addLinkedKeyPaths.
    destruct (mapHas keyMap1 _); [exact Hmap1|].
    intros name Hin. apply mapKeys_mapSet_in in Hin as [->|Hin]; [|auto].
    apply indexName_nested; [exact Hname | reflexivity].
  - revert H2. apply IHf, Hset, Hmap1.
Qed.

(** X26. The index names that [createKeyMap] makes of the content: whatever
    the properties of the items are called, every name starts with a letter,
    [_] or [$] and holds no dash, and [__pkey__] is among them as a unique
    index. *)
Theorem createKeyMap_names st content opts keyMap :
  createKeyMap st content opts = Ok keyMap ->
  mapGet keyMap idKey = Some true
  /\ forall name, In name (mapKeys keyMap) -> indexName name.
Proof.
  unfold createKeyMap. intros H. apply bindR_ok in H as (km & Hfold & H).
  injection H as <-. split; [apply mapGet_mapSet_same|].
  intros name Hin. apply mapKeys_mapSet_in in Hin as [->|Hin]; [split; reflexivity|].
  revert name Hin.
  apply (@foldR_invariant JsVal KeyMap
           (fun m => forall name, In name (mapKeys m) -> indexName name)
           (fun km0 item => createKeyMapForItem st item km0 opts None)
           (firstn 20 content)) with (s := []); [|intros name []|exact Hfold].
  intros s x s' Hs Hx. eapply createKeyMapForItem_names; [|exact Hs|exact Hx]. exact I.
Qed.

Lemma createKeyMap_names_witness :
  mapGet [("name", false); ("__pkey__", true)] idKey = Some true
  /\ forall name, In name (mapKeys [("name", false); ("__pkey__", true)]) -> indexName name.
Proof.
  apply (@createKeyMap_names Scenario.emptyService
           [JObj [("@id", JStr "/api/locations/1"); ("name", JStr "Test");
                  ("zip-code", JStr "1234"); ("open", JBool true)]]
           None [("name", false); ("__pkey__", true)]).
  vm_compute. reflexivity.
Defined.

(* ------------------------------------------------------------------ *)
(** ** Tagging the linked values *)




(* ------------------------------------------------------------------ *)
(** ** The combinations of a trigger *)

Lemma everyAt_refl values : TtPersistenceService.everyAt values values = true.
Proof.
  induction values as [|v values IH]; cbn; [reflexivity|].
  rewrite String.eqb_refl. exact IH.
Qed.

Lemma coveredBy_refl combination : coveredBy combination combination = true.
Proof. unfold coveredBy. rewrite !everyAt_refl. reflexivity. Qed.

Lemma pruneStep_uncovered combinations :
  forall cleaned,
    uncovered cleaned ->
    uncovered (fold_left
                 (fun cleaned combination =>
                    if negb (existsb (coveredBy combination) cleaned)
                    then (cleaned ++ [combination])%list else cleaned)
                 combinations cleaned).
Proof.
  induction combinations as [|c combinations IH]; intros cleaned Hu; cbn [fold_left];
    [exact Hu|].
  apply IH. destruct (existsb (coveredBy c) cleaned) eqn:E; cbn [negb]; [exact Hu|].
  constructor; assumption.
Qed.

Lemma pruneStep_cover combinations :
  forall cleaned,
    let result := fold_left
                    (fun cleaned combination =>
                       if negb (existsb (coveredBy combination) cleaned)
                       then (cleaned ++ [combination])%list else cleaned)
                    combinations cleaned in
    (forall kept, In kept cleaned -> In kept result)
    /\ (forall kept, In kept result -> In kept cleaned \/ In kept combinations)
    /\ (forall c, In c combinations ->
          exists kept, In kept result /\ coveredBy c kept = true).
Proof.
  induction combinations as [|c combinations IH]; intros cleaned; cbn [fold_left].
  - split; [auto|]. split; [auto|]. intros c [].
  - destruct (IH (if negb (existsb (coveredBy c) cleaned)
                  then (cleaned ++ [c])%list else cleaned)) as (Hkeep & Hfrom & Hcover).
    split; [|split].
    + intros kept Hin. apply Hkeep.
      destruct (negb _); [apply in_or_app; left|]; exact Hin.
    + intros kept Hin. destruct (Hfrom kept Hin) as [H|H]; [|right; right; exact H].
      destruct (negb _); [|left; exact H].
      apply in_app_or in H as [H|[<-|[]]]; [left; exact H | right; left; reflexivity].
    + intros c0 [<-|Hin]; [|apply Hcover, Hin].
      destruct (existsb (coveredBy c) cleaned) eqn:E; cbn [negb] in *.
      * apply existsb_exists in E as (kept & Hin & Hc). exists kept. split; [|exact Hc].
        apply Hkeep, Hin.
      * exists c. split; [|apply coveredBy_refl].
        apply Hkeep, in_or_app. right. left. reflexivity.
Qed.

Lemma uncovered_NoDup cleaned : uncovered cleaned -> NoDup cleaned.
Proof.
  induction 1 as [|cleaned c Hu IH Hc]; [constructor|].
  apply (Permutation_NoDup (Permutation_cons_append cleaned c)).
  constructor; [|exact IH].
  intros Hin. assert (existsb (coveredBy c) cleaned = true); [|congruence].
  apply existsb_exists. exists c. split; [exact Hin | apply coveredBy_refl].
Qed.

Lemma uncovered_fixpoint cleaned :
  uncovered cleaned -> TtPersistenceService.pruneRuleCombinations cleaned = cleaned.
Proof.
  unfold TtPersistenceService.pruneRuleCombinations.
  induction 1 as [|cleaned c Hu IH Hc]; [reflexivity|].
  rewrite fold_left_app, IH. cbn [fold_left].
  change (existsb _ cleaned) with (existsb (coveredBy c) cleaned). rewrite Hc. reflexivity.
Qed.

(** X28. The combinations that [pruneRuleCombinations] keeps are
    combinations of the list and differ from each other; every combination
    of the list, kept or not, is covered by a kept one (its two lists are
    the beginnings of the lists of that one); and pruning what was kept
    changes nothing. *)
Theorem pruneRuleCombinations_cover combinations :
  let kept := TtPersistenceService.pruneRuleCombinations combinations in
  NoDup kept
  /\ (forall k, In k kept -> In k combinations)
  /\ (forall c, In c combinations -> exists k, In k kept /\ coveredBy c k = true)
  /\ TtPersistenceService.pruneRuleCombinations kept = kept.
Proof.
  intros kept.
  assert (Hu : uncovered kept)
    by exact (pruneStep_uncovered combinations uncovered_nil).
  destruct (pruneStep_cover combinations []) as (_ & Hfrom & Hcover).
  split; [apply uncovered_NoDup, Hu|]. split; [|split].
  - intros k Hin. destruct (Hfrom k Hin) as [[]|H]. exact H.
  - exact Hcover.
  - apply uncovered_fixpoint, Hu.
Qed.

(* ------------------------------------------------------------------ *)
(** ** The links in the settings *)

Lemma mapSet_fresh {V} (m : list (string * V)) k v :
  ~ In k (mapKeys m) -> mapSet m k v = (m ++ [(k, v)])%list.
Proof.
  unfold mapKeys. induction m as [|[k0 v0] m IH]; cbn; intros Hno; [reflexivity|].
  destruct (String.eqb_spec k0 k) as [->|_]; [exfalso; apply Hno; now left|].
  rewrite IH; [reflexivity|]. intros H. apply Hno. now right.
Qed.

Lemma mapKeys_mapSet_present {V} (m : list (string * V)) k v :
  In k (mapKeys m) -> mapKeys (mapSet m k v) = mapKeys m.
Proof.
  unfold mapKeys. induction m as [|[k0 v0] m IH]; cbn; intros Hin; [destruct Hin|].
  destruct (String.eqb_spec k0 k) as [->|Hne]; [reflexivity|].
  cbn. rewrite IH; [reflexivity|]. destruct Hin as [H|H]; [contradiction | exact H].
Qed.

Lemma mapSet_NoDup {V} (m : list (string * V)) k v :
  NoDup (mapKeys m) -> NoDup (mapKeys (mapSet m k v)).
Proof.
  intros Hnd. destruct (in_dec string_dec k (mapKeys m)) as [Hin|Hno].
  - rewrite (@mapKeys_mapSet_present _ m k v Hin). exact Hnd.
  - rewrite (@mapSet_fresh _ m k v Hno). unfold mapKeys. rewrite map_app. cbn.
    apply (Permutation_NoDup (Permutation_cons_append _ k)).
    constructor; assumption.
Qed.

Lemma newMap_NoDup {V} (entries : list (string * V)) : NoDup (mapKeys (newMap entries)).
Proof.
  unfold newMap.
  assert (H : forall acc : list (string * V), NoDup (mapKeys acc) ->
            NoDup (mapKeys (fold_left (fun m kv => mapSet m (fst kv) (snd kv)) entries acc))).
  { induction entries as [|e entries IH]; intros acc Hacc; cbn [fold_left]; [exact Hacc|].
    apply IH, mapSet_NoDup, Hacc. }
  apply H. constructor.
Qed.

Lemma fold_mapSet_distinct {V} (entries : list (string * V)) :
  forall acc,
    NoDup (mapKeys (acc ++ entries)) ->
    fold_left (fun m kv => mapSet m (fst kv) (snd kv)) entries acc = (acc ++ entries)%list.
Proof.
  induction entries as [|[k v] entries IH]; intros acc Hnd; cbn [fold_left fst snd].
  - rewrite app_nil_r. reflexivity.
  - assert (Hfresh : ~ In k (mapKeys acc)).
    { unfold mapKeys in *. rewrite map_app in Hnd. cbn in Hnd.
      apply NoDup_remove_2 in Hnd. intros H. apply Hnd, in_or_app. now left. }
    rewrite (@mapSet_fresh _ acc k v Hfresh), IH; rewrite <- app_assoc; [reflexivity | exact Hnd].
Qed.

Lemma newMap_distinct {V} (m : list (string * V)) : NoDup (mapKeys m) -> newMap m = m.
Proof. intros H. unfold newMap. now rewrite fold_mapSet_distinct. Qed.

Lemma convertLinkMapToSettingsLink_entries linkMap :
  convertLinkMapToSettingsLink linkMap = linkMap.
Proof.
  unfold convertLinkMapToSettingsLink.
  assert (H : forall acc : LinkMap,
            fold_left (fun linkArray (entry : string * StringMap) =>
                         (linkArray ++ [(fst entry, snd entry)])%list) linkMap acc
            = (acc ++ linkMap)%list).
  { induction linkMap as [|[s pm] linkMap IH]; intros acc; cbn [fold_left fst snd].
    - rewrite app_nil_r. reflexivity.
    - rewrite IH, <- app_assoc. reflexivity. }
  apply H.
Qed.

Lemma convertSettingsLinksToLinkMap_distinct v o linkMap mu mr :
  distinctLinks linkMap ->
  convertSettingsLinksToLinkMap (mkSettings v o linkMap mu mr) = linkMap.
Proof.
  unfold convertSettingsLinksToLinkMap, distinctLinks. cbn [links].
  intros [Hnd Hall].
  assert (H : forall acc : LinkMap,
            NoDup (mapKeys (acc ++ linkMap)) ->
            fold_left (fun lm (entry : string * StringMap) =>
                         mapSet lm (fst entry) (newMap (snd entry))) linkMap acc
            = (acc ++ linkMap)%list).
  { clear Hnd. induction linkMap as [|[s pm] linkMap IH]; intros acc Hacc;
      cbn [fold_left fst snd].
    - rewrite app_nil_r. reflexivity.
    - inversion Hall as [|? ? Hpm Hall']; subst. cbn [snd] in Hpm.
      assert (Hfresh : ~ In s (mapKeys acc)).
      { unfold mapKeys in *. rewrite map_app in Hacc. cbn in Hacc.
        apply NoDup_remove_2 in Hacc. intros H. apply Hacc, in_or_app. now left. }
      unfold LinkMap, StringMap in *.
      rewrite (@mapSet_fresh _ acc s (newMap pm) Hfresh), (@newMap_distinct _ pm Hpm), (IH Hall');
        rewrite <- app_assoc; [reflexivity | exact Hacc]. }
  apply H. exact Hnd.
Qed.

Lemma mapGet_In_entry {V} (m : list (string * V)) k v : mapGet m k = Some v -> In (k, v) m.
Proof.
  induction m as [|[k0 v0] m IH]; cbn; [discriminate|].
  destruct (String.eqb_spec k0 k) as [->|_].
  - intros H. injection H as ->. now left.
  - intros H. right. apply IH, H.
Qed.

Lemma distinctLinks_mapSet linkMap store propertyMap :
  distinctLinks linkMap -> NoDup (mapKeys propertyMap) ->
  distinctLinks (mapSet linkMap store propertyMap).
Proof.
  intros [Hnd Hall] Hpm. split; [apply mapSet_NoDup, Hnd|].
  rewrite Forall_forall in *. intros [s pm] Hin.
  apply In_mapSet in Hin as [[-> ->]|Hin]; [exact Hpm | apply (Hall _ Hin)].
Qed.

Lemma flattenPersistenceLinkOptions_distinct opts :
  forall om lm,
    distinctLinks lm -> distinctLinks (snd (flattenPersistenceLinkOptions opts om lm)).
Proof.
  induction opts as [sn pk uk lk sc c IH] using options_nested_ind.
  intros om lm Hlm. cbn [flattenPersistenceLinkOptions storeName].
  destruct lk as [keys|]; [|exact Hlm].
  generalize (if mapHas om sn then om else mapSet om sn (mkOptions sn pk uk (Some keys) sc c)).
  intros om1. revert om1 lm Hlm.
  induction IH as [|[property linkOptions] keys Hlink _ IHk]; intros om1 lm Hlm;
    [exact Hlm|].
  cbn [snd] in Hlink.
  match goal with
  | |- context [flattenPersistenceLinkOptions linkOptions om1 ?lm1] =>
      pose proof (Hlink om1 lm1) as Hstep;
      destruct (flattenPersistenceLinkOptions linkOptions om1 lm1) as [om2 lm2]
  end.
  apply IHk. apply Hstep. apply distinctLinks_mapSet; [exact Hlm|].
  apply mapSet_NoDup.
  destruct (mapGet lm sn) as [m|] eqn:Em; [|constructor].
  destruct Hlm as [_ Hall]. rewrite Forall_forall in Hall.
  apply (Hall _ (@mapGet_In_entry _ lm sn m Em)).
Qed.

(** X29. The links survive the settings: what [updatePersistenceSettings]
    leaves in the settings is, read back as after a reload, the link map
    that the service holds, store by store and property by property, for
    whatever options and whatever the settings held before. *)
Theorem links_survive_reload st opts :
  convertSettingsLinksToLinkMap (settings (updatePersistenceSettings st opts))
  = linkMap (updatePersistenceSettings st opts)
  /\ links (settings (updatePersistenceSettings st opts))
     = convertLinkMapToSettingsLink (linkMap (updatePersistenceSettings st opts)).
Proof.
  rewrite convertLinkMapToSettingsLink_entries.
  unfold updatePersistenceSettings.
  pose proof (@flattenPersistenceLinkOptions_distinct opts
                (newMap (options (settings st)))
                (map (fun e : string * StringMap => (fst e, newMap (snd e)))
                     (newMap (links (settings st))))) as Hflat.
  destruct (flattenPersistenceLinkOptions _ _ _) as [om lm]. cbn [snd] in Hflat.
  cbn [settings linkMap links]. split; [|reflexivity].
  apply convertSettingsLinksToLinkMap_distinct, Hflat.
  split.
  - unfold mapKeys. rewrite map_map. cbn [fst]. apply (newMap_NoDup (links (settings st))).
  - apply Forall_forall. intros e Hin. apply in_map_iff in Hin as (e0 & <- & _).
    cbn [snd]. apply newMap_NoDup.
Qed.

(* ------------------------------------------------------------------ *)
(** ** The link map without a store *)

Lemma In_mapDelete {V} (m : list (string * V)) k e :
  In e (mapDelete m k) <-> In e m /\ fst e <> k.
Proof.
  induction m as [|[k0 v0] m IH]; cbn; [tauto|].
  destruct (String.eqb_spec k0 k) as [->|Hne].
  - rewrite IH. split; [tauto|]. intros [[<-|H] Hk]; [cbn in Hk; contradiction | tauto].
  - cbn. rewrite IH. split.
    + intros [<-|[H Hk]]; [split; [now left | exact Hne] | tauto].
    + intros [[<-|H] Hk]; [now left | right; tauto].
Qed.

Lemma mapDelete_NoDup {V} (m : list (string * V)) k :
  NoDup (mapKeys m) -> NoDup (mapKeys (mapDelete m k)).
Proof.
  unfold mapKeys. induction m as [|[k0 v0] m IH]; cbn; intros Hnd; [constructor|].
  inversion Hnd as [|? ? Hno Hnd']; subst.
  destruct (String.eqb_spec k0 k); [apply IH, Hnd'|].
  cbn. constructor; [|apply IH, Hnd'].
  intros Hin. apply Hno. apply in_map_iff in Hin as ([k1 v1] & Hk & Hin).
  apply In_mapDelete in Hin as [Hin _]. apply in_map_iff. exists (k1, v1). auto.
Qed.

Lemma pruneLinks_In store (links : StringMap) :
  forall (stringMap : StringMap) link,
    In link (fold_left
               (fun (stringMap : StringMap) (link : string * string) =>
                  if (snd link =? store)%string then mapDelete stringMap (fst link)
                  else stringMap)
               links stringMap)
    <-> In link stringMap /\ ~ In (fst link, store) links.
Proof.
  induction links as [|[p l] links IH]; intros stringMap link; cbn [fold_left fst snd].
  - cbn. tauto.
  - rewrite IH. destruct (String.eqb_spec l store) as [->|Hne].
    + rewrite In_mapDelete. cbn [In]. split.
      * intros [[Hin Hp] Hno]. split; [exact Hin|].
        intros [H|H]; [|contradiction]. injection H as H. congruence.
      * intros [Hin Hno]. split; [split; [exact Hin|]|]; intros H; apply Hno;
          [left; congruence | right; exact H].
    + cbn [In]. split.
      * intros [Hin Hno]. split; [exact Hin|].
        intros [H|H]; [|contradiction]. injection H as _ H. contradiction.
      * intros [Hin Hno]. split; [exact Hin|]. intros H. apply Hno. right. exact H.
Qed.

Lemma mapSet_at {V} (before : list (string * V)) k v0 v after :
  ~ In k (mapKeys before) ->
  mapSet (before ++ (k, v0) :: after) k v = (before ++ (k, v) :: after)%list.
Proof.
  unfold mapKeys. induction before as [|[k1 v1] before IH]; cbn; intros Hno.
  - rewrite String.eqb_refl. reflexivity.
  - destruct (String.eqb_spec k1 k) as [->|_]; [exfalso; apply Hno; now left|].
    rewrite IH; [reflexivity|]. intros H. apply Hno. now right.
Qed.

Lemma pruneEntries_map (f : StringMap -> StringMap) (todo : LinkMap) :
  forall done : LinkMap,
    NoDup (mapKeys (done ++ todo)) ->
    fold_left (fun (linkMap1 : LinkMap) (entry : string * StringMap) =>
                 mapSet linkMap1 (fst entry) (f (snd entry)))
              todo (map (fun entry => (fst entry, f (snd entry))) done ++ todo)%list
    = map (fun entry => (fst entry, f (snd entry))) (done ++ todo).
Proof.
  induction todo as [|[s sm] todo IH]; intros done Hnd; cbn [fold_left fst snd].
  - rewrite map_app. reflexivity.
  - assert (Hfresh : ~ In s (mapKeys (map (fun entry : string * StringMap =>
                                             (fst entry, f (snd entry))) done))).
    { unfold mapKeys in *. rewrite map_map. cbn [fst].
      rewrite map_app in Hnd. cbn in Hnd. apply NoDup_remove_2 in Hnd.
      intros H. apply Hnd, in_or_app. now left. }
    unfold LinkMap, StringMap in *.
    rewrite (@mapSet_at _ _ s sm (f sm) todo Hfresh).
    specialize (IH (done ++ [(s, sm)])%list).
    rewrite map_app, <- !app_assoc in IH. cbn [map app fst snd] in IH.
    apply IH. exact Hnd.
Qed.

(** X30. After [pruneLinkMap] of a store, on a link map that has every
    store and every property once, the store has no entry and no store
    links to it any more, while every link between other stores is still
    there. *)
Theorem pruneLinkMap_unlinks linkMap store :
  distinctLinks linkMap ->
  mapGet (pruneLinkMap linkMap store) store = None
  /\ ~ linkedFrom (pruneLinkMap linkMap store) store
  /\ (forall parent links property other,
        In (parent, links) linkMap -> In (property, other) links ->
        parent <> store -> other <> store ->
        exists links', In (parent, links') (pruneLinkMap linkMap store)
                       /\ In (property, other) links').
Proof.
  intros [Hnd Hall]. unfold pruneLinkMap.
  pose proof (@pruneEntries_map
                (fun sm => fold_left
                             (fun (stringMap : StringMap) (link : string * string) =>
                                if (snd link =? store)%string
                                then mapDelete stringMap (fst link) else stringMap)
                             sm sm)
                (mapDelete linkMap store) []) as Hmap.
  cbn [map app] in Hmap. rewrite Hmap by (apply mapDelete_NoDup, Hnd). clear Hmap.
  split; [|split].
  - apply mapGet_None_not_In. unfold mapKeys. rewrite map_map. cbn [fst].
    intros Hin. apply in_map_iff in Hin as (e & He & Hin).
    apply In_mapDelete in Hin as [_ Hne]. contradiction.
  - intros (parent & links & property & Hin & Hlink).
    apply in_map_iff in Hin as ([s sm] & He & _). cbn [fst snd] in He.
    injection He as _ <-. apply pruneLinks_In in Hlink as [Hlink Hno].
    apply Hno. exact Hlink.
  - intros parent links property other Hin Hlink Hparent Hother.
    eexists. split.
    + apply in_map_iff. exists (parent, links). split; [reflexivity|].
      apply In_mapDelete. split; [exact Hin | exact Hparent].
    + cbn [snd]. apply pruneLinks_In. split; [exact Hlink|]. cbn [fst].
      intros Hstore. rewrite Forall_forall in Hall. specialize (Hall _ Hin). cbn [snd] in Hall.
      apply Hother.
      clear - Hall Hlink Hstore. unfold mapKeys in Hall.
      induction links as [|[p l] links IH]; [destruct Hlink|].
      cbn in Hall. inversion Hall as [|? ? Hno Hall']; subst.
      destruct Hlink as [H1|H1], Hstore as [H2|H2].
      * congruence.
      * injection H1 as -> ->. exfalso. apply Hno.
        change property with (fst (property, store)). apply in_map, H2.
      * injection H2 as -> ->. exfalso. apply Hno.
        change property with (fst (property, other)). apply in_map, H1.
      * apply IH; assumption.
Qed.

Lemma pruneLinkMap_unlinks_witness :
  mapGet (pruneLinkMap [("Company", [("person", "Person")]);
                        ("Person", [("home", "Location"); ("employer", "Company")]);
                        ("Location", [])] "Location") "Location" = None.
Proof.
  apply (@pruneLinkMap_unlinks
           [("Company", [("person", "Person")]);
            ("Person", [("home", "Location"); ("employer", "Company")]);
            ("Location", [])] "Location").
  split.
  - repeat constructor; cbn; intuition discriminate.
  - repeat constructor; cbn; intuition discriminate.
Defined.
